(** * The SPA JSON tokenizer ([src/examples/media-session/json.h])

    A shallow embedding of the streaming tokenizer [spa_json_next], of the
    container entry helpers, of the span classifiers and of the bool and
    string conversions, followed by the properties of the specification
    that concern them.

    Memory is a list of bytes; a [const char *] is an offset into it.
    Cursor objects ([struct spa_json]) live in a heap, a list addressed by
    index, so that the [parent] back-pointer and the store through it are
    modelled with their aliasing.

    The string helpers [pw_split_walk], [pw_split_ip] and [pw_strip] of
    [src/pipewire/utils.c] follow, over the same memory, with the
    functions of [<string.h>] that they call. *)

From Stdlib Require Import ZArith Lia Bool List.
From Stdlib Require Import Strings.Byte Strings.Ascii Strings.String.
From stdpp Require Import base list.
Import ListNotations.

Local Open Scope Z_scope.

(** ** Machine integers *)

Definition UINT32_MOD : Z := 2 ^ 32.
Definition INT_MAX : Z := 2 ^ 31 - 1.

(** [uint32_t] arithmetic wraps around. *)
Definition u32 (z : Z) : Z := z mod UINT32_MOD.

(** Conversion of a pointer difference to the [int] that is returned. *)
Definition to_int (z : Z) : Z := (z + 2 ^ 31) mod UINT32_MOD - 2 ^ 31.

(** ** Memory and characters *)

Abbreviation memory := (list byte).

(** The value of a byte as [unsigned char]. *)
Definition uc (b : byte) : Z := Z.of_N (Byte.to_N b).

(** [*p]: bytes outside the modelled region read as NUL. *)
Definition load_byte (mem : memory) (p : Z) : byte :=
  if p <? 0 then "000"%byte else nth (Z.to_nat p) mem "000"%byte.

Definition load (mem : memory) (p : Z) : Z := uc (load_byte mem p).

Definition ch (a : ascii) : Z := Z.of_N (N_of_ascii a).

Definition c_tab : Z := 9.
Definition c_lf : Z := 10.
Definition c_cr : Z := 13.
Definition c_bs : Z := 8.
Definition c_space : Z := 32.
Definition c_quote : Z := 34.
Definition c_comma : Z := Eval vm_compute in ch ",".
Definition c_minus : Z := Eval vm_compute in ch "-".
Definition c_slash : Z := Eval vm_compute in ch "/".
Definition c_colon : Z := Eval vm_compute in ch ":".
Definition c_lbracket : Z := Eval vm_compute in ch "[".
Definition c_backslash : Z := Eval vm_compute in ch "\".
Definition c_rbracket : Z := Eval vm_compute in ch "]".
Definition c_lbrace : Z := Eval vm_compute in ch "{".
Definition c_rbrace : Z := Eval vm_compute in ch "}".
Definition c_0 : Z := Eval vm_compute in ch "0".
Definition c_9 : Z := Eval vm_compute in ch "9".
Definition c_A : Z := Eval vm_compute in ch "A".
Definition c_Z : Z := Eval vm_compute in ch "Z".
Definition c_a : Z := Eval vm_compute in ch "a".
Definition c_z : Z := Eval vm_compute in ch "z".
Definition c_b : Z := Eval vm_compute in ch "b".
Definition c_f : Z := Eval vm_compute in ch "f".
Definition c_n : Z := Eval vm_compute in ch "n".
Definition c_r : Z := Eval vm_compute in ch "r".
Definition c_t : Z := Eval vm_compute in ch "t".
Definition c_u : Z := Eval vm_compute in ch "u".

(** The case labels of the switches in [spa_json_next]. *)

(** ['\t'], [' '], ['\r'], ['\n'], [':'], [',']. *)
Definition is_separator (c : Z) : bool :=
  (c =? c_tab) || (c =? c_space) || (c =? c_cr) || (c =? c_lf)
  || (c =? c_colon) || (c =? c_comma).

(** ['['], ['{']. *)
Definition is_open (c : Z) : bool := (c =? c_lbracket) || (c =? c_lbrace).

(** ['}'], [']']. *)
Definition is_close (c : Z) : bool := (c =? c_rbrace) || (c =? c_rbracket).

(** ['-'], ['a' ... 'z'], ['A' ... 'Z'], ['0' ... '9']. *)
Definition is_bare_start (c : Z) : bool :=
  (c =? c_minus) || ((c_a <=? c) && (c <=? c_z))
  || ((c_A <=? c) && (c <=? c_Z)) || ((c_0 <=? c) && (c <=? c_9)).

(** [cur >= 32 && cur <= 126]. *)
Definition is_printable (c : Z) : bool := (32 <=? c) && (c <=? 126).

(** The characters accepted after a backslash. *)
Definition is_escape (c : Z) : bool :=
  (c =? c_quote) || (c =? c_backslash) || (c =? c_slash) || (c =? c_b)
  || (c =? c_f) || (c =? c_n) || (c =? c_r) || (c =? c_t) || (c =? c_u).

(** ** The cursor *)

(** The anonymous enum of [spa_json_next]. *)
Inductive scan_state : Type :=
| __NONE | __STRUCT | __BARE | __STRING | __UTF8 | __ESC.

(** [struct spa_json]; [parent] is the heap index of the parent cursor. *)
Record spa_json : Type := mk_spa_json {
  cur : Z;
  end_ : Z;
  parent : option nat;
  state : scan_state;
  depth : Z
}.

Definition set_cur (c : Z) (it : spa_json) : spa_json :=
  mk_spa_json c (end_ it) (parent it) (state it) (depth it).
Definition set_state (s : scan_state) (it : spa_json) : spa_json :=
  mk_spa_json (cur it) (end_ it) (parent it) s (depth it).
Definition set_depth (d : Z) (it : spa_json) : spa_json :=
  mk_spa_json (cur it) (end_ it) (parent it) (state it) d.

(** [SPA_JSON_INIT(data, size)]: the remaining fields are zeroed. *)
Definition SPA_JSON_INIT (data size : Z) : spa_json :=
  mk_spa_json data (data + size) None __NONE 0.

(** [SPA_JSON_ENTER(iter)], with [p] the address of [iter]. *)
Definition SPA_JSON_ENTER (p : nat) (iter : spa_json) : spa_json :=
  mk_spa_json (cur iter) (end_ iter) (Some p) __NONE 0.

(** ** [spa_json_next] *)

(** What one pass through the switch does: [continue] (the loop then
    increments [iter->cur]) or [return].  A return carries the store
    [iter->parent->cur = iter->cur] when that statement was executed, as
    the pair of the parent's address and the value stored. *)
Inductive flow : Type :=
| Continue (iter : spa_json) (value : Z) (utf8_remain : Z)
| Return (rc : Z) (iter : spa_json) (value : Z) (store : option (nat * Z)).

Definition case_STRUCT (c : Z) (iter : spa_json) (value utf8_remain : Z) : flow :=
  if is_separator c then Continue iter value utf8_remain
  else if c =? c_quote then
    Continue (set_state __STRING iter) (cur iter) utf8_remain
  else if is_open c then
    let iter := set_depth (u32 (depth iter + 1)) iter in
    if 1 <? depth iter then Continue iter (cur iter) utf8_remain
    else Return 1 (set_cur (cur iter + 1) iter) (cur iter) None
  else if is_close c then
    if depth iter =? 0 then
      Return 0 iter value
        (match parent iter with Some p => Some (p, cur iter) | None => None end)
    else Continue (set_depth (u32 (depth iter - 1)) iter) value utf8_remain
  else if is_bare_start c then
    Continue (set_state __BARE iter) (cur iter) utf8_remain
  else Return (-1) iter value None.

Definition case_BARE (c : Z) (iter : spa_json) (value utf8_remain : Z) : flow :=
  if is_separator c || is_close c then
    let iter := set_state __STRUCT iter in
    if 0 <? depth iter then case_STRUCT c iter value utf8_remain
    else Return (to_int (cur iter - value)) iter value None
  else if is_printable c then Continue iter value utf8_remain
  else Return (-1) iter value None.

Definition case_STRING (c : Z) (iter : spa_json) (value utf8_remain : Z) : flow :=
  if c =? c_backslash then Continue (set_state __ESC iter) value utf8_remain
  else if c =? c_quote then
    let iter := set_state __STRUCT iter in
    if 0 <? depth iter then Continue iter value utf8_remain
    else
      let iter := set_cur (cur iter + 1) iter in
      Return (to_int (cur iter - value)) iter value None
  else if (240 <=? c) && (c <=? 247) then
    Continue (set_state __UTF8 iter) value (utf8_remain + 3)
  else if (224 <=? c) && (c <=? 239) then
    Continue (set_state __UTF8 iter) value (utf8_remain + 2)
  else if (192 <=? c) && (c <=? 223) then
    Continue (set_state __UTF8 iter) value (utf8_remain + 1)
  else if is_printable c then Continue iter value utf8_remain
  else Return (-1) iter value None.

Definition case_UTF8 (c : Z) (iter : spa_json) (value utf8_remain : Z) : flow :=
  if (128 <=? c) && (c <=? 191) then
    let utf8_remain := utf8_remain - 1 in
    if utf8_remain =? 0 then Continue (set_state __STRING iter) value utf8_remain
    else Continue iter value utf8_remain
  else Return (-1) iter value None.

Definition case_ESC (c : Z) (iter : spa_json) (value utf8_remain : Z) : flow :=
  if is_escape c then Continue (set_state __STRING iter) value utf8_remain
  else Return (-1) iter value None.

(** [switch (iter->state)], with the two [goto again] resolved. *)
Definition switch_state (c : Z) (iter : spa_json) (value utf8_remain : Z) : flow :=
  match state iter with
  | __NONE =>
      case_STRUCT c (set_depth 0 (set_state __STRUCT iter)) value utf8_remain
  | __STRUCT => case_STRUCT c iter value utf8_remain
  | __BARE => case_BARE c iter value utf8_remain
  | __STRING => case_STRING c iter value utf8_remain
  | __UTF8 => case_UTF8 c iter value utf8_remain
  | __ESC => case_ESC c iter value utf8_remain
  end.

(** The result of a call: return code, cursor, [*value], pending store. *)
Definition next_result : Type := Z * spa_json * Z * option (nat * Z).

Definition rc_of (r : next_result) : Z := fst (fst (fst r)).
Definition cursor_of (r : next_result) : spa_json := snd (fst (fst r)).
Definition value_of (r : next_result) : Z := snd (fst r).
Definition store_of (r : next_result) : option (nat * Z) := snd r.

(** [for (; iter->cur < iter->end; iter->cur++)], by recursion on the
    number [n] of bytes left between [cur] and [end]. *)
Fixpoint next_loop (n : nat) (buf : memory) (iter : spa_json)
    (value utf8_remain : Z) : next_result :=
  match n with
  | O => (if depth iter =? 0 then 0 else -1, iter, value, None)
  | S n' =>
      match switch_state (load buf (cur iter)) iter value utf8_remain with
      | Continue iter' value' utf8' =>
          next_loop n' buf (set_cur (cur iter' + 1) iter') value' utf8'
      | Return rc iter' value' store => (rc, iter', value', store)
      end
  end.

(** [spa_json_next] on the cursor itself; [value] is the content of the
    caller's [*value] on entry. *)
Definition next_cursor (buf : memory) (iter : spa_json) (value : Z)
    : next_result :=
  next_loop (Z.to_nat (end_ iter - cur iter)) buf iter value 0.

(** ** The heap of cursors *)

Abbreviation heap := (list spa_json).

Definition store_cur (h : heap) (st : option (nat * Z)) : heap :=
  match st with
  | Some (p, c) =>
      match h !! p with
      | Some pit => <[p := set_cur c pit]> h
      | None => h
      end
  | None => h
  end.

(** [spa_json_next(iter, &value)] with [iter] the cursor at address [i]
    (an address that holds no cursor is not a legal argument; the call is
    then given the result -1 and no effect). *)
Definition spa_json_next (buf : memory) (h : heap) (i : nat) (value : Z)
    : Z * heap * Z :=
  match h !! i with
  | Some iter =>
      let '(rc, iter', value', st) := next_cursor buf iter value in
      (rc, store_cur (<[i := iter']> h) st, value')
  | None => (-1, h, value)
  end.

(** [spa_json_init(iter, data, size)]: [iter] is a new object. *)
Definition spa_json_init (h : heap) (data size : Z) : heap * nat :=
  (h ++ [SPA_JSON_INIT data size], length h).

(** [spa_json_enter(iter, sub)] with [sub] a new object. *)
Definition spa_json_enter (h : heap) (i : nat) : heap * nat :=
  match h !! i with
  | Some iter => (h ++ [SPA_JSON_ENTER i iter], length h)
  | None => (h, i)
  end.

(** [spa_json_enter_container(iter, sub, type)]; [value0] is the
    indeterminate content of the uninitialised local [value].  The result
    carries the address of [sub] when it was initialised. *)
Definition spa_json_enter_container (buf : memory) (h : heap) (i : nat)
    (type : Z) (value0 : Z) : Z * heap * option nat :=
  let '(rc, h', value) := spa_json_next buf h i value0 in
  if (rc <? 0) || negb (load buf value =? type) then (-1, h', None)
  else
    let '(h'', sub) := spa_json_enter h' i in
    (1, h'', Some sub).

Definition spa_json_enter_object (buf : memory) (h : heap) (i : nat)
    (value0 : Z) : Z * heap * option nat :=
  spa_json_enter_container buf h i c_lbrace value0.

Definition spa_json_enter_array (buf : memory) (h : heap) (i : nat)
    (value0 : Z) : Z * heap * option nat :=
  spa_json_enter_container buf h i c_lbracket value0.

(** ** Classification of spans *)

(** A string literal of the source, without its terminating NUL. *)
Definition bytes (s : string) : memory := list_byte_of_string s.
Arguments bytes s%_string.

(** [strcmp(s1, s2)] with [s2] a literal: the comparison runs until the
    first difference or until both strings end with NUL. *)
Fixpoint strcmp (mem : memory) (s1 : Z) (s2 : list byte) : Z :=
  match s2 with
  | [] => load mem s1 - 0
  | b2 :: s2' =>
      let c1 := load mem s1 in
      let c2 := uc b2 in
      if c1 =? c2 then
        if c1 =? 0 then 0 else strcmp mem (s1 + 1) s2'
      else c1 - c2
  end.

Definition spa_json_is_object (mem : memory) (val len : Z) : bool :=
  (0 <? len) && (load mem val =? c_lbrace).

Definition spa_json_is_array (mem : memory) (val len : Z) : bool :=
  (0 <? len) && (load mem val =? c_lbracket).

Definition spa_json_is_string (mem : memory) (val len : Z) : bool :=
  (1 <? len) && (load mem val =? c_quote).

Definition spa_json_is_null (mem : memory) (val len : Z) : bool :=
  (len =? 4) && (strcmp mem val (bytes "null") =? 0).

Definition spa_json_is_true (mem : memory) (val len : Z) : bool :=
  (len =? 4) && (strcmp mem val (bytes "true") =? 0).

Definition spa_json_is_false (mem : memory) (val len : Z) : bool :=
  (len =? 5) && (strcmp mem val (bytes "false") =? 0).

Definition spa_json_is_bool (mem : memory) (val len : Z) : bool :=
  spa_json_is_true mem val len || spa_json_is_false mem val len.

(** ** Conversions *)

(** [spa_json_parse_bool(val, len, result)]: the return code and the
    content of [*result] on return; [result] is its content on entry. *)
Definition spa_json_parse_bool (mem : memory) (val len : Z) (result : bool)
    : Z * bool :=
  let result := spa_json_is_true mem val len in
  if result then (1, result)
  else
    let result := negb (spa_json_is_false mem val len) in
    if negb result then (1, result) else (-1, result).

(** [for (p = val+1; p < val + len-1; p++)]: [result] is the list of the
    bytes written so far, [stop] is [val + len - 1]. *)
Fixpoint parse_string_loop (fuel : nat) (mem : memory) (p stop : Z)
    (result : list byte) : option (list byte) :=
  if p <? stop then
    match fuel with
    | O => None
    | S fuel' =>
        if load mem p =? c_backslash then
          let p := p + 1 in
          let out :=
            if load mem p =? c_n then "010"%byte
            else if load mem p =? c_r then "013"%byte
            else if load mem p =? c_b then "008"%byte
            else if load mem p =? c_t then "009"%byte
            else load_byte mem p in
          parse_string_loop fuel' mem (p + 1) stop (result ++ [out])
        else
          parse_string_loop fuel' mem (p + 1) stop (result ++ [load_byte mem p])
    end
  else Some result.

(** [spa_json_parse_string(val, len, result)]: the return code and the
    bytes written to [result]; [None] only if the loop ran out of fuel. *)
Definition spa_json_parse_string (mem : memory) (val len : Z)
    : option (Z * list byte) :=
  if negb (spa_json_is_string mem val len) then Some (-1, [])
  else
    match parse_string_loop (Z.to_nat len) mem (val + 1) (val + len - 1) [] with
    | Some out => Some (1, out ++ ["000"%byte])
    | None => None
    end.

(** [spa_json_get_bool(iter, res)]. *)
Definition spa_json_get_bool (buf : memory) (h : heap) (i : nat)
    (value0 : Z) (res : bool) : Z * heap * bool :=
  let '(len, h', value) := spa_json_next buf h i value0 in
  if len <=? 0 then (-1, h', res)
  else
    let '(rc, res') := spa_json_parse_bool buf value len res in
    (rc, h', res').

(** ** The behaviour the specification describes *)

(** The decoding of one escaped character, in the words of the
    specification: [\n \r \b \t] become LF, CR, BS and TAB, every other
    escaped character stands for itself. *)
Definition spec_escaped (b : byte) : byte :=
  match b with
  | "n"%byte => "010"%byte
  | "r"%byte => "013"%byte
  | "b"%byte => "008"%byte
  | "t"%byte => "009"%byte
  | other => other
  end.

(** The decoding of the interior of a string span, in the words of the
    specification; [last] is the last byte of the span, the character that
    follows a backslash standing at the very end of the interior. *)
Fixpoint spec_decode (interior : list byte) (last : byte) : list byte :=
  match interior with
  | [] => []
  | b :: rest =>
      if Byte.eqb b "\"%byte then
        match rest with
        | e :: rest' => spec_escaped e :: spec_decode rest' last
        | [] => [spec_escaped last]
        end
      else b :: spec_decode rest last
  end.

(** The bytes of a span: [len] bytes from offset [val]. *)
Definition span (mem : memory) (val len : Z) : list byte :=
  firstn (Z.to_nat len) (skipn (Z.to_nat val) mem).

(** ** Callers *)

(** The root cursor over a whole buffer, in an empty heap. *)
Definition root (buf : memory) : heap :=
  fst (spa_json_init [] 0 (Z.of_nat (length buf))).

(** The life of a cursor in the hands of its caller: successive calls of
    [spa_json_next], up to and including the first that returns no token;
    the caller abandons the cursor after [calls] calls at the latest. *)
Fixpoint lifetime (calls : nat) (buf : memory) (iter : spa_json) (value : Z)
    : list next_result :=
  match calls with
  | O => []
  | S k =>
      let '(rc, iter', value', st) := next_cursor buf iter value in
      (rc, iter', value', st)
        :: (if 0 <? rc then lifetime k buf iter' value' else [])
  end.

(** The caller's loop that drains the cursor at address [i]: it calls
    [spa_json_next] until end of scope is reported, and gives up on an
    error or after [calls] calls. *)
Fixpoint drain (calls : nat) (buf : memory) (h : heap) (i : nat) (value : Z)
    : option (heap * Z) :=
  match calls with
  | O => None
  | S k =>
      let '(rc, h', value') := spa_json_next buf h i value in
      if rc =? 0 then Some (h', value')
      else if rc <? 0 then None
      else drain k buf h' i value'
  end.

(** What a caller sees of a call: the return code, and the start of the
    span when one was returned. *)
Definition observe (rc value : Z) : Z * option Z :=
  (rc, if 0 <? rc then Some value else None).

(** The results of [calls] successive calls on the cursor at address [i]. *)
Fixpoint results (calls : nat) (buf : memory) (h : heap) (i : nat) (value : Z)
    : list (Z * option Z) :=
  match calls with
  | O => []
  | S k =>
      let '(rc, h', value') := spa_json_next buf h i value in
      observe rc value' :: results k buf h' i value'
  end.






(** ** The write-back in the words of the specification *)

(** The write-back as the specification words it: the parent's [cur]
    receives the position one past the closing delimiter. *)
Definition writes_back_past_delimiter : Prop :=
  forall (buf : memory) (h : heap) (i p : nat) (iter pit : spa_json) (value : Z),
    h !! i = Some iter ->
    parent iter = Some p ->
    h !! p = Some pit ->
    state iter = __STRUCT ->
    depth iter = 0 ->
    cur iter < end_ iter ->
    is_close (load buf (cur iter)) = true ->
    forall rc h' value',
      spa_json_next buf h i value = (rc, h', value') ->
      rc = 0 /\ exists pit', h' !! p = Some pit' /\ cur pit' = cur iter + 1.

(** The memory holds the bytes [s] from offset [p] on. *)
Fixpoint bytes_at (mem : memory) (p : Z) (s : list byte) : Prop :=
  match s with
  | [] => True
  | b :: rest => load_byte mem p = b /\ bytes_at mem (p + 1) rest
  end.



(** ** Notions used in the proofs *)

(** A token is in progress only if it started, at [v], within the call
    (which started at [c0]). *)
Definition token_started (c0 : Z) (it : spa_json) (v : Z) : Prop :=
  state it = __NONE \/ state it = __STRUCT \/ c0 <= v < cur it.

(** The ways in which a call that started in Struct mode can return,
    on a buffer of at most [INT_MAX] bytes: with a token or container
    (positive), with 0 on a closing delimiter at depth 0 and the store
    through [parent], with 0 at the end of the buffer, or with -1. *)
Definition return_class (buf : memory) (it : spa_json)
    (rc : Z) (it' : spa_json) (st : option (nat * Z)) : Prop :=
  (0 < rc /\ state it' = __STRUCT /\ st = None)
  \/ (rc = 0 /\ cur it' < end_ it' /\
      is_close (load buf (cur it')) = true /\ depth it' = 0 /\
      state it' = __STRUCT /\
      st = match parent it with Some p => Some (p, cur it') | None => None end)
  \/ (rc = 0 /\ end_ it' <= cur it' /\ st = None)
  \/ (rc = -1 /\ st = None).

(** What the parent cursor [P], swallowing a container it did not enter,
    holds at the point where a child [C] that was entered instead
    stands: the child's position and mode, one level deeper. *)
Definition shadow (P C : spa_json) : spa_json :=
  mk_spa_json (cur C) (end_ P) (parent P)
    (match state C with __NONE => __STRUCT | s => s end)
    (match state C with __NONE => 1 | _ => depth C + 1 end).

(** What holds of a child that started at [c0] in the container. *)
Definition child_inv (c0 : Z) (P C : spa_json) (u : Z) : Prop :=
  end_ C = end_ P /\ c0 <= cur C /\ end_ P - c0 <= INT_MAX /\
  (state C = __NONE \/ 0 <= depth C <= cur C - c0) /\
  (state C = __UTF8 \/ u = 0).

(** Two contents of [*value] that the code cannot tell apart: it assigns
    [*value] before reading it when the cursor is between tokens. *)
Definition values_agree (it : spa_json) (v1 v2 : Z) : Prop :=
  v1 = v2 \/ state it = __NONE \/ state it = __STRUCT.

(** The results of successive calls, on the cursor alone. *)
Fixpoint cursor_results (calls : nat) (buf : memory) (it : spa_json)
    (value : Z) : list (Z * option Z) :=
  match calls with
  | O => []
  | S k =>
      let '(rc, it', value', _) := next_cursor buf it value in
      observe rc value' :: cursor_results k buf it' value'
  end.

(** One pass through the switch for the child [C] and, on the same byte,
    for the parent at [shadow P C]: either both continue in step; or the
    child fails; or the child returns 0 on the delimiter that closes it,
    where the parent stands in Struct mode at depth 1; or the child
    returns a container or a string and the parent continues in step; or
    the child returns a bare token in front of its terminator, which the
    parent goes on to process in Struct mode. *)
Definition sim_step (c0 : Z) (P : spa_json) (c : Z) (C : spa_json)
    (v vp u : Z) : Prop :=
  match switch_state c C v u with
  | Continue C1 v1 u1 =>
      child_inv c0 P (set_cur (cur C1 + 1) C1) u1 /\
      exists Pc1 vp1,
        switch_state c (shadow P C) vp u = Continue Pc1 vp1 u1 /\
        set_cur (cur Pc1 + 1) Pc1 = shadow P (set_cur (cur C1 + 1) C1)
  | Return rc C1 v1 st =>
      (rc = -1 /\ st = None)
      \/ (rc = 0 /\ cur C1 = cur C /\ u = 0 /\
          (state C = __NONE \/ (state C = __STRUCT /\ depth C = 0)))
      \/ (st = None /\ state C1 = __STRUCT /\ child_inv c0 P C1 0 /\
          exists Pc1 vp1,
            switch_state c (shadow P C) vp u = Continue Pc1 vp1 0 /\
            set_cur (cur Pc1 + 1) Pc1 = shadow P C1)
      \/ (st = None /\ state C1 = __STRUCT /\ child_inv c0 P C1 0 /\
          cur C1 = cur C /\ u = 0 /\
          switch_state c (shadow P C) vp u = switch_state c (shadow P C1) vp 0)
  end.

(** Two runs of the switch that differ in the content of [*value] only. *)
Definition same_step (f1 f2 : flow) : Prop :=
  match f1, f2 with
  | Continue a w1 u1, Continue b w2 u2 =>
      a = b /\ u1 = u2 /\ values_agree a w1 w2
  | Return r1 a w1 s1, Return r2 b w2 s2 =>
      r1 = r2 /\ a = b /\ s1 = s2 /\ values_agree a w1 w2 /\
      (0 < r1 -> w1 = w2)
  | _, _ => False
  end.

(** While a token is in progress [*value] is on its first character,
    which is no opening delimiter; and the depth is bounded by what is
    left of the buffer. *)
Definition scanning (buf : memory) (it : spa_json) (v : Z) : Prop :=
  (state it = __NONE \/ state it = __STRUCT \/ is_open (load buf v) = false)
  /\ ((state it = __NONE /\ end_ it - cur it <= INT_MAX)
      \/ (0 <= depth it /\ depth it + (end_ it - cur it) <= INT_MAX + 1)).

(** ** Further notions: windows, spans, stops *)

(** [' '], [':'] and [',']: the separators that are also printable. *)
Definition is_soft (c : Z) : bool :=
  (c =? c_space) || (c =? c_colon) || (c =? c_comma).

(** Two buffers that hold the same bytes between [lo] and [hi], except
    that a soft separator may stand for another. *)
Definition same_up_to_soft (b1 b2 : memory) (lo hi : Z) : Prop :=
  forall p, lo <= p < hi ->
    load b1 p = load b2 p \/
    (is_soft (load b1 p) = true /\ is_soft (load b2 p) = true).

(** Two buffers that hold the same bytes between [lo] and [hi]. *)
Definition same_window (b1 b2 : memory) (lo hi : Z) : Prop :=
  forall p, lo <= p < hi -> load b1 p = load b2 p.

(** A byte that ends a bare token. *)
Definition is_terminator (c : Z) : bool := is_separator c || is_close c.

(** While a token is in progress [*value] is on its first character,
    inside the part of the buffer that the call has read. *)
Definition token_open (buf : memory) (c0 : Z) (it : spa_json) (v : Z) : Prop :=
  match state it with
  | __NONE | __STRUCT => True
  | __BARE => c0 <= v < cur it /\ is_bare_start (load buf v) = true
  | __STRING | __UTF8 | __ESC => c0 <= v < cur it /\ load buf v = c_quote
  end.

(** The three kinds of span that a call returns; [e] is the cursor's
    [end]. *)
Definition span_kind (buf : memory) (v len e : Z) : Prop :=
  (is_open (load buf v) = true /\ len = 1)
  \/ (spa_json_is_string buf v len = true /\
      load buf (v + len - 1) = c_quote)
  \/ (is_bare_start (load buf v) = true /\ v + len < e /\
      is_terminator (load buf (v + len)) = true).

(** What a returned span satisfies, for a call that started at [c0]. *)
Definition span_ok (buf : memory) (c0 : Z) (rc : Z) (it' : spa_json) (v' : Z)
    : Prop :=
  c0 <= v' /\ v' + rc = cur it' /\ cur it' <= end_ it' /\
  span_kind buf v' rc (end_ it').

(** Where a call that returned no token has left the cursor: at the end
    of the buffer, or on a byte on which every further pass through the
    switch returns the same. *)
Definition stopped (buf : memory) (rc : Z) (it' : spa_json)
    (st : option (nat * Z)) : Prop :=
  (end_ it' <= cur it' /\ rc = (if depth it' =? 0 then 0 else -1) /\ st = None)
  \/ (cur it' < end_ it' /\
      forall w u, switch_state (load buf (cur it')) it' w u = Return rc it' w st).

(** [spa_json_get_string(iter, res, maxlen)]: the return code and the
    bytes written to [res]; [None] only if the loop of
    [spa_json_parse_string] ran out of fuel. *)
Definition spa_json_get_string (buf : memory) (h : heap) (i : nat)
    (value0 : Z) (maxlen : Z) : option (Z * heap * list byte) :=
  let '(len, h', value) := spa_json_next buf h i value0 in
  if (len <=? 0) || (maxlen <? len) then Some (-1, h', [])
  else
    match spa_json_parse_string buf value len with
    | Some (rc, out) => Some (rc, h', out)
    | None => None
    end.

(** A byte that may stand inside a bare token, and one that may stand
    inside a string. *)
Definition is_bare_byte (c : Z) : bool :=
  is_printable c && negb (is_terminator c).

Definition is_string_byte (c : Z) : bool :=
  is_printable c || ((128 <=? c) && (c <=? 247)).

(** The bytes of the token in progress are of the kind of the token. *)
Definition token_bytes (buf : memory) (it : spa_json) (v : Z) : Prop :=
  match state it with
  | __NONE | __STRUCT => True
  | __BARE => forall p, v <= p < cur it -> is_bare_byte (load buf p) = true
  | __STRING | __UTF8 | __ESC =>
      forall p, v < p < cur it -> is_string_byte (load buf p) = true
  end.

(** The bytes of a returned span: between the quotes of a string, and
    all through a bare token. *)
Definition span_bytes (buf : memory) (v len : Z) : Prop :=
  (load buf v = c_quote ->
   forall p, v < p < v + len - 1 -> is_string_byte (load buf p) = true) /\
  (is_bare_start (load buf v) = true ->
   forall p, v <= p < v + len -> is_bare_byte (load buf p) = true).

(** ** What a call meets, and what a caller does *)

(** The loop of [spa_json_next] at work: [scans buf it v u it' v' u']
    when the loop, entered with the cursor [it], [*value = v] and
    [utf8_remain = u], comes to its test [iter->cur < iter->end] with the
    cursor [it'], [*value = v'] and [utf8_remain = u'], after any number
    of passes through the switch that ended in [continue]. *)
Inductive scans (buf : memory)
    : spa_json -> Z -> Z -> spa_json -> Z -> Z -> Prop :=
| scans_here (it : spa_json) (v u : Z) : scans buf it v u it v u
| scans_on (it : spa_json) (v u : Z) (it1 : spa_json) (v1 u1 : Z)
    (it' : spa_json) (v' u' : Z) :
    cur it < end_ it ->
    switch_state (load buf (cur it)) it v u = Continue it1 v1 u1 ->
    scans buf (set_cur (cur it1 + 1) it1) v1 u1 it' v' u' ->
    scans buf it v u it' v' u'.

(** The call of [spa_json_next] on the cursor [it] meets a closing
    delimiter with depth 0, at the position [q]: its loop comes to [q],
    inside the window, in the mode in which [case '}': case ']':] is
    read ([__STRUCT], or [__NONE], which falls into it with depth 0), at
    depth 0. *)
Definition meets_close (buf : memory) (it : spa_json) (v : Z) (q : Z) : Prop :=
  exists it' v' u',
    scans buf it v 0 it' v' u' /\
    cur it' = q /\ q < end_ it' /\
    is_close (load buf q) = true /\
    ((state it' = __STRUCT /\ depth it' = 0) \/ state it' = __NONE).

(** What a caller does with the cursors of a heap: a call of
    [spa_json_next] on the cursor at address [i], or [spa_json_enter]
    from it into a new cursor. *)
Inductive act : Type :=
| act_next (i : nat) (value : Z)
| act_enter (i : nat).

Definition act_on (a : act) : nat :=
  match a with
  | act_next i _ => i
  | act_enter i => i
  end.

Definition run_act (buf : memory) (h : heap) (a : act) : heap :=
  match a with
  | act_next i value => snd (fst (spa_json_next buf h i value))
  | act_enter i => fst (spa_json_enter h i)
  end.

Definition run_acts (buf : memory) (h : heap) (acts : list act) : heap :=
  fold_left (run_act buf) acts h.

(** While the child at address [c] of the parent at address [p] is in
    use, the caller uses the child and the cursors below it: at no step
    the parent itself, or another child of the parent. *)
Definition below (h : heap) (p c : nat) (a : act) : bool :=
  negb (act_on a =? p)%nat &&
  match h !! act_on a with
  | Some it =>
      match parent it with
      | Some k => negb (k =? p)%nat || (act_on a =? c)%nat
      | None => true
      end
  | None => true
  end.

Fixpoint only_below (buf : memory) (p c : nat) (h : heap) (acts : list act)
    : bool :=
  match acts with
  | [] => true
  | a :: rest => below h p c a && only_below buf p c (run_act buf h a) rest
  end.

(** No call on the child at address [c] meets a closing delimiter with
    depth 0, in the course of the acts: the child is left before its end
    of scope, or it fails, or it runs to the end of the buffer. *)
Fixpoint never_meets (buf : memory) (c : nat) (h : heap) (acts : list act)
    : Prop :=
  match acts with
  | [] => True
  | a :: rest =>
      (forall v it q, a = act_next c v -> h !! c = Some it ->
         ~ meets_close buf it v q) /\
      never_meets buf c (run_act buf h a) rest
  end.

(** ** The write-back and the monotony in the words of the specification *)

(** The write-back as the specification words it, exactly once: after a
    call on the child has met the closing delimiter and written the
    parent's [cur], a later call on the child, whatever the caller has
    done with the parent meanwhile, leaves the parent alone. *)
Definition writes_back_once : Prop :=
  forall (buf : memory) (h : heap) (c p : nat) (it : spa_json) (v q : Z)
         (rc : Z) (h1 : heap) (v1 : Z),
    h !! c = Some it ->
    parent it = Some p ->
    spa_json_next buf h c v = (rc, h1, v1) ->
    meets_close buf it v q ->
    forall (h2 : heap) (pit2 : spa_json) (w : Z) (rc2 : Z) (h3 : heap) (w2 : Z),
      h2 !! c = h1 !! c ->
      h2 !! p = Some pit2 ->
      spa_json_next buf h2 c w = (rc2, h3, w2) ->
      h3 !! p = Some pit2.


(** * String helpers ([src/pipewire/utils.c]) *)

(** ** C strings and the functions of [<string.h>] that the helpers use *)

Definition is_nul (b : byte) : bool := Byte.eqb b "000"%byte.

(** [strchr(set, b) != NULL] for a byte [b] that is not NUL; [set] holds
    the characters of the string, without its NUL. *)
Definition in_set (b : byte) (set : list byte) : bool :=
  existsb (Byte.eqb b) set.

(** The bytes of memory from the address [p] on. *)
Definition from (mem : memory) (p : Z) : list byte :=
  if p <? 0 then [] else drop (Z.to_nat p) mem.

(** The length of the longest prefix all of whose bytes satisfy [P]. *)
Fixpoint prefix_len (P : byte -> bool) (l : list byte) : Z :=
  match l with
  | [] => 0
  | b :: rest => if P b then 1 + prefix_len P rest else 0
  end.

(** [strspn(s, accept)] and [strcspn(s, reject)]: the string at [s] ends
    at its first NUL. *)
Definition strspn (mem : memory) (s : Z) (accept : list byte) : Z :=
  prefix_len (fun b => negb (is_nul b) && in_set b accept) (from mem s).

Definition strcspn (mem : memory) (s : Z) (reject : list byte) : Z :=
  prefix_len (fun b => negb (is_nul b) && negb (in_set b reject)) (from mem s).

(** The string at [p]: the bytes before the first NUL. *)
Fixpoint until_nul (l : list byte) : list byte :=
  match l with
  | [] => []
  | b :: rest => if is_nul b then [] else b :: until_nul rest
  end.

Definition cstring (mem : memory) (p : Z) : list byte :=
  until_nul (from mem p).

(** [p[0] = b]: a store outside the modelled region is dropped. *)
Definition store_byte (mem : memory) (p : Z) (b : byte) : memory :=
  if p <? 0 then mem else <[Z.to_nat p := b]> mem.

(** ** [pw_split_walk] *)

(** [pw_split_walk(str, delimiter, &len, &state)]: the pointer returned
    ([None] for NULL) and the contents of [*len] and [*state] on return;
    [state] is [None] for NULL. *)
Definition pw_split_walk (mem : memory) (str : Z) (delimiter : list byte)
    (len : Z) (state : option Z) : option Z * Z * option Z :=
  let s := match state with Some p => p | None => str end in
  let s := s + strspn mem s delimiter in
  if load mem s =? 0 then (None, len, state)
  else
    let len := strcspn mem s delimiter in
    (Some s, len, Some (s + len)).

(** ** [pw_split_ip] *)

(** The loop of [pw_split_ip]; [tokens] lists the pointers stored in
    [tokens[0..n-1]].  [None] only if the fuel runs out. *)
Fixpoint split_ip_loop (fuel : nat) (mem : memory) (str : Z)
    (delimiter : list byte) (max_tokens : Z)
    (s : option Z) (len l2 : Z) (state : option Z) (n : Z) (tokens : list Z)
    : option (Z * list Z * memory) :=
  match s with
  | Some sp =>
      if n + 1 <? max_tokens then
        match fuel with
        | O => None
        | S fuel' =>
            let '(t, l2, state) := pw_split_walk mem str delimiter l2 state in
            let mem := store_byte mem (sp + len) "000"%byte in
            split_ip_loop fuel' mem str delimiter max_tokens
              t l2 l2 state (n + 1) (tokens ++ [sp])
        end
      else Some (n + 1, tokens ++ [sp], mem)
  | None => Some (n, tokens, mem)
  end.

(** [pw_split_ip(str, delimiter, max_tokens, tokens)]: the count
    returned, the pointers stored in [tokens] and the memory on return;
    [len0] and [l2] are the indeterminate first contents of the locals
    [len] and [l2]. *)
Definition pw_split_ip (mem : memory) (str : Z) (delimiter : list byte)
    (max_tokens : Z) (len0 l2 : Z) : option (Z * list Z * memory) :=
  let '(s, len, state) := pw_split_walk mem str delimiter len0 None in
  split_ip_loop (length mem) mem str delimiter max_tokens
    s len l2 state 0 [].

(** ** [pw_strip] *)

(** [for (e = str; *e; e++) if (!strchr(whitespace, *e)) l = e;] over
    the bytes [l0] of memory from [e] on. *)
Fixpoint last_kept (whitespace : list byte) (l0 : list byte) (e : Z)
    (l : option Z) : option Z :=
  match l0 with
  | [] => l
  | b :: rest =>
      if is_nul b then l
      else last_kept whitespace rest (e + 1)
             (if in_set b whitespace then l else Some e)
  end.

(** [pw_strip(str, whitespace)]: the pointer returned and the memory. *)
Definition pw_strip (mem : memory) (str : Z) (whitespace : list byte)
    : Z * memory :=
  let str := str + strspn mem str whitespace in
  match last_kept whitespace (from mem str) str None with
  | Some l => (str, store_byte mem (l + 1) "000"%byte)
  | None => (str, store_byte mem str "000"%byte)
  end.

(** ** The strings the helpers are documented to give *)

(** The substrings of [l] delimited by the bytes of [delimiter]; [acc]
    holds, in reverse, the substring in progress. *)
Fixpoint split_spec (delimiter : list byte) (l : list byte) (acc : list byte)
    : list (list byte) :=
  match l with
  | [] => match acc with [] => [] | _ :: _ => [rev acc] end
  | b :: rest =>
      if in_set b delimiter then
        match acc with
        | [] => split_spec delimiter rest []
        | _ :: _ => rev acc :: split_spec delimiter rest []
        end
      else split_spec delimiter rest (b :: acc)
  end.

(** A string without its leading bytes of [set]. *)
Fixpoint drop_set (set : list byte) (l : list byte) : list byte :=
  match l with
  | [] => []
  | b :: rest => if in_set b set then drop_set set rest else l
  end.

(** A string without the bytes of [whitespace] at its two ends. *)
Definition strip_spec (whitespace : list byte) (l : list byte) : list byte :=
  rev (drop_set whitespace (rev (drop_set whitespace l))).

(** The caller's loop over [pw_split_walk], as its documentation gives
    it: the tokens returned, as pairs of pointer and length, until NULL
    is returned (or for [calls] calls). *)
Fixpoint walk_all (calls : nat) (mem : memory) (str : Z)
    (delimiter : list byte) (len : Z) (state : option Z) : list (Z * Z) :=
  match calls with
  | O => []
  | S k =>
      match pw_split_walk mem str delimiter len state with
      | (Some s, len', state') =>
          (s, len') :: walk_all k mem str delimiter len' state'
      | (None, _, _) => []
      end
  end.

(** ** Notions used in the proofs about the string helpers *)

(** What [pw_split_ip] does to the tokens [(s, len)] that the walk over
    the string gives: the count, the pointers stored and the memory. *)
Fixpoint split_ip_of (toks : list (Z * Z)) (max_tokens : Z) (n : Z)
    (tokens : list Z) (mem : memory) : Z * list Z * memory :=
  match toks with
  | [] => (n, tokens, mem)
  | (sp, len) :: rest =>
      if n + 1 <? max_tokens then
        split_ip_of rest max_tokens (n + 1) (tokens ++ [sp])
          (store_byte mem (sp + len) "000"%byte)
      else (n + 1, tokens ++ [sp], mem)
  end.

(** Tokens in the memory [mem], one after the other from [lo] on: each
    one is not empty, holds no delimiter and no NUL and is followed by a
    delimiter or a NUL. *)
Fixpoint tokens_in_order (mem : memory) (delimiter : list byte) (lo : Z)
    (toks : list (Z * Z)) : Prop :=
  match toks with
  | [] => True
  | (s, len) :: rest =>
      lo <= s /\ 0 < len /\
      (forall q, s <= q < s + len ->
         in_set (load_byte mem q) delimiter = false /\
         is_nul (load_byte mem q) = false) /\
      (is_nul (load_byte mem (s + len)) = true \/
       in_set (load_byte mem (s + len)) delimiter = true) /\
      tokens_in_order mem delimiter (s + len) rest
  end.

(** The memory after a NUL is stored behind each of the tokens. *)
Definition cut_after (mem : memory) (toks : list (Z * Z)) : memory :=
  foldl (fun m t => store_byte m (fst t + snd t) "000"%byte) mem toks.

(** * Properties *)

(** ** Concrete runs *)

(** C1. On the 10-byte buffer ["true false"] the root cursor returns the
    span ["true"] (offset 0, length 4) and then reports end of scope: the
    loop leaves the buffer in the middle of the bare token ["false"] and
    the final [return] only looks at [depth], so the second top-level
    value is never returned. *)
Theorem next_true_false_loses_last_token :
  forall value0 : Z,
    let buf := bytes "true false" in
    length buf = 10%nat /\
    map (fun r => observe (rc_of r) (value_of r))
        (lifetime 10 buf (SPA_JSON_INIT 0 10) value0)
      = [(4, Some 0); (0, None)] /\
    span buf 0 4 = bytes "true".
Proof.
  intros value0. cbv zeta. repeat split; vm_compute; reflexivity.
Qed.

(** C2. On the 4-byte buffer made of a double quote followed by [abc] the
    first call on a fresh root cursor returns 0, end of scope, and not a
    negative value: the buffer ends inside the string at depth 0. *)
Theorem next_unterminated_string_returns_zero :
  forall value0 : Z,
    let buf := "034"%byte :: bytes "abc" in
    length buf = 4%nat /\
    exists h' value',
      spa_json_next buf (root buf) 0%nat value0 = (0, h', value') /\
      (state <$> h' !! 0%nat) = Some __STRING.
Proof.
  intros value0. cbv zeta. split; [reflexivity|].
  eexists _, _. split; vm_compute; reflexivity.
Qed.

(** C3. In the buffer ["true false"] the span at offset 0 of length 4 is
    exactly ["true"], and it is the span that [spa_json_next] returns
    first; [spa_json_is_true] answers false on it, because [strcmp] goes
    on to compare the space that follows the span with the NUL that ends
    the literal.  The same span followed by a NUL is classified true. *)
Theorem is_true_reads_past_span :
  let buf := bytes "true false" in
  span buf 0 4 = bytes "true" /\
  (let r := next_cursor buf (SPA_JSON_INIT 0 10) 0 in
   observe (rc_of r) (value_of r)) = (4, Some 0) /\
  spa_json_is_true buf 0 4 = false /\
  spa_json_is_true (bytes "true" ++ ["000"%byte]) 0 4 = true /\
  spa_json_is_false (bytes "false,") 0 5 = false /\
  spa_json_is_null (bytes "null]") 0 4 = false.
Proof.
  cbv zeta. repeat split; vm_compute; reflexivity.
Qed.

(** C5. On the buffer ["[[]]"], after the root cursor has reported the
    outer array, [spa_json_enter_container] for an array calls
    [spa_json_next], which swallows the inner array and reports end of
    scope (0); as only a negative return is tested and [value] was left on
    the inner bracket, the function initialises [sub] and returns 1. *)
Theorem enter_container_accepts_end_of_scope :
  forall value0 value1 : Z,
    let buf := bytes "[[]]" in
    exists h1 h2 h3 value',
      spa_json_next buf (root buf) 0%nat value0 = (1, h1, 0) /\
      spa_json_next buf h1 0%nat value1 = (0, h2, value') /\
      spa_json_enter_container buf h1 0%nat c_lbracket value1
        = (1, h3, Some 1%nat) /\
      h3 !! 1%nat = Some (mk_spa_json 4 4 (Some 0%nat) __NONE 0).
Proof.
  intros value0 value1. cbv zeta.
  eexists _, _, _, _. repeat split; vm_compute; reflexivity.
Qed.

(** The sibling [spa_json_get_bool] tests [<= 0] and fails on the same
    cursor, where [spa_json_next] reports end of scope. *)
Lemma get_bool_rejects_end_of_scope :
  forall value0 : Z,
    let buf := bytes "[[]]" in
    let h1 := [mk_spa_json 1 4 None __STRUCT 1] in
    fst (fst (spa_json_get_bool buf h1 0%nat value0 false)) = -1.
Proof. intros value0. vm_compute. reflexivity. Qed.

(** ** Conversions *)

(** [spa_json_parse_bool] fails exactly on the spans that are neither
    classified true nor false. *)
Lemma parse_bool_fails_iff (mem : memory) (val len : Z) (result : bool) :
  fst (spa_json_parse_bool mem val len result) = -1
  <-> spa_json_is_bool mem val len = false.
Proof.
  unfold spa_json_parse_bool, spa_json_is_bool.
  destruct (spa_json_is_true mem val len), (spa_json_is_false mem val len);
    simpl; split; intros; congruence.
Qed.

(** C10. When [spa_json_parse_bool] fails, that is when the span is
    classified neither true nor false, it returns -1 and has stored [true]
    into [*result], whatever [*result] held before. *)
Theorem parse_bool_failure_sets_result
    (mem : memory) (val len : Z) (result : bool) :
  spa_json_is_true mem val len = false ->
  spa_json_is_false mem val len = false ->
  spa_json_parse_bool mem val len result = (-1, true).
Proof.
  intros Ht Hf. unfold spa_json_parse_bool. rewrite Ht, Hf. reflexivity.
Qed.

Lemma parse_bool_failure_sets_result_witness :
  spa_json_parse_bool (bytes "maybe") 0 5 false = (-1, true).
Proof.
  apply parse_bool_failure_sets_result; vm_compute; reflexivity.
Defined.

Lemma bytes_at_take_drop (mem : memory) (n p : nat) :
  (p + n <= length mem)%nat ->
  bytes_at mem (Z.of_nat p) (take n (drop p mem)).
Proof.
  revert p. induction n as [|n IH]; intros p Hp; [exact I|].
  destruct (lookup_lt_is_Some_2 mem p) as [b Hb]; [lia|].
  rewrite (drop_S _ _ _ Hb). simpl. split.
  - unfold load_byte. destruct (Z.ltb_spec (Z.of_nat p) 0) as [?|_]; [lia|].
    rewrite Nat2Z.id. apply nth_lookup_Some with (d := "000"%byte) in Hb.
    exact Hb.
  - replace (Z.of_nat p + 1) with (Z.of_nat (S p)) by lia.
    apply IH. lia.
Qed.

Lemma bytes_at_span (mem : memory) (val len : Z) :
  0 <= val -> 0 <= len -> val + len <= Z.of_nat (length mem) ->
  bytes_at mem val (span mem val len) /\
  length (span mem val len) = Z.to_nat len.
Proof.
  intros Hv Hl Hm. unfold span. split.
  - rewrite <- (Z2Nat.id val) at 1 by assumption.
    apply bytes_at_take_drop. lia.
  - rewrite length_take, length_drop. lia.
Qed.

(** ** The classifiers of literals *)

Lemma uc_inj (a b : byte) : uc a = uc b -> a = b.
Proof.
  unfold uc. intros H. apply N2Z.inj in H.
  assert (Hs : Some a = Some b)
    by (rewrite <- (Byte.of_to_N a), <- (Byte.of_to_N b); now rewrite H).
  now injection Hs.
Qed.

(** [strcmp] against a literal returns 0 exactly when memory holds the
    characters of the literal followed by a NUL. *)
Lemma strcmp_zero_iff (mem : memory) (lit : list byte) :
  Forall (fun b => uc b <> 0) lit ->
  forall s1 : Z,
    strcmp mem s1 lit = 0 <-> bytes_at mem s1 (lit ++ ["000"%byte]).
Proof.
  induction 1 as [|b lit Hb Hlit IH]; intros s1; cbn [strcmp app bytes_at].
  - unfold load. split.
    + intros H. split; [|exact I]. apply uc_inj. cbn. lia.
    + intros [H _]. rewrite H. reflexivity.
  - unfold load. destruct (Z.eqb_spec (uc (load_byte mem s1)) (uc b)) as [E|E].
    + destruct (Z.eqb_spec (uc (load_byte mem s1)) 0) as [Z0|_]; [congruence|].
      rewrite IH. apply uc_inj in E. tauto.
    + split; [lia|]. intros [H _]. congruence.
Qed.

(** What [spa_json_is_true] decides: the span has length 4 and memory
    holds [true] followed by a NUL.  Likewise for the two other
    literals. *)
Lemma is_true_iff (mem : memory) (val len : Z) :
  spa_json_is_true mem val len = true
  <-> len = 4 /\ bytes_at mem val (bytes "true" ++ ["000"%byte]).
Proof.
  unfold spa_json_is_true.
  rewrite andb_true_iff, !Z.eqb_eq, strcmp_zero_iff; [reflexivity|].
  repeat constructor; cbn; lia.
Qed.

Lemma is_false_iff (mem : memory) (val len : Z) :
  spa_json_is_false mem val len = true
  <-> len = 5 /\ bytes_at mem val (bytes "false" ++ ["000"%byte]).
Proof.
  unfold spa_json_is_false.
  rewrite andb_true_iff, !Z.eqb_eq, strcmp_zero_iff; [reflexivity|].
  repeat constructor; cbn; lia.
Qed.

Lemma is_null_iff (mem : memory) (val len : Z) :
  spa_json_is_null mem val len = true
  <-> len = 4 /\ bytes_at mem val (bytes "null" ++ ["000"%byte]).
Proof.
  unfold spa_json_is_null.
  rewrite andb_true_iff, !Z.eqb_eq, strcmp_zero_iff; [reflexivity|].
  repeat constructor; cbn; lia.
Qed.

(** The if-chain of the source and the table of the specification decode
    an escaped character alike. *)
Lemma source_escape_is_spec_escaped (b : byte) :
  (if uc b =? c_n then "010"%byte
   else if uc b =? c_r then "013"%byte
   else if uc b =? c_b then "008"%byte
   else if uc b =? c_t then "009"%byte
   else b) = spec_escaped b.
Proof. destruct b; reflexivity. Qed.

Lemma is_backslash_eqb (b : byte) :
  (uc b =? c_backslash) = Byte.eqb b "\"%byte.
Proof. destruct b; reflexivity. Qed.

Lemma parse_string_loop_done (fuel : nat) (mem : memory) (p stop : Z)
    (acc : list byte) :
  stop <= p -> parse_string_loop fuel mem p stop acc = Some acc.
Proof.
  intros H. destruct fuel; simpl;
    destruct (Z.ltb_spec p stop); try lia; reflexivity.
Qed.

(** The loop of [spa_json_parse_string] computes [spec_decode], and the
    fuel of one unit per byte is enough. *)
Lemma parse_string_loop_spec (fuel : nat) :
  forall (s : list byte) (mem : memory) (p stop : Z) (acc : list byte),
    bytes_at mem p s ->
    stop = p + Z.of_nat (length s) ->
    (length s <= fuel)%nat ->
    parse_string_loop fuel mem p stop acc
    = Some (acc ++ spec_decode s (load_byte mem stop)).
Proof.
  induction fuel as [|fuel IH]; intros s mem p stop acc Hs Hstop Hfuel.
  - destruct s; [|simpl in Hfuel; lia].
    rewrite parse_string_loop_done by (cbn [length] in Hstop; lia).
    simpl. now rewrite app_nil_r.
  - destruct s as [|b rest].
    + rewrite parse_string_loop_done by (cbn [length] in Hstop; lia).
      simpl. now rewrite app_nil_r.
    + destruct Hs as [Hb Hrest]. cbn [length] in Hstop, Hfuel.
      cbn [parse_string_loop spec_decode].
      destruct (Z.ltb_spec p stop) as [_|?]; [|lia].
      unfold load at 1. rewrite Hb, is_backslash_eqb.
      destruct (Byte.eqb b "\"%byte).
      * destruct rest as [|e rest'].
        -- cbn [length] in Hstop.
           rewrite parse_string_loop_done by lia.
           unfold load. rewrite source_escape_is_spec_escaped.
           replace stop with (p + 1) by lia. reflexivity.
        -- destruct Hrest as [He Hrest']. cbn [length] in Hstop, Hfuel.
           unfold load. rewrite He, source_escape_is_spec_escaped.
           rewrite (IH rest' mem (p + 1 + 1) stop); [|assumption|lia|lia].
           now rewrite <- app_assoc.
      * rewrite (IH rest mem (p + 1) stop); [|assumption|lia|lia].
        now rewrite <- app_assoc.
Qed.

(** Every step of the decoding consumes at least one byte of the
    interior and produces one byte. *)
Lemma spec_decode_length (last : byte) (n : nat) :
  forall s : list byte,
    (length s <= n)%nat -> (length (spec_decode s last) <= length s)%nat.
Proof.
  induction n as [|n IH]; intros s Hn.
  - destruct s; [simpl; lia|simpl in Hn; lia].
  - destruct s as [|b rest]; [simpl; lia|]. simpl in Hn.
    cbn [spec_decode]. destruct (Byte.eqb b "\"%byte).
    + destruct rest as [|e rest']; [simpl; lia|]. simpl in Hn.
      specialize (IH rest' ltac:(lia)). simpl. lia.
    + specialize (IH rest ltac:(lia)). simpl. lia.
Qed.

(** C9. On a span classified as a string, lying in memory,
    [spa_json_parse_string] succeeds; what it writes is the interior of
    the span (the bytes strictly between its first and last byte) decoded
    as the specification says ([\n \r \b \t] to LF, CR, BS, TAB, any other
    escaped character copied as it is, no decoding of the hex digits after
    [\u]) followed by a NUL; this takes at most [len - 1] bytes. *)
Theorem parse_string_decodes_interior (mem : memory) (val len : Z) :
  0 <= val ->
  val + len <= Z.of_nat (length mem) ->
  spa_json_is_string mem val len = true ->
  exists out : list byte,
    spa_json_parse_string mem val len = Some (1, out) /\
    out = spec_decode (span mem (val + 1) (len - 2))
            (load_byte mem (val + len - 1)) ++ ["000"%byte] /\
    Z.of_nat (length out) <= len - 1.
Proof.
  intros Hval Hmem Hstr.
  unfold spa_json_parse_string. rewrite Hstr. simpl negb. cbv iota.
  assert (Hlen : 1 < len).
  { unfold spa_json_is_string in Hstr.
    apply andb_true_iff in Hstr as [H _]. lia. }
  destruct (bytes_at_span mem (val + 1) (len - 2)) as [Hat Hl]; [lia..|].
  rewrite (parse_string_loop_spec (Z.to_nat len) _ mem (val + 1) _ [] Hat);
    [|lia|lia].
  eexists. split; [reflexivity|]. split; [reflexivity|].
  rewrite length_app. simpl.
  pose proof (spec_decode_length (load_byte mem (val + len - 1)) _
                (span mem (val + 1) (len - 2)) (Nat.le_refl _)).
  lia.
Qed.

Lemma parse_string_decodes_interior_witness :
  let mem := "034"%byte :: bytes "a\n\u00e9z" ++ ["034"%byte] in
  exists out : list byte,
    spa_json_parse_string mem 0 12 = Some (1, out) /\
    out = spec_decode (span mem (0 + 1) (12 - 2))
            (load_byte mem (0 + 12 - 1)) ++ ["000"%byte] /\
    Z.of_nat (length out) <= 12 - 1.
Proof.
  cbv zeta. apply parse_string_decodes_interior.
  - lia.
  - vm_compute. intro H. discriminate H.
  - vm_compute. reflexivity.
Defined.

(** ** One pass through the switch *)

Ltac break_if :=
  match goal with
  | |- context [if ?b then _ else _] => destruct b eqn:?
  end.

(** Unfolds the character classes in the context and leaves linear
    arithmetic over the character code. *)
Ltac char_facts :=
  unfold is_separator, is_open, is_close, is_bare_start, is_printable,
    is_escape, c_tab, c_lf, c_cr, c_space, c_quote, c_comma, c_minus,
    c_slash, c_colon, c_lbracket, c_backslash, c_rbracket, c_lbrace,
    c_rbrace, c_0, c_9, c_A, c_Z, c_a, c_z, c_b, c_f, c_n, c_r, c_t, c_u in *;
  repeat match goal with
         | H : _ || _ = true |- _ => apply orb_true_iff in H
         | H : _ || _ = false |- _ => apply orb_false_iff in H; destruct H
         | H : _ && _ = true |- _ => apply andb_true_iff in H; destruct H
         | H : _ && _ = false |- _ => apply andb_false_iff in H
         | H : (_ =? _) = true |- _ => apply Z.eqb_eq in H
         | H : (_ =? _) = false |- _ => apply Z.eqb_neq in H
         | H : (_ <=? _) = true |- _ => apply Z.leb_le in H
         | H : (_ <=? _) = false |- _ => apply Z.leb_gt in H
         | H : (_ <? _) = true |- _ => apply Z.ltb_lt in H
         | H : (_ <? _) = false |- _ => apply Z.ltb_ge in H
         end.

Ltac cursor_simpl :=
  cbn [cur end_ parent state depth set_cur set_state set_depth
       SPA_JSON_ENTER SPA_JSON_INIT] in *.

Ltac unfold_switch :=
  unfold switch_state, case_BARE, case_STRING, case_UTF8, case_ESC,
    case_STRUCT.

(** A pass through the switch leaves [end] and [parent] alone; it moves
    [cur] only to return past a delimiter or a closing quote; and it
    stores into the parent only on a closing delimiter at depth 0, and
    then returns 0 with [cur] on that delimiter. *)
Lemma switch_state_frame (c : Z) (it : spa_json) (v u : Z) :
  match switch_state c it v u with
  | Continue it' _ _ =>
      cur it' = cur it /\ end_ it' = end_ it /\ parent it' = parent it
  | Return rc it' _ st =>
      end_ it' = end_ it /\ parent it' = parent it /\
      cur it <= cur it' <= cur it + 1 /\
      match st with
      | Some (p, q) =>
          parent it = Some p /\ q = cur it /\ cur it' = cur it /\ rc = 0 /\
          is_close c = true /\ depth it' = 0 /\ state it' = __STRUCT
      | None => True
      end
  end.
Proof.
  destruct it as [cu en [pa|] s d]; unfold_switch;
  destruct s; cbn [state depth cur end_ parent set_state set_depth set_cur];
    repeat break_if;
    cbn [state depth cur end_ parent set_state set_depth set_cur];
    repeat split; try lia; try congruence; try discriminate;
    try (char_facts; lia).
Qed.

(** ** The loop *)

(** The loop as the source writes it: while [cur < end], one pass through
    the switch, then [cur++]; after the loop, the test of [depth]. *)
Lemma next_cursor_unfold (buf : memory) (iter : spa_json) (value u : Z) :
  next_loop (Z.to_nat (end_ iter - cur iter)) buf iter value u =
  if cur iter <? end_ iter then
    match switch_state (load buf (cur iter)) iter value u with
    | Continue iter' value' u' =>
        let iter'' := set_cur (cur iter' + 1) iter' in
        next_loop (Z.to_nat (end_ iter'' - cur iter'')) buf iter'' value' u'
    | Return rc iter' value' st => (rc, iter', value', st)
    end
  else (if depth iter =? 0 then 0 else -1, iter, value, None).
Proof.
  destruct (Z.ltb_spec (cur iter) (end_ iter)) as [Hlt|Hge].
  - destruct (Z.to_nat (end_ iter - cur iter)) as [|n] eqn:Hn; [lia|].
    cbn [next_loop].
    pose proof (switch_state_frame (load buf (cur iter)) iter value u) as Hf.
    destruct (switch_state (load buf (cur iter)) iter value u)
      as [it' v' u'|]; [|reflexivity].
    destruct Hf as (Hc & He & _). cbn zeta. cbn [cur end_ set_cur].
    rewrite Hc, He. f_equal. lia.
  - replace (Z.to_nat (end_ iter - cur iter)) with 0%nat by lia. reflexivity.
Qed.

Lemma next_loop_frame (buf : memory) (n : nat) :
  forall (it : spa_json) (v u : Z) (rc : Z) (it' : spa_json) (v' : Z)
         (st : option (nat * Z)),
    n = Z.to_nat (end_ it - cur it) ->
    next_loop n buf it v u = (rc, it', v', st) ->
    end_ it' = end_ it /\ parent it' = parent it /\
    cur it <= cur it' /\ (cur it <= end_ it -> cur it' <= end_ it) /\
    match st with
    | Some (p, q) =>
        parent it = Some p /\ q = cur it' /\ rc = 0 /\
        cur it <= q < end_ it /\ is_close (load buf q) = true /\
        depth it' = 0 /\ state it' = __STRUCT
    | None => True
    end.
Proof.
  induction n as [|n IH]; intros it v u rc it' v' st Hn Hrun.
  - cbn [next_loop] in Hrun. injection Hrun as <- <- <- <-.
    repeat split; lia.
  - cbn [next_loop] in Hrun.
    pose proof (switch_state_frame (load buf (cur it)) it v u) as Hf.
    destruct (switch_state (load buf (cur it)) it v u) as [it1 v1 u1|rc1 it1 v1 st1].
    + destruct Hf as (Hc & He & Hp).
      apply IH in Hrun; cursor_simpl; [|lia].
      destruct Hrun as (He' & Hp' & Hc' & Hle & Hst).
      repeat split; try congruence; try lia.
      destruct st as [[p q]|]; [|exact I].
      destruct Hst as (? & ? & ? & ? & ? & ? & ?).
      repeat split; try congruence; try lia.
    + injection Hrun as <- <- <- <-.
      destruct Hf as (He & Hp & Hc & Hst).
      repeat split; try congruence; try lia.
      destruct st1 as [[p q]|]; [|exact I].
      destruct Hst as (? & Hq1 & Hq2 & ? & ? & ? & ?).
      subst q. rewrite Hq2. repeat split; try congruence; try lia.
Qed.

Lemma next_cursor_frame (buf : memory) (it : spa_json) (v : Z)
    (rc : Z) (it' : spa_json) (v' : Z) (st : option (nat * Z)) :
  next_cursor buf it v = (rc, it', v', st) ->
  end_ it' = end_ it /\ parent it' = parent it /\
  cur it <= cur it' /\ (cur it <= end_ it -> cur it' <= end_ it) /\
  match st with
  | Some (p, q) =>
      parent it = Some p /\ q = cur it' /\ rc = 0 /\
      cur it <= q < end_ it /\ is_close (load buf q) = true /\
      depth it' = 0 /\ state it' = __STRUCT
  | None => True
  end.
Proof. intros H. eapply next_loop_frame; [reflexivity|exact H]. Qed.

(** ** Calls through the heap *)

Lemma spa_json_next_eq (buf : memory) (h : heap) (i : nat) (it : spa_json)
    (v : Z) :
  h !! i = Some it ->
  spa_json_next buf h i v =
  (rc_of (next_cursor buf it v),
   store_cur (<[i := cursor_of (next_cursor buf it v)]> h)
     (store_of (next_cursor buf it v)),
   value_of (next_cursor buf it v)).
Proof.
  intros Hi. unfold spa_json_next. rewrite Hi.
  destruct (next_cursor buf it v) as [[[rc it'] v'] st]. reflexivity.
Qed.

Lemma store_cur_length (h : heap) (st : option (nat * Z)) :
  length (store_cur h st) = length h.
Proof.
  destruct st as [[p q]|]; [|reflexivity]. simpl.
  destruct (h !! p); [apply length_insert|reflexivity].
Qed.

Lemma store_cur_lookup_ne (h : heap) (p j : nat) (q : Z) :
  p <> j -> store_cur h (Some (p, q)) !! j = h !! j.
Proof.
  intros Hne. simpl. destruct (h !! p); [|reflexivity].
  now apply list_lookup_insert_ne.
Qed.

Lemma store_cur_lookup_eq (h : heap) (p : nat) (q : Z) (pit : spa_json) :
  h !! p = Some pit -> store_cur h (Some (p, q)) !! p = Some (set_cur q pit).
Proof.
  intros Hp. simpl. rewrite Hp. apply list_lookup_insert_eq.
  now apply lookup_lt_Some in Hp.
Qed.

(** After a call the cursor holds what [next_cursor] computes, also when
    the cursor is its own parent. *)
Lemma spa_json_next_self (buf : memory) (h : heap) (i : nat) (it : spa_json)
    (v : Z) (rc : Z) (h' : heap) (v' : Z) :
  h !! i = Some it ->
  spa_json_next buf h i v = (rc, h', v') ->
  h' !! i = Some (cursor_of (next_cursor buf it v)) /\
  rc = rc_of (next_cursor buf it v) /\ v' = value_of (next_cursor buf it v) /\
  length h' = length h.
Proof.
  intros Hi Hcall. rewrite (spa_json_next_eq _ _ _ _ _ Hi) in Hcall.
  injection Hcall as <- <- <-.
  pose proof (lookup_lt_Some _ _ _ Hi) as Hlt.
  destruct (next_cursor buf it v) as [[[rc it'] v'] st] eqn:Hn.
  unfold rc_of, cursor_of, value_of, store_of. cbn [fst snd].
  apply next_cursor_frame in Hn as (_ & _ & _ & _ & Hst).
  repeat split. 2: now rewrite store_cur_length, length_insert.
  destruct st as [[p q]|]; [|now apply list_lookup_insert_eq].
  destruct Hst as (_ & -> & _).
  destruct (decide (p = i)) as [->|Hne].
  - erewrite store_cur_lookup_eq by (now apply list_lookup_insert_eq).
    now destruct it'.
  - rewrite store_cur_lookup_ne by assumption. now apply list_lookup_insert_eq.
Qed.

(** A call changes at most the cursor itself and its parent. *)
Lemma spa_json_next_others (buf : memory) (h : heap) (i j : nat)
    (it : spa_json) (v : Z) (rc : Z) (h' : heap) (v' : Z) :
  h !! i = Some it ->
  spa_json_next buf h i v = (rc, h', v') ->
  j <> i -> parent it <> Some j ->
  h' !! j = h !! j.
Proof.
  intros Hi Hcall Hji Hpar. rewrite (spa_json_next_eq _ _ _ _ _ Hi) in Hcall.
  injection Hcall as <- <- <-.
  destruct (next_cursor buf it v) as [[[rc it'] v'] st] eqn:Hn.
  unfold cursor_of, store_of. cbn [fst snd].
  apply next_cursor_frame in Hn as (_ & _ & _ & _ & Hst).
  destruct st as [[p q]|].
  - destruct Hst as (Hp & _).
    rewrite store_cur_lookup_ne by congruence.
    now apply list_lookup_insert_ne.
  - simpl. now apply list_lookup_insert_ne.
Qed.

(** The parent after a call: its [cur] is the child's when the store was
    performed, and it is unchanged otherwise. *)
Lemma spa_json_next_parent (buf : memory) (h : heap) (i p : nat)
    (it pit : spa_json) (v : Z) (rc : Z) (h' : heap) (v' : Z) :
  h !! i = Some it ->
  h !! p = Some pit ->
  parent it = Some p ->
  p <> i ->
  spa_json_next buf h i v = (rc, h', v') ->
  h' !! p =
  Some (match store_of (next_cursor buf it v) with
        | Some (_, q) => set_cur q pit
        | None => pit
        end).
Proof.
  intros Hi Hp Hpar Hne Hcall. rewrite (spa_json_next_eq _ _ _ _ _ Hi) in Hcall.
  injection Hcall as <- <- <-.
  destruct (next_cursor buf it v) as [[[rc it'] v'] st] eqn:Hn.
  unfold cursor_of, store_of. cbn [fst snd].
  apply next_cursor_frame in Hn as (_ & _ & _ & _ & Hst).
  destruct st as [[p' q]|].
  - destruct Hst as (Hp' & _). assert (p' = p) as -> by congruence.
    apply store_cur_lookup_eq. now rewrite list_lookup_insert_ne.
  - simpl. now rewrite list_lookup_insert_ne.
Qed.

(** ** The write-back *)

Lemma close_is_nothing_else (c : Z) :
  is_close c = true ->
  is_separator c = false /\ (c =? c_quote) = false /\ is_open c = false.
Proof.
  intros H. repeat split.
  - destruct (is_separator c) eqn:E; [char_facts; lia|reflexivity].
  - destruct (c =? c_quote) eqn:E; [char_facts; lia|reflexivity].
  - destruct (is_open c) eqn:E; [char_facts; lia|reflexivity].
Qed.

(** A cursor in Struct mode at depth 0, or not yet started, that stands
    on a closing delimiter returns 0, stays on the delimiter and stores
    its position through [parent]. *)
Lemma next_cursor_on_close (buf : memory) (it : spa_json) (v : Z) :
  (state it = __STRUCT /\ depth it = 0) \/ state it = __NONE ->
  cur it < end_ it ->
  is_close (load buf (cur it)) = true ->
  next_cursor buf it v =
  (0, set_depth 0 (set_state __STRUCT it), v,
   match parent it with Some p => Some (p, cur it) | None => None end).
Proof.
  intros Hst Hlt Hc. unfold next_cursor. rewrite next_cursor_unfold.
  destruct (Z.ltb_spec (cur it) (end_ it)) as [_|?]; [|lia].
  destruct (close_is_nothing_else _ Hc) as (Hs & Hq & Ho).
  destruct it as [cu en pa s d]. cursor_simpl.
  destruct Hst as [[-> ->]| ->]; unfold_switch; cursor_simpl;
    rewrite Hs, Hq, Ho, Hc; reflexivity.
Qed.

(** The return after the loop looks at the depth only, whatever the mode
    in which the loop left the buffer. *)
Lemma next_cursor_at_end (buf : memory) (it : spa_json) (v : Z) :
  end_ it <= cur it ->
  next_cursor buf it v = (if depth it =? 0 then 0 else -1, it, v, None).
Proof.
  intros H. unfold next_cursor.
  replace (Z.to_nat (end_ it - cur it)) with 0%nat by lia. reflexivity.
Qed.

(** A cursor that has reported end of scope on a closing delimiter stays
    there: a further call returns 0 and stores the same position. *)
Lemma next_cursor_end_of_scope_again (buf : memory) (it : spa_json) (v w : Z)
    (it' : spa_json) (v' : Z) (p : nat) (q : Z) :
  next_cursor buf it v = (0, it', v', Some (p, q)) ->
  next_cursor buf it' w = (0, it', w, Some (p, q)).
Proof.
  intros Hn.
  apply next_cursor_frame in Hn as (He & Hp & _ & _ & Hpar & -> & _ & Hq & Hc
                                    & Hd & Hs).
  rewrite next_cursor_on_close; [|now left|lia|assumption].
  rewrite Hp, Hpar. destruct it' as [cu en pa s d]. cursor_simpl.
  subst s d. reflexivity.
Qed.

(** C4, as the specification words it, fails: on ["[1]"], with the child
    cursor on the closing bracket at offset 2, the parent's [cur] becomes
    2 and not 3. *)
Lemma write_back_is_not_past_delimiter :
  let buf := bytes "[1]" in
  (exists h1 h2 h3 h4,
     spa_json_next buf (root buf) 0%nat 0 = (1, h1, 0) /\
     spa_json_enter h1 0%nat = (h2, 1%nat) /\
     spa_json_next buf h2 1%nat 0 = (1, h3, 1) /\
     h3 = [mk_spa_json 1 3 None __STRUCT 1;
           mk_spa_json 2 3 (Some 0%nat) __STRUCT 0] /\
     spa_json_next buf h3 1%nat 1 = (0, h4, 1) /\
     (cur <$> h4 !! 0%nat) = Some 2) /\
  ~ writes_back_past_delimiter.
Proof.
  cbv zeta. split.
  - eexists _, _, _, _. repeat split; vm_compute; reflexivity.
  - intros Hclaim.
    destruct (Hclaim (bytes "[1]")
                [mk_spa_json 1 3 None __STRUCT 1;
                 mk_spa_json 2 3 (Some 0%nat) __STRUCT 0]
                1%nat 0%nat (mk_spa_json 2 3 (Some 0%nat) __STRUCT 0)
                (mk_spa_json 1 3 None __STRUCT 1) 1
                eq_refl eq_refl eq_refl eq_refl eq_refl eq_refl eq_refl
                0 _ 1 eq_refl) as (_ & pit' & Hp & Hcur).
    vm_compute in Hp. injection Hp as <-. vm_compute in Hcur. discriminate.
Qed.

(** ** Sessions *)






Section Session.

(** The buffer that the session scans. *)
Variable buf : memory.





End Session.



(** ** How a call returns *)

Lemma to_int_small (z : Z) : 0 <= z <= INT_MAX -> to_int z = z.
Proof.
  unfold to_int, INT_MAX, UINT32_MOD. intros H.
  rewrite Z.mod_small; lia.
Qed.

Lemma switch_state_class (c0 c : Z) (it : spa_json) (v u : Z) :
  token_started c0 it v ->
  c0 <= cur it < end_ it ->
  end_ it - c0 <= INT_MAX ->
  match switch_state c it v u with
  | Continue it1 v1 _ => token_started c0 (set_cur (cur it1 + 1) it1) v1
  | Return rc it1 v1 st =>
      (0 < rc /\ state it1 = __STRUCT /\ st = None)
      \/ (rc = 0 /\ cur it1 = cur it /\ is_close c = true /\ depth it1 = 0 /\
          state it1 = __STRUCT /\
          st = match parent it with Some p => Some (p, cur it) | None => None end)
      \/ (rc = -1 /\ st = None)
  end.
Proof.
  intros Hk Hc Hb. unfold token_started in *.
  destruct it as [cu en pa s d]. cursor_simpl. unfold_switch.
  destruct s; cursor_simpl;
    (destruct Hk as [Hk|[Hk|Hk]]; try discriminate Hk);
    repeat break_if; cursor_simpl;
    try (right; right; split; reflexivity);
    try (right; left; repeat split; try reflexivity; try assumption;
         char_facts; lia);
    try (left; repeat split; try reflexivity; try lia;
         rewrite to_int_small; lia);
    try (left; reflexivity); try (right; left; reflexivity);
    try (right; right; lia).
Qed.

Lemma next_loop_class (buf : memory) (c0 : Z) (n : nat) :
  forall (it : spa_json) (v u : Z) (rc : Z) (it' : spa_json) (v' : Z)
         (st : option (nat * Z)),
    n = Z.to_nat (end_ it - cur it) ->
    token_started c0 it v ->
    c0 <= cur it ->
    end_ it - c0 <= INT_MAX ->
    next_loop n buf it v u = (rc, it', v', st) ->
    return_class buf it rc it' st.
Proof.
  induction n as [|n IH]; intros it v u rc it' v' st Hn Hk Hc Hb Hrun.
  - cbn [next_loop] in Hrun. injection Hrun as <- <- <- <-.
    destruct (Z.eqb_spec (depth it) 0).
    + right. right. left. repeat split. lia.
    + right. right. right. split; reflexivity.
  - cbn [next_loop] in Hrun.
    pose proof (switch_state_class c0 (load buf (cur it)) it v u Hk
                  ltac:(lia) Hb) as Hcl.
    pose proof (switch_state_frame (load buf (cur it)) it v u) as Hf.
    destruct (switch_state (load buf (cur it)) it v u)
      as [it1 v1 u1|rc1 it1 v1 st1].
    + destruct Hf as (Hc1 & He1 & Hp1).
      apply IH in Hrun; cursor_simpl; try lia; try assumption.
      unfold return_class in *. cursor_simpl. rewrite Hp1 in Hrun. exact Hrun.
    + injection Hrun as <- <- <- <-.
      destruct Hf as (He1 & Hp1 & Hc1 & _).
      destruct Hcl as [H|[H|H]].
      * left. exact H.
      * right. left. destruct H as (? & Hq & ? & ? & ? & ?).
        rewrite Hq. repeat split; try assumption; lia.
      * right. right. right. exact H.
Qed.

Lemma next_cursor_class (buf : memory) (it : spa_json) (v : Z)
    (rc : Z) (it' : spa_json) (v' : Z) (st : option (nat * Z)) :
  state it = __NONE \/ state it = __STRUCT ->
  end_ it - cur it <= INT_MAX ->
  next_cursor buf it v = (rc, it', v', st) ->
  return_class buf it rc it' st.
Proof.
  intros Hs Hb Hrun.
  apply (next_loop_class buf (cur it) _ it v 0 rc it' v' st eq_refl);
    try assumption; try lia.
  unfold token_started. tauto.
Qed.

(** ** The write-back, call by call *)

(** The loop goes on from where its passes through the switch have
    brought it. *)
Lemma next_loop_scans (buf : memory) (it : spa_json) (v u : Z)
    (it' : spa_json) (v' u' : Z) :
  scans buf it v u it' v' u' ->
  next_loop (Z.to_nat (end_ it - cur it)) buf it v u
  = next_loop (Z.to_nat (end_ it' - cur it')) buf it' v' u'.
Proof.
  induction 1 as [it v u|it v u it1 v1 u1 it' v' u' Hlt Hsw _ IH];
    [reflexivity|].
  rewrite next_cursor_unfold.
  destruct (Z.ltb_spec (cur it) (end_ it)) as [_|?]; [|lia].
  rewrite Hsw. cbv zeta. exact IH.
Qed.

Lemma scans_frame (buf : memory) (it : spa_json) (v u : Z)
    (it' : spa_json) (v' u' : Z) :
  scans buf it v u it' v' u' ->
  end_ it' = end_ it /\ parent it' = parent it /\ cur it <= cur it'.
Proof.
  induction 1 as [it v u|it v u it1 v1 u1 it' v' u' Hlt Hsw _ IH];
    [repeat split; lia|].
  pose proof (switch_state_frame (load buf (cur it)) it v u) as Hf.
  rewrite Hsw in Hf. destruct Hf as (Hc & He & Hp).
  cursor_simpl. destruct IH as (He' & Hp' & Hc').
  repeat split; try congruence; lia.
Qed.

(** On a closing delimiter at depth 0 the switch returns 0 and orders
    the store, whatever [*value] and [utf8_remain] hold. *)
Lemma next_loop_on_close (buf : memory) (it : spa_json) (v u : Z) :
  (state it = __STRUCT /\ depth it = 0) \/ state it = __NONE ->
  cur it < end_ it ->
  is_close (load buf (cur it)) = true ->
  next_loop (Z.to_nat (end_ it - cur it)) buf it v u =
  (0, set_depth 0 (set_state __STRUCT it), v,
   match parent it with Some p => Some (p, cur it) | None => None end).
Proof.
  intros Hst Hlt Hc. rewrite next_cursor_unfold.
  destruct (Z.ltb_spec (cur it) (end_ it)) as [_|?]; [|lia].
  destruct (close_is_nothing_else _ Hc) as (Hs & Hq & Ho).
  destruct it as [cu en pa s d]. cursor_simpl.
  destruct Hst as [[-> ->]| ->]; unfold_switch; cursor_simpl;
    rewrite Hs, Hq, Ho, Hc; reflexivity.
Qed.

(** The switch orders the store in that case only. *)
Lemma switch_state_store (c : Z) (it : spa_json) (v u : Z)
    (rc : Z) (it1 : spa_json) (v1 : Z) (p : nat) (q : Z) :
  switch_state c it v u = Return rc it1 v1 (Some (p, q)) ->
  ((state it = __STRUCT /\ depth it = 0) \/ state it = __NONE) /\
  is_close c = true /\ q = cur it.
Proof.
  destruct it as [cu en pa s d]. unfold_switch. cursor_simpl.
  destruct s; cursor_simpl; repeat break_if; cursor_simpl;
    intros H; try discriminate H;
    (destruct pa as [k|]; [|discriminate H]); injection H as <- <- <- <- <-;
    cursor_simpl;
    repeat split; try assumption; try (right; reflexivity);
    try (left; split; [reflexivity|lia]); try lia.
Qed.

Lemma next_loop_store_meets (buf : memory) (n : nat) :
  forall (it : spa_json) (v u : Z) (rc : Z) (it' : spa_json) (v' : Z)
         (p : nat) (q : Z),
    n = Z.to_nat (end_ it - cur it) ->
    next_loop n buf it v u = (rc, it', v', Some (p, q)) ->
    exists itk vk uk,
      scans buf it v u itk vk uk /\
      cur itk = q /\ q < end_ itk /\
      is_close (load buf q) = true /\
      ((state itk = __STRUCT /\ depth itk = 0) \/ state itk = __NONE).
Proof.
  induction n as [|n IH]; intros it v u rc it' v' p q Hn Hrun;
    [discriminate Hrun|].
  cbn [next_loop] in Hrun.
  pose proof (switch_state_frame (load buf (cur it)) it v u) as Hf.
  destruct (switch_state (load buf (cur it)) it v u)
    as [it1 v1 u1|rc1 it1 v1 st1] eqn:Hsw.
  - destruct Hf as (Hc & He & Hp).
    assert (Hn1 : n = Z.to_nat (end_ (set_cur (cur it1 + 1) it1)
                                - cur (set_cur (cur it1 + 1) it1)))
      by (cursor_simpl; lia).
    destruct (IH _ _ _ _ _ _ _ _ Hn1 Hrun)
      as (itk & vk & uk & Hsc & Hq & Hlt & Hcl & Hst).
    exists itk, vk, uk. split; [|now repeat split].
    apply scans_on with it1 v1 u1; [lia|exact Hsw|exact Hsc].
  - injection Hrun as -> -> -> ->.
    destruct (switch_state_store _ _ _ _ _ _ _ _ _ Hsw) as (Hst & Hcl & ->).
    exists it, v, u. split; [constructor|].
    repeat split; try assumption. lia.
Qed.

(** A call meets a closing delimiter with depth 0 exactly when it orders
    the store; it then returns 0 and leaves the cursor on the delimiter. *)
Lemma meets_close_store (buf : memory) (it : spa_json) (v : Z) (p : nat) (q : Z) :
  parent it = Some p ->
  meets_close buf it v q <->
  store_of (next_cursor buf it v) = Some (p, q).
Proof.
  intros Hp. split.
  - intros (it' & v' & u' & Hsc & Hq & Hlt & Hcl & Hst).
    unfold next_cursor. rewrite (next_loop_scans _ _ _ _ _ _ _ Hsc).
    subst q. rewrite (next_loop_on_close buf it' v' u' Hst Hlt Hcl).
    destruct (scans_frame _ _ _ _ _ _ _ Hsc) as (_ & Hp' & _).
    unfold store_of. cbn [snd]. now rewrite Hp', Hp.
  - intros Hst. unfold next_cursor in Hst.
    destruct (next_loop _ buf it v 0) as [[[rc it'] v'] st] eqn:Hrun.
    unfold store_of in Hst. cbn [snd] in Hst. subst st.
    exact (next_loop_store_meets buf _ it v 0 rc it' v' p q eq_refl Hrun).
Qed.

Lemma meets_close_result (buf : memory) (it : spa_json) (v q : Z) :
  meets_close buf it v q ->
  rc_of (next_cursor buf it v) = 0 /\
  cur (cursor_of (next_cursor buf it v)) = q /\
  q < end_ (cursor_of (next_cursor buf it v)) /\
  depth (cursor_of (next_cursor buf it v)) = 0 /\
  state (cursor_of (next_cursor buf it v)) = __STRUCT.
Proof.
  intros (it' & v' & u' & Hsc & Hq & Hlt & Hcl & Hst).
  unfold next_cursor. rewrite (next_loop_scans _ _ _ _ _ _ _ Hsc).
  subst q. rewrite (next_loop_on_close buf it' v' u' Hst Hlt Hcl).
  unfold rc_of, cursor_of. cbn [fst snd]. cursor_simpl.
  repeat split. assumption.
Qed.

(** What a call does to the parent's cursor. *)
Lemma spa_json_next_writes_back (buf : memory) (h : heap) (i p : nat)
    (iter pit : spa_json) (value : Z) (rc : Z) (h' : heap) (value' : Z) :
  h !! i = Some iter ->
  parent iter = Some p ->
  p <> i ->
  h !! p = Some pit ->
  spa_json_next buf h i value = (rc, h', value') ->
  (forall q, meets_close buf iter value q ->
     rc = 0 /\ h' !! p = Some (set_cur q pit) /\
     exists iter', h' !! i = Some iter' /\ cur iter' = q /\
                   depth iter' = 0 /\ state iter' = __STRUCT) /\
  ((forall q, ~ meets_close buf iter value q) -> h' !! p = Some pit).
Proof.
  intros Hi Hpar Hne Hp Hcall.
  destruct (spa_json_next_self _ _ _ _ _ _ _ _ Hi Hcall) as (Hi' & Hrc & _ & _).
  pose proof (spa_json_next_parent _ _ _ _ _ _ _ _ _ _ Hi Hp Hpar Hne Hcall)
    as Hp'.
  split.
  - intros q Hm.
    destruct (meets_close_result buf iter value q Hm)
      as (H0 & Hq & _ & Hd & Hs).
    apply (meets_close_store buf iter value p q Hpar) in Hm.
    rewrite Hm in Hp'. split; [congruence|]. split; [exact Hp'|].
    eexists. split; [exact Hi'|]. now repeat split.
  - intros Hno.
    destruct (store_of (next_cursor buf iter value)) as [[p' q]|] eqn:Hst;
      [|exact Hp'].
    exfalso. apply (Hno q).
    apply (meets_close_store buf iter value p q Hpar).
    rewrite Hst. f_equal. f_equal.
    destruct (next_cursor buf iter value) as [[[rc1 it1] v1] st1] eqn:Hn.
    apply next_cursor_frame in Hn as (_ & _ & _ & _ & Hf).
    unfold store_of in Hst. cbn [snd] in Hst. subst st1.
    destruct Hf as (Hpp & _). congruence.
Qed.

(** C4, as the code has it.  Whenever a call of [spa_json_next] on a
    cursor that has a parent meets a closing delimiter with depth 0,
    wherever in the window, it returns 0, stays on the delimiter and
    has stored the position of the delimiter itself, not the position
    past it, into the parent's [cur]; a call that meets none leaves the
    parent alone.  For a call made between tokens on a buffer of at most
    [INT_MAX] bytes, to meet one is to return 0 before the end of the
    window. *)
Theorem next_writes_back_delimiter_position
    (buf : memory) (h : heap) (i p : nat) (iter pit : spa_json) (value : Z)
    (rc : Z) (h' : heap) (value' : Z) :
  h !! i = Some iter ->
  parent iter = Some p ->
  p <> i ->
  h !! p = Some pit ->
  spa_json_next buf h i value = (rc, h', value') ->
  (forall q, meets_close buf iter value q ->
     rc = 0 /\ h' !! p = Some (set_cur q pit) /\
     exists iter', h' !! i = Some iter' /\ cur iter' = q /\
                   depth iter' = 0 /\ state iter' = __STRUCT) /\
  ((forall q, ~ meets_close buf iter value q) -> h' !! p = Some pit) /\
  (state iter = __NONE \/ state iter = __STRUCT ->
   end_ iter - cur iter <= INT_MAX ->
   forall iter', h' !! i = Some iter' ->
     (rc = 0 /\ cur iter' < end_ iter') <->
     meets_close buf iter value (cur iter')).
Proof.
  intros Hi Hpar Hne Hp Hcall.
  destruct (spa_json_next_writes_back _ _ _ _ _ _ _ _ _ _
              Hi Hpar Hne Hp Hcall) as [Hyes Hno].
  split; [exact Hyes|]. split; [exact Hno|].
  intros Hs Hb iter' Hi'.
  destruct (spa_json_next_self _ _ _ _ _ _ _ _ Hi Hcall) as (Hi2 & Hrc & _ & _).
  rewrite Hi' in Hi2. injection Hi2 as ->.
  split.
  - intros [H0 Hlt].
    apply (meets_close_store buf iter value p _ Hpar).
    destruct (next_cursor buf iter value) as [[[rc1 it1] v1] st1] eqn:Hn.
    unfold rc_of, cursor_of, store_of in *. cbn [fst snd] in *.
    pose proof (next_cursor_class _ _ _ _ _ _ _ Hs Hb Hn) as Hcl.
    unfold return_class in Hcl. rewrite Hpar in Hcl.
    destruct Hcl as [(? & _)|[(_ & _ & _ & _ & _ & ->)|[(_ & ? & _)|(? & _)]]];
      try lia. reflexivity.
  - intros Hm.
    destruct (meets_close_result buf iter value _ Hm) as (H0 & _ & Hlt & _).
    split; [congruence|exact Hlt].
Qed.

Lemma next_writes_back_delimiter_position_witness :
  let buf := bytes "[1 ]" in
  let iter := mk_spa_json 2 4 (Some 0%nat) __STRUCT 0 in
  let pit := mk_spa_json 1 4 None __STRUCT 1 in
  let h' := [mk_spa_json 3 4 None __STRUCT 1;
             mk_spa_json 3 4 (Some 0%nat) __STRUCT 0] in
  meets_close buf iter 1 3 /\
  0 = 0 /\ h' !! 0%nat = Some (set_cur 3 pit) /\
  exists iter', h' !! 1%nat = Some iter' /\ cur iter' = 3 /\
                depth iter' = 0 /\ state iter' = __STRUCT.
Proof.
  cbv zeta.
  assert (Hm : meets_close (bytes "[1 ]")
                 (mk_spa_json 2 4 (Some 0%nat) __STRUCT 0) 1 3).
  { exists (mk_spa_json 3 4 (Some 0%nat) __STRUCT 0), 1, 0.
    split; [|repeat split; try reflexivity; left; split; reflexivity].
    apply scans_on with (mk_spa_json 2 4 (Some 0%nat) __STRUCT 0) 1 0;
      [reflexivity|reflexivity|constructor]. }
  split; [exact Hm|].
  apply (next_writes_back_delimiter_position (bytes "[1 ]")
           [mk_spa_json 1 4 None __STRUCT 1;
            mk_spa_json 2 4 (Some 0%nat) __STRUCT 0]
           1%nat 0%nat (mk_spa_json 2 4 (Some 0%nat) __STRUCT 0)
           (mk_spa_json 1 4 None __STRUCT 1) 1 0
           [mk_spa_json 3 4 None __STRUCT 1;
            mk_spa_json 3 4 (Some 0%nat) __STRUCT 0] 1).
  - reflexivity.
  - reflexivity.
  - intro H. discriminate H.
  - reflexivity.
  - vm_compute. reflexivity.
  - exact Hm.
Defined.

(** ** The write-back over the life of a child *)

Lemma set_cur_same (it : spa_json) : set_cur (cur it) it = it.
Proof. now destruct it. Qed.

Lemma set_cur_twice (q q' : Z) (it : spa_json) :
  set_cur q (set_cur q' it) = set_cur q it.
Proof. now destruct it. Qed.

Lemma spa_json_next_no_cursor (buf : memory) (h : heap) (i : nat) (v : Z) :
  h !! i = None -> spa_json_next buf h i v = (-1, h, v).
Proof. intros Hi. unfold spa_json_next. now rewrite Hi. Qed.

(** What one act of a caller that stays below the parent does to the
    parent's cursor: nothing, unless it is a call on a child of the
    parent that meets a closing delimiter with depth 0. *)
Lemma run_act_parent (buf : memory) (h : heap) (p c : nat) (pit : spa_json)
    (a : act) :
  h !! p = Some pit ->
  below h p c a = true ->
  ((forall v it q, a = act_next c v -> h !! c = Some it ->
      ~ meets_close buf it v q) ->
   run_act buf h a !! p = Some pit) /\
  (forall v it q, a = act_next c v -> h !! c = Some it ->
     parent it = Some p -> meets_close buf it v q ->
     fst (fst (spa_json_next buf h c v)) = 0 /\
     run_act buf h a !! p = Some (set_cur q pit)) /\
  exists q, run_act buf h a !! p = Some (set_cur q pit).
Proof.
  intros Hp Hbelow. unfold below in Hbelow.
  apply andb_true_iff in Hbelow as [Hnp Hch].
  apply negb_true_iff, Nat.eqb_neq in Hnp.
  destruct a as [i v|i]; cbn [act_on run_act] in *.
  - destruct (h !! i) as [it|] eqn:Hi.
    + destruct (spa_json_next buf h i v) as [[rc h'] v'] eqn:Hcall.
      cbn [fst snd].
      assert (Hcase : parent it <> Some p \/ (parent it = Some p /\ i = c)).
      { destruct (parent it) as [k|]; [|left; discriminate].
        apply orb_true_iff in Hch as [Hk|Hic].
        - left. apply negb_true_iff, Nat.eqb_neq in Hk. congruence.
        - apply Nat.eqb_eq in Hic.
          destruct (Nat.eq_dec k p) as [->|?]; [right; now split|].
          left. congruence. }
      destruct Hcase as [Hpar|[Hpar ->]].
      * (* a cursor that is no child of the parent *)
        assert (Hsame : h' !! p = Some pit).
        { rewrite <- Hp.
          apply (spa_json_next_others buf h i p it v rc h' v' Hi Hcall);
            congruence. }
        split; [intros _; exact Hsame|]. split.
        -- intros v0 it0 q Ha Hc Hpar0. injection Ha as <- <-.
           rewrite Hi in Hc. injection Hc as <-. contradiction.
        -- exists (cur pit). now rewrite set_cur_same.
      * (* the child *)
        destruct (spa_json_next_writes_back buf h c p it pit v rc h' v'
                    Hi Hpar ltac:(congruence) Hp Hcall) as [Hyes Hno].
        split; [|split].
        -- intros Hnever. apply Hno. intros q. now apply (Hnever v it q).
        -- intros v0 it0 q Ha Hc _ Hm. injection Ha as <-.
           rewrite Hi in Hc. injection Hc as <-.
           rewrite Hcall. cbn [fst].
           destruct (Hyes q Hm) as (H0 & Hw & _). now split.
        -- destruct (store_of (next_cursor buf it v)) as [[p' q]|] eqn:Hst.
           ++ exists q. apply (Hyes q).
              apply (meets_close_store buf it v p q Hpar).
              rewrite Hst. do 2 f_equal.
              destruct (next_cursor buf it v) as [[[rc1 it1] v1] st1] eqn:Hn.
              apply next_cursor_frame in Hn as (_ & _ & _ & _ & Hf).
              unfold store_of in Hst. cbn [snd] in Hst. subst st1.
              destruct Hf as (Hpp & _). congruence.
           ++ exists (cur pit). rewrite set_cur_same. apply Hno.
              intros q Hm.
              apply (meets_close_store buf it v p q Hpar) in Hm. congruence.
    + rewrite (spa_json_next_no_cursor buf h i v Hi). cbn [fst snd].
      split; [intros _; exact Hp|]. split.
      * intros v0 it0 q Ha Hc. injection Ha as <- <-. congruence.
      * exists (cur pit). now rewrite set_cur_same.
  - assert (Hsame : fst (spa_json_enter h i) !! p = Some pit).
    { unfold spa_json_enter. destruct (h !! i); [|exact Hp].
      cbn [fst]. now apply lookup_app_l_Some. }
    split; [intros _; exact Hsame|]. split.
    + intros v it q Ha. discriminate Ha.
    + exists (cur pit). now rewrite set_cur_same.
Qed.

Lemma run_acts_app (buf : memory) (h : heap) (l1 l2 : list act) :
  run_acts buf h (l1 ++ l2) = run_acts buf (run_acts buf h l1) l2.
Proof. apply fold_left_app. Qed.

Lemma only_below_app (buf : memory) (p c : nat) (l1 l2 : list act) :
  forall h : heap,
    only_below buf p c h (l1 ++ l2)
    = only_below buf p c h l1 && only_below buf p c (run_acts buf h l1) l2.
Proof.
  induction l1 as [|a l1 IH]; intros h; [reflexivity|].
  cbn [app only_below run_acts fold_left]. rewrite IH.
  now rewrite andb_assoc.
Qed.

(** The acts of a caller that stays below the parent change nothing of
    the parent's cursor but its [cur]. *)
Lemma run_acts_parent_cur (buf : memory) (p c : nat) (acts : list act) :
  forall (h : heap) (pit : spa_json),
    h !! p = Some pit ->
    only_below buf p c h acts = true ->
    exists q, run_acts buf h acts !! p = Some (set_cur q pit).
Proof.
  induction acts as [|a acts IH]; intros h pit Hp Hb.
  - exists (cur pit). cbn. now rewrite set_cur_same.
  - cbn [only_below] in Hb. apply andb_true_iff in Hb as [Ha Hrest].
    destruct (run_act_parent buf h p c pit a Hp Ha) as (_ & _ & q & Hq).
    destruct (IH _ _ Hq Hrest) as (q' & Hq').
    exists q'. cbn [run_acts fold_left].
    unfold run_acts in Hq'. rewrite Hq'. now rewrite set_cur_twice.
Qed.

Lemma never_meets_parent (buf : memory) (p c : nat) (acts : list act) :
  forall (h : heap) (pit : spa_json),
    h !! p = Some pit ->
    only_below buf p c h acts = true ->
    never_meets buf c h acts ->
    run_acts buf h acts !! p = Some pit.
Proof.
  induction acts as [|a acts IH]; intros h pit Hp Hb Hnever; [exact Hp|].
  cbn [only_below] in Hb. apply andb_true_iff in Hb as [Ha Hrest].
  cbn [never_meets] in Hnever. destruct Hnever as [Hhere Hlater].
  destruct (run_act_parent buf h p c pit a Hp Ha) as (Hno & _).
  cbn [run_acts fold_left]. apply IH; auto.
Qed.

(** C7, as the code has it.  Let a caller use a child cursor and the
    cursors below it (the cursors entered from it, and so on), and
    neither the parent nor another child of the parent.  What the
    parent's cursor holds afterwards is decided by the calls of
    [spa_json_next] on the child that meet a closing delimiter with
    depth 0: if none does (the child is left before its end of scope,
    fails, or runs to the end of the buffer), the parent's cursor is as
    it was; and after a call on the child that meets one, which returns
    0, and acts of which none is such a call, the parent's cursor has
    its [cur] on that delimiter and is otherwise as it was. *)
Theorem child_writes_back_on_close
    (buf : memory) (h : heap) (p c : nat) (pit : spa_json)
    (acts : list act) :
  h !! p = Some pit ->
  only_below buf p c h acts = true ->
  (never_meets buf c h acts -> run_acts buf h acts !! p = Some pit) /\
  (forall (acts1 : list act) (v : Z) (acts2 : list act)
          (it : spa_json) (q : Z),
     acts = acts1 ++ act_next c v :: acts2 ->
     run_acts buf h acts1 !! c = Some it ->
     parent it = Some p ->
     meets_close buf it v q ->
     never_meets buf c (run_acts buf h (acts1 ++ [act_next c v])) acts2 ->
     fst (fst (spa_json_next buf (run_acts buf h acts1) c v)) = 0 /\
     run_acts buf h acts !! p = Some (set_cur q pit)).
Proof.
  intros Hp Hb. split; [now apply never_meets_parent|].
  intros acts1 v acts2 it q -> Hc Hpar Hm Hnever.
  rewrite only_below_app in Hb. apply andb_true_iff in Hb as [Hb1 Hb2].
  cbn [only_below] in Hb2. apply andb_true_iff in Hb2 as [Ha Hb2].
  destruct (run_acts_parent_cur buf p c acts1 h pit Hp Hb1) as (q1 & Hq1).
  destruct (run_act_parent buf _ p c _ (act_next c v) Hq1 Ha)
    as (_ & Hyes & _).
  destruct (Hyes v it q eq_refl Hc Hpar Hm) as [H0 Hw].
  split; [exact H0|].
  rewrite set_cur_twice in Hw.
  rewrite run_acts_app. cbn [run_acts fold_left].
  rewrite run_acts_app in Hnever. cbn [run_acts fold_left] in Hnever.
  apply (never_meets_parent buf p c acts2); assumption.
Qed.

Lemma child_writes_back_on_close_witness :
  let buf := bytes "[[1]]" in
  let pit := mk_spa_json 1 5 None __STRUCT 1 in
  let h := [pit; mk_spa_json 1 5 (Some 0%nat) __NONE 0] in
  let acts1 := [act_next 1 0; act_enter 1; act_next 2 0; act_next 2 0] in
  fst (fst (spa_json_next buf (run_acts buf h acts1) 1%nat 0)) = 0 /\
  run_acts buf h (acts1 ++ act_next 1 0 :: [act_enter 1; act_next 3 0])
    !! 0%nat = Some (set_cur 4 pit).
Proof.
  cbv zeta.
  destruct (child_writes_back_on_close (bytes "[[1]]")
              [mk_spa_json 1 5 None __STRUCT 1;
               mk_spa_json 1 5 (Some 0%nat) __NONE 0]
              0%nat 1%nat (mk_spa_json 1 5 None __STRUCT 1)
              ([act_next 1 0; act_enter 1; act_next 2 0; act_next 2 0]
                 ++ act_next 1 0 :: [act_enter 1; act_next 3 0])
              eq_refl eq_refl) as [_ Hlast].
  apply (Hlast [act_next 1 0; act_enter 1; act_next 2 0; act_next 2 0] 0
           [act_enter 1; act_next 3 0]
           (mk_spa_json 3 5 (Some 0%nat) __STRUCT 1) 4).
  - reflexivity.
  - vm_compute. reflexivity.
  - reflexivity.
  - exists (mk_spa_json 4 5 (Some 0%nat) __STRUCT 0), 0, 0.
    split; [|repeat split; try reflexivity; left; split; reflexivity].
    apply scans_on with (mk_spa_json 3 5 (Some 0%nat) __STRUCT 0) 0 0;
      [reflexivity|reflexivity|constructor].
  - cbn [never_meets]. repeat split.
    + intros v it q Ha. discriminate Ha.
    + intros v it q Ha. discriminate Ha.
Defined.

(** C7, as the specification words it, fails: on ["[1] 2 "] the child
    reports end of scope and writes the parent's [cur] (2); the caller
    goes on with the parent, which comes to 5; a further call on the
    child reports end of scope again and writes the parent's [cur] a
    second time, back to 2. *)
Lemma child_writes_back_again :
  let buf := bytes "[1] 2 " in
  (exists h1 h2 h3 h4 h5 h6 : heap,
     spa_json_next buf (root buf) 0%nat 0 = (1, h1, 0) /\
     spa_json_enter h1 0%nat = (h2, 1%nat) /\
     spa_json_next buf h2 1%nat 0 = (1, h3, 1) /\
     spa_json_next buf h3 1%nat 1 = (0, h4, 1) /\
     (cur <$> h4 !! 0%nat) = Some 2 /\
     spa_json_next buf h4 0%nat 0 = (1, h5, 4) /\
     (cur <$> h5 !! 0%nat) = Some 5 /\
     spa_json_next buf h5 1%nat 1 = (0, h6, 1) /\
     (cur <$> h6 !! 0%nat) = Some 2) /\
  ~ writes_back_once.
Proof.
  cbv zeta. split.
  - eexists _, _, _, _, _, _. repeat split; vm_compute; reflexivity.
  - intros Hclaim.
    assert (Hm : meets_close (bytes "[1] 2 ")
                   (mk_spa_json 2 6 (Some 0%nat) __STRUCT 0) 1 2).
    { exists (mk_spa_json 2 6 (Some 0%nat) __STRUCT 0), 1, 0.
      split; [constructor|].
      repeat split; try reflexivity. left. split; reflexivity. }
    pose proof (Hclaim (bytes "[1] 2 ")
                  [mk_spa_json 1 6 None __STRUCT 1;
                   mk_spa_json 2 6 (Some 0%nat) __STRUCT 0]
                  1%nat 0%nat (mk_spa_json 2 6 (Some 0%nat) __STRUCT 0) 1 2
                  0 _ 1 eq_refl eq_refl eq_refl Hm
                  [mk_spa_json 5 6 None __STRUCT 0;
                   mk_spa_json 2 6 (Some 0%nat) __STRUCT 0]
                  (mk_spa_json 5 6 None __STRUCT 0) 1 0 _ 1
                  eq_refl eq_refl eq_refl) as H.
    vm_compute in H. discriminate H.
Qed.

(** ** A child and the parent that swallows instead *)

Lemma u32_small (z : Z) : 0 <= z < 4294967296 -> u32 z = z.
Proof. intros H. unfold u32, UINT32_MOD. apply Z.mod_small. lia. Qed.

Ltac inv_leaf :=
  unfold child_inv; cursor_simpl;
  repeat split; try lia; try assumption;
  try (right; lia); try (left; reflexivity); try (right; reflexivity).

Ltac sim_continue :=
  split;
  [inv_leaf
  |eexists _, _; split; [reflexivity|];
   unfold shadow, set_cur; cursor_simpl; f_equal; lia].

Section Simulation.

(** The buffer, the position [c0] just past the opening delimiter, where
    the child starts, and the parent cursor [P] as it is there. *)
Variable buf : memory.
Variable c0 : Z.
Variable P : spa_json.

Lemma sim_step_struct (c cu en : Z)
    (pa : option nat) (d v vp u : Z) :
  child_inv c0 P (mk_spa_json cu en pa __STRUCT d) u ->
  cu < en ->
  sim_step c0 P c (mk_spa_json cu en pa __STRUCT d) v vp u.
Proof.
  intros (He & Hc0 & Hb & Hd & Hu) Hlt. cursor_simpl. subst en.
  destruct Hd as [Hd|Hd]; [discriminate Hd|].
  destruct Hu as [Hu|Hu]; [discriminate Hu|subst u].
  assert (HM : INT_MAX = 2147483647) by reflexivity.
  unfold sim_step, shadow, switch_state. cursor_simpl.
  unfold case_STRUCT. cursor_simpl.
  destruct (is_separator c) eqn:Hsep; [sim_continue|].
  destruct (c =? c_quote) eqn:Hq; [sim_continue|].
  destruct (is_open c) eqn:Ho.
  { rewrite !u32_small by lia.
    destruct (Z.ltb_spec 1 (d + 1 + 1)) as [_|?]; [|lia].
    destruct (Z.ltb_spec 1 (d + 1)) as [?|?]; [sim_continue|].
    right. right. left. split; [reflexivity|]. split; [reflexivity|].
    split; [inv_leaf|].
    eexists _, _. split; [reflexivity|].
    unfold shadow, set_cur; cursor_simpl; f_equal; lia. }
  destruct (is_close c) eqn:Hcl.
  { destruct (Z.eqb_spec (d + 1) 0) as [?|_]; [lia|].
    destruct (Z.eqb_spec d 0) as [->|?].
    - right. left. repeat split; auto.
    - rewrite !u32_small by lia. sim_continue. }
  destruct (is_bare_start c) eqn:Hbare; [sim_continue|].
  left. split; reflexivity.
Qed.

Lemma sim_step_none (c cu en : Z)
    (pa : option nat) (d v vp u : Z) :
  child_inv c0 P (mk_spa_json cu en pa __NONE d) u ->
  cu < en ->
  sim_step c0 P c (mk_spa_json cu en pa __NONE d) v vp u.
Proof.
  intros (He & Hc0 & Hb & Hd & Hu) Hlt. cursor_simpl.
  assert (Hs : sim_step c0 P c (mk_spa_json cu en pa __STRUCT 0) v vp u).
  { apply sim_step_struct; [|assumption]. inv_leaf.
    destruct Hu as [Hu|Hu]; [discriminate Hu|now right]. }
  unfold sim_step in *.
  change (switch_state c (mk_spa_json cu en pa __NONE d) v u)
    with (switch_state c (mk_spa_json cu en pa __STRUCT 0) v u).
  change (shadow P (mk_spa_json cu en pa __NONE d))
    with (shadow P (mk_spa_json cu en pa __STRUCT 0)).
  destruct (switch_state c (mk_spa_json cu en pa __STRUCT 0) v u)
    as [C1 v1 u1|rc C1 v1 st]; [exact Hs|].
  cursor_simpl.
  destruct Hs as [H|[H|[H|H]]]; [now left| |now right; right; left
                                 |now right; right; right].
  right. left. destruct H as (? & ? & ? & _). repeat split; auto.
Qed.

Lemma sim_step_bare (c cu en : Z)
    (pa : option nat) (d v vp u : Z) :
  child_inv c0 P (mk_spa_json cu en pa __BARE d) u ->
  cu < en ->
  sim_step c0 P c (mk_spa_json cu en pa __BARE d) v vp u.
Proof.
  intros Hinv Hlt. pose proof Hinv as (He & Hc0 & Hb & Hd & Hu).
  cursor_simpl. subst en.
  destruct Hd as [Hd|Hd]; [discriminate Hd|].
  destruct Hu as [Hu|Hu]; [discriminate Hu|subst u].
  destruct (is_separator c || is_close c) eqn:Hterm.
  - destruct (Z.ltb_spec 0 d) as [Hpos|Hzero].
    + (* inside a swallowed container: the byte is processed again *)
      assert (Hs : sim_step c0 P c (mk_spa_json cu (end_ P) pa __STRUCT d)
                     v vp 0).
      { apply sim_step_struct; [|assumption]. inv_leaf. }
      assert (Hc : switch_state c (mk_spa_json cu (end_ P) pa __BARE d) v 0
                   = switch_state c (mk_spa_json cu (end_ P) pa __STRUCT d) v 0).
      { unfold switch_state, case_BARE. cursor_simpl. rewrite Hterm.
        destruct (Z.ltb_spec 0 d); [reflexivity|lia]. }
      assert (Hp : switch_state c
                     (shadow P (mk_spa_json cu (end_ P) pa __BARE d)) vp 0
                   = switch_state c
                       (shadow P (mk_spa_json cu (end_ P) pa __STRUCT d)) vp 0).
      { unfold shadow, switch_state, case_BARE. cursor_simpl. rewrite Hterm.
        destruct (Z.ltb_spec 0 (d + 1)); [reflexivity|lia]. }
      unfold sim_step in *. rewrite Hc, Hp.
      destruct (switch_state c (mk_spa_json cu (end_ P) pa __STRUCT d) v 0)
        as [C1 v1 u1|rc C1 v1 st]; [exact Hs|].
      cursor_simpl.
      destruct Hs as [H|[H|[H|H]]]; [now left| |now right; right; left
                                     |now right; right; right].
      destruct H as (_ & _ & _ & [H|[_ H]]); [discriminate H|lia].
    + (* at the cursor's own level: the token is returned *)
      assert (d = 0) as -> by lia.
      unfold sim_step, switch_state at 1, case_BARE. cursor_simpl.
      rewrite Hterm. cbn [Z.ltb Z.compare].
      right. right. right.
      split; [reflexivity|]. split; [reflexivity|]. split; [inv_leaf|].
      split; [reflexivity|]. split; [reflexivity|].
      unfold shadow, switch_state, case_BARE. cursor_simpl. rewrite Hterm.
      reflexivity.
  - unfold sim_step, shadow, switch_state, case_BARE. cursor_simpl.
    rewrite Hterm.
    destruct (is_printable c); [sim_continue|].
    left. split; reflexivity.
Qed.

Lemma sim_step_string (c cu en : Z)
    (pa : option nat) (d v vp u : Z) :
  child_inv c0 P (mk_spa_json cu en pa __STRING d) u ->
  cu < en ->
  sim_step c0 P c (mk_spa_json cu en pa __STRING d) v vp u.
Proof.
  intros (He & Hc0 & Hb & Hd & Hu) Hlt. cursor_simpl. subst en.
  destruct Hd as [Hd|Hd]; [discriminate Hd|].
  destruct Hu as [Hu|Hu]; [discriminate Hu|subst u].
  unfold sim_step, shadow, switch_state, case_STRING. cursor_simpl.
  destruct (c =? c_backslash); [sim_continue|].
  destruct (c =? c_quote).
  { destruct (Z.ltb_spec 0 (d + 1)) as [_|?]; [|lia].
    destruct (Z.ltb_spec 0 d) as [?|?]; [sim_continue|].
    right. right. left. split; [reflexivity|]. split; [reflexivity|].
    split; [inv_leaf|].
    eexists _, _. split; [reflexivity|].
    unfold shadow, set_cur; cursor_simpl; f_equal; lia. }
  destruct ((240 <=? c) && (c <=? 247)); [sim_continue|].
  destruct ((224 <=? c) && (c <=? 239)); [sim_continue|].
  destruct ((192 <=? c) && (c <=? 223)); [sim_continue|].
  destruct (is_printable c); [sim_continue|].
  left. split; reflexivity.
Qed.

Lemma sim_step_utf8 (c cu en : Z)
    (pa : option nat) (d v vp u : Z) :
  child_inv c0 P (mk_spa_json cu en pa __UTF8 d) u ->
  cu < en ->
  sim_step c0 P c (mk_spa_json cu en pa __UTF8 d) v vp u.
Proof.
  intros (He & Hc0 & Hb & Hd & Hu) Hlt. cursor_simpl. subst en.
  destruct Hd as [Hd|Hd]; [discriminate Hd|].
  unfold sim_step, shadow, switch_state, case_UTF8. cursor_simpl.
  destruct ((128 <=? c) && (c <=? 191)); [|left; split; reflexivity].
  destruct (Z.eqb_spec (u - 1) 0) as [Hz|?]; [|sim_continue].
  split; [inv_leaf|].
  eexists _, _; split; [reflexivity|].
  unfold shadow, set_cur; cursor_simpl; f_equal; lia.
Qed.

Lemma sim_step_esc (c cu en : Z)
    (pa : option nat) (d v vp u : Z) :
  child_inv c0 P (mk_spa_json cu en pa __ESC d) u ->
  cu < en ->
  sim_step c0 P c (mk_spa_json cu en pa __ESC d) v vp u.
Proof.
  intros (He & Hc0 & Hb & Hd & Hu) Hlt. cursor_simpl. subst en.
  destruct Hd as [Hd|Hd]; [discriminate Hd|].
  destruct Hu as [Hu|Hu]; [discriminate Hu|subst u].
  unfold sim_step, shadow, switch_state, case_ESC. cursor_simpl.
  destruct (is_escape c); [sim_continue|].
  left. split; reflexivity.
Qed.

Lemma switch_state_sim (c : Z) (C : spa_json) (v vp u : Z) :
  child_inv c0 P C u -> cur C < end_ C -> sim_step c0 P c C v vp u.
Proof.
  destruct C as [cu en pa [] d]; cursor_simpl;
    auto using sim_step_none, sim_step_struct, sim_step_bare,
      sim_step_string, sim_step_utf8, sim_step_esc.
Qed.

(** The parent's position when the child has reached the delimiter that
    closes the container. *)
Lemma shadow_at_close (C : spa_json) :
  state C = __NONE \/ (state C = __STRUCT /\ depth C = 0) ->
  shadow P C = mk_spa_json (cur C) (end_ P) (parent P) __STRUCT 1.
Proof.
  unfold shadow. intros [->|[-> ->]]; reflexivity.
Qed.

(** A call on the child against the parent's swallowing call: when the
    child returns, the parent's call is still running, and what remains
    of it is the loop started afresh from the shadow of the child. *)
Lemma next_loop_sim (n : nat) :
  forall (C : spa_json) (v vp u : Z) (rc : Z) (C' : spa_json) (v' : Z)
         (st : option (nat * Z)),
    n = Z.to_nat (end_ C - cur C) ->
    child_inv c0 P C u ->
    next_loop n buf C v u = (rc, C', v', st) ->
    (rc <= 0 /\ st = None)
    \/ (rc = 0 /\
        exists vp',
          next_loop n buf (shadow P C) vp u =
          next_loop (Z.to_nat (end_ P - cur C')) buf
            (mk_spa_json (cur C') (end_ P) (parent P) __STRUCT 1) vp' 0)
    \/ (st = None /\ state C' = __STRUCT /\ child_inv c0 P C' 0 /\
        exists vp',
          next_loop n buf (shadow P C) vp u =
          next_loop (Z.to_nat (end_ P - cur C')) buf (shadow P C') vp' 0).
Proof.
  induction n as [|n IH]; intros C v vp u rc C' v' st Hn Hinv Hrun.
  - cbn [next_loop] in Hrun. injection Hrun as <- <- <- <-.
    left. split; [|reflexivity]. destruct (depth C =? 0); lia.
  - pose proof Hinv as (He & _).
    assert (Hlt : cur C < end_ C) by lia.
    pose proof (switch_state_sim (load buf (cur C)) C v vp u Hinv Hlt)
      as Hsim.
    pose proof (switch_state_frame (load buf (cur C)) C v u) as Hf.
    unfold sim_step in Hsim. cbn [next_loop] in Hrun.
    assert (Hcur : cur (shadow P C) = cur C) by reflexivity.
    destruct (switch_state (load buf (cur C)) C v u)
      as [C1 v1 u1|rc1 C1 v1 st1] eqn:Hsw.
    + (* both continue *)
      destruct Hf as (Hc1 & He1 & _).
      destruct Hsim as (Hinv1 & Pc1 & vp1 & Hpsw & Hshadow).
      assert (Hn1 : n = Z.to_nat (end_ (set_cur (cur C1 + 1) C1)
                                  - cur (set_cur (cur C1 + 1) C1)))
        by (cursor_simpl; lia).
      specialize (IH _ v1 vp1 u1 _ _ _ _ Hn1 Hinv1 Hrun).
      cbn [next_loop]. rewrite Hcur, Hpsw, Hshadow. exact IH.
    + injection Hrun as <- <- <- <-.
      destruct Hf as (He1 & _ & Hc1 & _).
      destruct Hsim as [(-> & ->)|[(-> & Hc & -> & Hst)
                        |[(-> & Hst & Hinv1 & Pc1 & vp1 & Hpsw & Hshadow)
                         |(-> & Hst & Hinv1 & Hc & -> & Hpsw)]]].
      * left. split; [lia|reflexivity].
      * right. left. split; [reflexivity|]. exists vp.
        rewrite (shadow_at_close C Hst), Hc, Hn, He. reflexivity.
      * right. right.
        split; [reflexivity|]. split; [assumption|]. split; [assumption|].
        exists vp1. cbn [next_loop]. rewrite Hcur, Hpsw, Hshadow.
        pose proof (switch_state_frame (load buf (cur C)) (shadow P C) vp u)
          as Hpf.
        rewrite Hpsw in Hpf. destruct Hpf as (Hpc & _).
        assert (Hc1' : cur C1 = cur C + 1).
        { change (cur C1) with (cur (shadow P C1)). rewrite <- Hshadow.
          cursor_simpl. rewrite Hpc. reflexivity. }
        f_equal. lia.
      * right. right.
        split; [reflexivity|]. split; [assumption|]. split; [assumption|].
        exists vp. rewrite Hc, <- He, <- Hn.
        cbn [next_loop].
        change (cur (shadow P C)) with (cur C).
        change (cur (shadow P C1)) with (cur C1).
        rewrite Hc, Hpsw. reflexivity.
Qed.

End Simulation.

(** ** The content of [*value] on entry *)

Lemma switch_state_values (c : Z) (it : spa_json) (v1 v2 u : Z) :
  values_agree it v1 v2 ->
  same_step (switch_state c it v1 u) (switch_state c it v2 u).
Proof.
  intros Hv. unfold values_agree in Hv.
  assert (Hsame : forall f, same_step f f).
  { intros [a w u'|r a w s]; cbn; repeat split; try (left; reflexivity). }
  destruct it as [cu en pa s d]. cursor_simpl.
  destruct s;
    try (destruct Hv as [->|[Hv|Hv]]; [apply Hsame|discriminate Hv..]).
  - (* not started *)
    unfold switch_state, case_STRUCT, same_step, values_agree. cursor_simpl.
    repeat break_if; cursor_simpl; repeat split; auto; try lia.
  - (* Struct *)
    unfold switch_state, case_STRUCT, same_step, values_agree. cursor_simpl.
    repeat break_if; cursor_simpl; repeat split; auto; try lia.
Qed.

Lemma next_loop_values (buf : memory) (n : nat) :
  forall (it : spa_json) (v1 v2 u : Z),
    values_agree it v1 v2 ->
    rc_of (next_loop n buf it v1 u) = rc_of (next_loop n buf it v2 u) /\
    cursor_of (next_loop n buf it v1 u) = cursor_of (next_loop n buf it v2 u) /\
    store_of (next_loop n buf it v1 u) = store_of (next_loop n buf it v2 u) /\
    values_agree (cursor_of (next_loop n buf it v1 u))
      (value_of (next_loop n buf it v1 u))
      (value_of (next_loop n buf it v2 u)) /\
    (0 < rc_of (next_loop n buf it v1 u) ->
     value_of (next_loop n buf it v1 u) = value_of (next_loop n buf it v2 u)).
Proof.
  induction n as [|n IH]; intros it v1 v2 u Hv.
  - cbn. repeat split; try assumption. destruct (depth it =? 0); lia.
  - cbn [next_loop].
    pose proof (switch_state_values (load buf (cur it)) it v1 v2 u Hv) as Hs.
    unfold same_step in Hs.
    destruct (switch_state (load buf (cur it)) it v1 u) as [a w1 u1|r1 a w1 s1],
             (switch_state (load buf (cur it)) it v2 u) as [b w2 u2|r2 b w2 s2];
      try contradiction.
    + destruct Hs as (<- & <- & Hw). apply IH.
      unfold values_agree in *. cursor_simpl. exact Hw.
    + destruct Hs as (<- & <- & <- & Hw & Hpos). cbn. auto.
Qed.

(** The results of a cursor do not depend on what [*value] holds when it
    is between tokens. *)
Lemma cursor_results_values (buf : memory) (calls : nat) :
  forall (it : spa_json) (v1 v2 : Z),
    values_agree it v1 v2 ->
    cursor_results calls buf it v1 = cursor_results calls buf it v2.
Proof.
  induction calls as [|k IH]; intros it v1 v2 Hv; [reflexivity|].
  cbn [cursor_results].
  pose proof (next_loop_values buf (Z.to_nat (end_ it - cur it)) it v1 v2 0 Hv)
    as (Hrc & Hit & _ & Hw & Hpos).
  fold (next_cursor buf it v1) in *. fold (next_cursor buf it v2) in *.
  destruct (next_cursor buf it v1) as [[[rc1 it1] w1] s1],
           (next_cursor buf it v2) as [[[rc2 it2] w2] s2].
  unfold rc_of, cursor_of, value_of in *. cbn [fst snd] in *. subst rc2 it2.
  f_equal.
  - unfold observe. destruct (Z.ltb_spec 0 rc1); [now rewrite Hpos|reflexivity].
  - now apply IH.
Qed.

(** The results seen through the heap are those of the cursor. *)
Lemma results_cursor (buf : memory) (calls : nat) :
  forall (h : heap) (i : nat) (it : spa_json) (v : Z),
    h !! i = Some it ->
    results calls buf h i v = cursor_results calls buf it v.
Proof.
  induction calls as [|k IH]; intros h i it v Hi; [reflexivity|].
  cbn [results cursor_results].
  destruct (spa_json_next buf h i v) as [[rc h'] v'] eqn:Hcall.
  destruct (spa_json_next_self _ _ _ _ _ _ _ _ Hi Hcall) as (Hi' & -> & -> & _).
  destruct (next_cursor buf it v) as [[[rc1 it1] w1] s1].
  unfold rc_of, cursor_of, value_of in *. cbn [fst snd] in *.
  f_equal. now apply IH.
Qed.

(** ** Entering and draining against swallowing *)

Lemma set_cur_struct (P : spa_json) (q : Z) :
  state P = __STRUCT -> depth P = 1 ->
  mk_spa_json q (end_ P) (parent P) __STRUCT 1 = set_cur q P.
Proof. destruct P as [cu en pa s d]. cbn. intros -> ->. reflexivity. Qed.

(** While a child is drained, the swallowing call of the parent [P], had
    it been made instead, has come as far as the child; when the child
    reports end of scope on the closing delimiter, that call goes on as a
    call of the parent resumed there. *)
Lemma drain_sim (buf : memory) (p c : nat) (P : spa_json) (vB : Z)
    (calls : nat) :
  state P = __STRUCT -> depth P = 1 -> p <> c ->
  forall (hk : heap) (C : spa_json) (v : Z) (hA : heap) (vA' : Z),
    hk !! c = Some C -> hk !! p = Some P -> parent C = Some p ->
    child_inv (cur P) P C 0 ->
    (exists vp, next_cursor buf P vB =
                next_loop (Z.to_nat (end_ P - cur C)) buf (shadow P C) vp 0) ->
    drain calls buf hk c v = Some (hA, vA') ->
    hA !! p = Some P \/
    exists q vp, hA !! p = Some (set_cur q P) /\
                 next_cursor buf P vB = next_cursor buf (set_cur q P) vp.
Proof.
  intros HsP HdP Hpc.
  induction calls as [|k IH]; intros hk C v hA vA' Hc Hp Hpar Hinv [vp Heq] Hdr;
    [discriminate Hdr|].
  cbn [drain] in Hdr.
  destruct (spa_json_next buf hk c v) as [[rc h'] v'] eqn:Hcall.
  destruct (spa_json_next_self _ _ _ _ _ _ _ _ Hc Hcall) as (Hc' & Hrc & Hv & _).
  pose proof (spa_json_next_parent _ _ _ _ _ _ _ _ _ _ Hc Hp Hpar Hpc Hcall)
    as Hp'.
  destruct (next_cursor buf C v) as [[[rc1 C'] v1] st] eqn:Hn.
  unfold rc_of, cursor_of, value_of, store_of in *. cbn [fst snd] in *.
  subst rc1 v1.
  pose proof (next_cursor_frame _ _ _ _ _ _ _ Hn) as (_ & Hpar' & _ & _ & Hst).
  pose proof Hinv as (He & _).
  unfold next_cursor in Hn.
  destruct (next_loop_sim buf (cur P) P _ C v vp 0 rc C' v' st eq_refl Hinv Hn)
    as [(Hle & ->)|[(-> & vp' & Hloop)|(-> & HsC' & Hinv' & vp' & Hloop)]].
  - (* the child failed or reached the end of the buffer *)
    destruct (Z.eqb_spec rc 0) as [->|?].
    + injection Hdr as <- <-. now left.
    + destruct (Z.ltb_spec rc 0); [discriminate Hdr|lia].
  - (* the child reports end of scope on the closing delimiter *)
    cbn [Z.eqb] in Hdr. injection Hdr as <- <-.
    destruct st as [[p' q]|]; [|now left].
    right. exists q, vp'. split; [assumption|].
    destruct Hst as (_ & -> & _).
    rewrite Heq, <- He, Hloop. unfold next_cursor.
    rewrite (set_cur_struct P (cur C') HsP HdP). reflexivity.
  - (* the child returned a token *)
    destruct (Z.eqb_spec rc 0) as [->|?].
    + injection Hdr as <- <-. now left.
    + destruct (Z.ltb_spec rc 0); [discriminate Hdr|].
      apply (IH h' C' v' hA vA' Hc' Hp' ltac:(congruence) Hinv'); [|exact Hdr].
      exists vp'. rewrite He in Hloop. rewrite Heq. exact Hloop.
Qed.

Lemma enter_child_inv (p : nat) (P : spa_json) :
  end_ P - cur P <= INT_MAX ->
  child_inv (cur P) P (SPA_JSON_ENTER p P) 0.
Proof.
  intros Hb. unfold child_inv. cursor_simpl.
  repeat split; try lia; try (left; reflexivity); try (right; reflexivity).
Qed.

Lemma shadow_enter (p : nat) (P : spa_json) :
  state P = __STRUCT -> depth P = 1 -> shadow P (SPA_JSON_ENTER p P) = P.
Proof. destruct P as [cu en pa s d]. cbn. intros -> ->. reflexivity. Qed.

(** A parent in Struct mode at depth 1: entering and draining, then
    resuming, against swallowing. *)
Lemma drain_then_resume
    (buf : memory) (h : heap) (p : nat) (P : spa_json)
    (calls n : nat) (vA vB : Z) (hA : heap) (vA' : Z) :  h !! p = Some P ->
  state P = __STRUCT ->
  depth P = 1 ->
  end_ P - cur P <= INT_MAX ->
  drain calls buf (fst (spa_json_enter h p)) (snd (spa_json_enter h p)) vA
    = Some (hA, vA') ->
  results n buf hA p vA' = results n buf h p vB.
Proof.
  intros Hp HsP HdP Hb Hdr.
  unfold spa_json_enter in Hdr. rewrite Hp in Hdr. cbn [fst snd] in Hdr.
  pose proof (lookup_lt_Some _ _ _ Hp) as Hlt.
  assert (HA : hA !! p = Some P \/
               exists q vp, hA !! p = Some (set_cur q P) /\
                            next_cursor buf P vB
                            = next_cursor buf (set_cur q P) vp).
  { apply (drain_sim buf p (length h) P vB calls HsP HdP ltac:(lia)
             (h ++ [SPA_JSON_ENTER p P]) (SPA_JSON_ENTER p P) vA hA vA').
    - rewrite lookup_app_r by lia. now rewrite Nat.sub_diag.
    - now apply lookup_app_l_Some.
    - reflexivity.
    - now apply enter_child_inv.
    - exists vB. rewrite (shadow_enter p P HsP HdP). reflexivity.
    - exact Hdr. }
  rewrite (results_cursor buf n h p P vB Hp).
  destruct HA as [HA|(q & vp & HA & Heq)].
  - rewrite (results_cursor buf n hA p P vA' HA).
    apply cursor_results_values. right. right. exact HsP.
  - rewrite (results_cursor buf n hA p _ vA' HA).
    rewrite (cursor_results_values buf n (set_cur q P) vA' vp)
      by (right; right; exact HsP).
    destruct n as [|k]; [reflexivity|].
    cbn [cursor_results]. rewrite Heq. reflexivity.
Qed.

(** ** The report of a container *)

Lemma switch_state_container (buf : memory) (it : spa_json) (v u : Z) :
  scanning buf it v ->
  cur it < end_ it ->
  match switch_state (load buf (cur it)) it v u with
  | Continue it1 v1 _ => scanning buf (set_cur (cur it1 + 1) it1) v1
  | Return rc it1 v1 _ =>
      0 < rc -> is_open (load buf v1) = true ->
      state it1 = __STRUCT /\ depth it1 = 1 /\ cur it1 = v1 + 1 /\
      end_ it1 - cur it1 <= INT_MAX
  end.
Proof.
  intros [Hk Hd] Hlt. unfold scanning in *.
  assert (HM : INT_MAX = 2147483647) by reflexivity.
  destruct it as [cu en pa s d]. cursor_simpl.
  remember (load buf cu) as c eqn:Hc.
  unfold_switch.
  destruct s; cursor_simpl;
    (destruct Hk as [Hk|[Hk|Hk]]; try discriminate Hk);
    (destruct Hd as [[Hd Hd']|[Hd Hd']]; try discriminate Hd);
    repeat break_if; cursor_simpl; try rewrite <- Hc;
    try (intros Hrc Ho; try lia; try congruence);
    try (rewrite u32_small in * by lia);
    try (split; [auto|right; lia]);
    try (split; [right; right; destruct (is_open c) eqn:E;
                 [exfalso; char_facts; lia|reflexivity]
                |right; lia]);
    try (char_facts; repeat split; lia).
Qed.

Lemma next_loop_container (buf : memory) (n : nat) :
  forall (it : spa_json) (v u : Z) (rc : Z) (it' : spa_json) (v' : Z)
         (st : option (nat * Z)),
    n = Z.to_nat (end_ it - cur it) ->
    scanning buf it v ->
    next_loop n buf it v u = (rc, it', v', st) ->
    0 < rc -> is_open (load buf v') = true ->
    state it' = __STRUCT /\ depth it' = 1 /\ cur it' = v' + 1 /\
    end_ it' - cur it' <= INT_MAX.
Proof.
  induction n as [|n IH]; intros it v u rc it' v' st Hn Hsc Hrun Hrc Ho.
  - cbn [next_loop] in Hrun. injection Hrun as <- <- <- <-.
    destruct (depth it =? 0); lia.
  - cbn [next_loop] in Hrun.
    pose proof (switch_state_container buf it v u Hsc ltac:(lia)) as Hstep.
    pose proof (switch_state_frame (load buf (cur it)) it v u) as Hf.
    destruct (switch_state (load buf (cur it)) it v u)
      as [it1 v1 u1|rc1 it1 v1 st1].
    + destruct Hf as (Hc1 & He1 & _).
      assert (Hn1 : n = Z.to_nat (end_ (set_cur (cur it1 + 1) it1)
                                  - cur (set_cur (cur it1 + 1) it1)))
        by (cursor_simpl; lia).
      apply (IH _ _ _ _ _ _ _ Hn1 Hstep Hrun Hrc Ho).
    + injection Hrun as <- <- <- <-. now apply Hstep.
Qed.

(** After a call that reports a container the cursor is in Struct mode
    at depth 1, just past the opening delimiter. *)
Lemma next_cursor_container (buf : memory) (it : spa_json) (v : Z)
    (rc : Z) (it' : spa_json) (v' : Z) (st : option (nat * Z)) :
  state it = __NONE \/ (state it = __STRUCT /\ 0 <= depth it <= 1) ->
  end_ it - cur it <= INT_MAX ->
  next_cursor buf it v = (rc, it', v', st) ->
  spa_json_is_object buf v' rc || spa_json_is_array buf v' rc = true ->
  state it' = __STRUCT /\ depth it' = 1 /\ cur it' = v' + 1 /\
  end_ it' - cur it' <= INT_MAX.
Proof.
  intros Hs Hb Hrun Hcont.
  assert (Hrc : 0 < rc /\ is_open (load buf v') = true).
  { unfold spa_json_is_object, spa_json_is_array, is_open in *.
    destruct (Z.ltb_spec 0 rc); [|discriminate Hcont].
    split; [assumption|]. cbn [andb] in Hcont.
    now rewrite orb_comm. }
  destruct Hrc as [Hrc Ho].
  apply (next_loop_container buf _ it v 0 rc it' v' st eq_refl);
    try assumption.
  unfold scanning. destruct Hs as [Hs|[Hs Hd]].
  - split; [now left|left; now split].
  - split; [right; now left|right; lia].
Qed.

(** C6. Let a call of [spa_json_next] on the parent cursor have just
    reported a container, on a buffer of at most [INT_MAX] bytes.  If the
    caller enters the container and drains the child until it reports end
    of scope, the results of the following calls on the parent (return
    codes, and spans whenever one is returned) are those of the same
    calls made without entering, where the parent swallows the container
    itself. *)
Theorem enter_and_drain_is_swallow
    (buf : memory) (h0 : heap) (p : nat) (P0 : spa_json) (v0 : Z)
    (rc : Z) (h : heap) (v : Z)
    (calls n : nat) (vA vB : Z) (hA : heap) (vA' : Z) :
  h0 !! p = Some P0 ->
  state P0 = __NONE \/ (state P0 = __STRUCT /\ 0 <= depth P0 <= 1) ->
  end_ P0 - cur P0 <= INT_MAX ->
  spa_json_next buf h0 p v0 = (rc, h, v) ->
  spa_json_is_object buf v rc || spa_json_is_array buf v rc = true ->
  drain calls buf (fst (spa_json_enter h p)) (snd (spa_json_enter h p)) vA
    = Some (hA, vA') ->
  results n buf hA p vA' = results n buf h p vB.
Proof.
  intros Hp0 Hs0 Hb0 Hcall Hcont Hdr.
  destruct (spa_json_next_self _ _ _ _ _ _ _ _ Hp0 Hcall) as (Hp & -> & -> & _).
  destruct (next_cursor buf P0 v0) as [[[rc P] v] st] eqn:Hn.
  unfold rc_of, cursor_of, value_of in *. cbn [fst snd] in *.
  destruct (next_cursor_container _ _ _ _ _ _ _ Hs0 Hb0 Hn Hcont)
    as (HsP & HdP & _ & HbP).
  exact (drain_then_resume buf h p P calls n vA vB hA vA' Hp HsP HdP HbP Hdr).
Qed.

Lemma enter_and_drain_is_swallow_witness :
  let buf := bytes "[1,[2],3] 4 " in
  exists (h hA : heap) (vA' : Z),
    spa_json_next buf (root buf) 0%nat 0 = (1, h, 0) /\
    drain 9 buf (fst (spa_json_enter h 0%nat)) (snd (spa_json_enter h 0%nat)) 0
      = Some (hA, vA') /\
    results 3 buf hA 0%nat vA' = [(1, Some 10); (0, None); (0, None)] /\
    results 3 buf hA 0%nat vA' = results 3 buf h 0%nat 0.
Proof.
  cbv zeta. eexists _, _, _.
  split; [vm_compute; reflexivity|].
  split; [vm_compute; reflexivity|].
  split; [vm_compute; reflexivity|].
  apply (enter_and_drain_is_swallow (bytes "[1,[2],3] 4 ")
           (root (bytes "[1,[2],3] 4 ")) 0%nat (SPA_JSON_INIT 0 12) 0
           1 _ 0 9 3 0 0).
  - reflexivity.
  - left. reflexivity.
  - vm_compute. intro H. discriminate H.
  - vm_compute. reflexivity.
  - vm_compute. reflexivity.
  - vm_compute. reflexivity.
Defined.

(** * Further properties of the tokenizer *)

(** ** The bytes a call reads *)

Lemma soft_classes (c : Z) :
  is_soft c = true ->
  is_separator c = true /\ (c =? c_quote) = false /\
  (c =? c_backslash) = false /\ is_printable c = true /\
  ((240 <=? c) && (c <=? 247)) = false /\
  ((224 <=? c) && (c <=? 239)) = false /\
  ((192 <=? c) && (c <=? 223)) = false /\
  ((128 <=? c) && (c <=? 191)) = false /\
  is_escape c = false.
Proof.
  intros H.
  assert (Hc : c = 32 \/ c = 58 \/ c = 44).
  { unfold is_soft, c_space, c_colon, c_comma in H.
    repeat (apply orb_true_iff in H; destruct H as [H|H]);
      apply Z.eqb_eq in H; lia. }
  destruct Hc as [->|[->| ->]]; repeat split; reflexivity.
Qed.

Lemma switch_state_soft (c1 c2 : Z) (it : spa_json) (v u : Z) :
  is_soft c1 = true -> is_soft c2 = true ->
  switch_state c1 it v u = switch_state c2 it v u.
Proof.
  intros H1 H2.
  destruct (soft_classes c1 H1) as (S1 & Q1 & B1 & P1 & R1 & R1' & R1'' & U1 & E1).
  destruct (soft_classes c2 H2) as (S2 & Q2 & B2 & P2 & R2 & R2' & R2'' & U2 & E2).
  destruct it as [cu en pa s d]. unfold_switch.
  destruct s; cursor_simpl;
    rewrite ?S1, ?S2, ?Q1, ?Q2, ?B1, ?B2, ?R1, ?R2, ?R1', ?R2', ?R1'', ?R2'',
      ?U1, ?U2, ?E1, ?E2, ?P1, ?P2; cbn [orb]; cursor_simpl;
    rewrite ?S1, ?S2; reflexivity.
Qed.

Lemma next_loop_soft (b1 b2 : memory) (n : nat) :
  forall (it : spa_json) (v u : Z),
    n = Z.to_nat (end_ it - cur it) ->
    same_up_to_soft b1 b2 (cur it) (end_ it) ->
    next_loop n b1 it v u = next_loop n b2 it v u.
Proof.
  induction n as [|n IH]; intros it v u Hn Hsame; [reflexivity|].
  cbn [next_loop].
  assert (Hstep : switch_state (load b1 (cur it)) it v u
                  = switch_state (load b2 (cur it)) it v u).
  { destruct (Hsame (cur it) ltac:(lia)) as [->|[H1 H2]]; [reflexivity|].
    now apply switch_state_soft. }
  rewrite Hstep.
  pose proof (switch_state_frame (load b2 (cur it)) it v u) as Hf.
  destruct (switch_state (load b2 (cur it)) it v u) as [it1 v1 u1|];
    [|reflexivity].
  destruct Hf as (Hc & He & _).
  apply IH; cursor_simpl; [lia|].
  intros p Hp. apply Hsame. lia.
Qed.

(** X1. A call of [spa_json_next] reads no byte outside the window
    between [cur] and [end]: on two buffers that agree there it returns
    the same code, the same [*value] and the same heap. *)
Theorem next_reads_only_its_window
    (b1 b2 : memory) (h : heap) (i : nat) (it : spa_json) (value : Z) :
  h !! i = Some it ->
  same_window b1 b2 (cur it) (end_ it) ->
  spa_json_next b1 h i value = spa_json_next b2 h i value.
Proof.
  intros Hi Hsame. unfold spa_json_next. rewrite Hi. unfold next_cursor.
  rewrite (next_loop_soft b1 b2 _ it value 0 eq_refl); [reflexivity|].
  intros p Hp. left. now apply Hsame.
Qed.

Lemma next_reads_only_its_window_witness :
  spa_json_next (bytes "xx[1, 2]yy") [mk_spa_json 2 8 None __NONE 0] 0%nat 0
  = spa_json_next (bytes "{{[1, 2]]]") [mk_spa_json 2 8 None __NONE 0] 0%nat 0.
Proof.
  apply (next_reads_only_its_window (bytes "xx[1, 2]yy") (bytes "{{[1, 2]]]")
           [mk_spa_json 2 8 None __NONE 0] 0%nat
           (mk_spa_json 2 8 None __NONE 0) 0 eq_refl).
  intros p Hp. cbn [cur end_] in Hp.
  assert (Hc : p = 2 \/ p = 3 \/ p = 4 \/ p = 5 \/ p = 6 \/ p = 7) by lia.
  destruct Hc as [->|[->|[->|[->|[->| ->]]]]]; reflexivity.
Defined.

(** X2. The tokenizer does not tell [' '], [':'] and [','] apart, in
    any mode: replacing any of them by another of the three, anywhere in
    the window, changes nothing to what a call returns. *)
Theorem next_soft_separators_alike
    (b1 b2 : memory) (h : heap) (i : nat) (it : spa_json) (value : Z) :
  h !! i = Some it ->
  same_up_to_soft b1 b2 (cur it) (end_ it) ->
  spa_json_next b1 h i value = spa_json_next b2 h i value.
Proof.
  intros Hi Hsame. unfold spa_json_next. rewrite Hi. unfold next_cursor.
  now rewrite (next_loop_soft b1 b2 _ it value 0 eq_refl).
Qed.

Lemma next_soft_separators_alike_witness :
  spa_json_next (bytes "a:1, b") [SPA_JSON_INIT 0 6] 0%nat 0
  = spa_json_next (bytes "a,1 :b") [SPA_JSON_INIT 0 6] 0%nat 0.
Proof.
  apply (next_soft_separators_alike (bytes "a:1, b") (bytes "a,1 :b")
           [SPA_JSON_INIT 0 6] 0%nat (SPA_JSON_INIT 0 6) 0 eq_refl).
  intros p Hp. cbn in Hp.
  assert (Hc : p = 0 \/ p = 1 \/ p = 2 \/ p = 3 \/ p = 4 \/ p = 5) by lia.
  destruct Hc as [->|[->|[->|[->|[->| ->]]]]];
    first [left; reflexivity | right; split; reflexivity].
Defined.

(** ** The spans a call returns *)

Lemma switch_state_span (buf : memory) (c0 : Z) (it : spa_json) (v u : Z) :
  token_open buf c0 it v ->
  c0 <= cur it < end_ it ->
  end_ it - c0 <= INT_MAX ->
  match switch_state (load buf (cur it)) it v u with
  | Continue it1 v1 _ => token_open buf c0 (set_cur (cur it1 + 1) it1) v1
  | Return rc it1 v1 _ => 0 < rc -> span_ok buf c0 rc it1 v1
  end.
Proof.
  intros Hk Hc Hb. unfold token_open, span_ok, span_kind in *.
  assert (HM : INT_MAX = 2147483647) by reflexivity.
  destruct it as [cu en pa s d]. cursor_simpl.
  remember (load buf cu) as c eqn:Hcu.
  unfold_switch.
  destruct s; cursor_simpl;
    try match type of Hk with _ /\ _ => destruct Hk as [Hv Hk] end;
    repeat break_if; cursor_simpl; try exact I;
    try (split; [lia|assumption]);
    try (intros Hrc; exfalso; lia).
  all: try (split; [lia|]; rewrite <- Hcu; first [assumption | char_facts; lia]).
  all: intros Hrc.
  all: try rewrite to_int_small in * by lia.
  - (* bare token *)
    repeat split; try lia. right. right.
    replace (v + (cu - v)) with cu by lia. rewrite <- Hcu.
    repeat split; try assumption; lia.
  - (* string *)
    repeat split; try lia. right. left.
    unfold spa_json_is_string.
    replace (v + (cu + 1 - v) - 1) with cu by lia. rewrite <- Hcu.
    split; [|char_facts; lia].
    apply andb_true_iff. split; [apply Z.ltb_lt; lia|].
    rewrite Hk. reflexivity.
Qed.

Lemma next_loop_span (buf : memory) (c0 : Z) (n : nat) :
  forall (it : spa_json) (v u : Z) (rc : Z) (it' : spa_json) (v' : Z)
         (st : option (nat * Z)),
    n = Z.to_nat (end_ it - cur it) ->
    token_open buf c0 it v ->
    c0 <= cur it ->
    end_ it - c0 <= INT_MAX ->
    next_loop n buf it v u = (rc, it', v', st) ->
    0 < rc -> span_ok buf c0 rc it' v'.
Proof.
  induction n as [|n IH]; intros it v u rc it' v' st Hn Hk Hc Hb Hrun Hrc.
  - cbn [next_loop] in Hrun. injection Hrun as <- <- <- <-.
    destruct (depth it =? 0); lia.
  - cbn [next_loop] in Hrun.
    pose proof (switch_state_span buf c0 it v u Hk ltac:(lia) Hb) as Hstep.
    pose proof (switch_state_frame (load buf (cur it)) it v u) as Hf.
    destruct (switch_state (load buf (cur it)) it v u)
      as [it1 v1 u1|rc1 it1 v1 st1].
    + destruct Hf as (Hc1 & He1 & _).
      assert (Hn1 : n = Z.to_nat (end_ (set_cur (cur it1 + 1) it1)
                                  - cur (set_cur (cur it1 + 1) it1)))
        by (cursor_simpl; lia).
      apply (IH (set_cur (cur it1 + 1) it1) v1 u1 rc it' v' st Hn1 Hstep);
        cursor_simpl; try lia; assumption.
    + injection Hrun as <- <- <- <-. now apply Hstep.
Qed.

Lemma next_cursor_span (buf : memory) (it : spa_json) (v : Z)
    (rc : Z) (it' : spa_json) (v' : Z) (st : option (nat * Z)) :
  state it = __NONE \/ state it = __STRUCT ->
  end_ it - cur it <= INT_MAX ->
  next_cursor buf it v = (rc, it', v', st) ->
  0 < rc -> span_ok buf (cur it) rc it' v'.
Proof.
  intros Hs Hb Hrun Hrc.
  apply (next_loop_span buf (cur it) _ it v 0 rc it' v' st eq_refl);
    try assumption; try lia.
  unfold token_open. destruct Hs as [-> | ->]; exact I.
Qed.

(** X3. When [spa_json_next], called between tokens on a buffer of at
    most [INT_MAX] bytes, returns a span, the span lies in the window:
    it starts at or after the place where the cursor was, it ends where
    the cursor now is, and that is not past [end]. *)
Theorem next_span_in_window
    (buf : memory) (h : heap) (i : nat) (it : spa_json) (value : Z)
    (len : Z) (h' : heap) (value' : Z) :
  h !! i = Some it ->
  state it = __NONE \/ state it = __STRUCT ->
  end_ it - cur it <= INT_MAX ->
  spa_json_next buf h i value = (len, h', value') ->
  0 < len ->
  exists it',
    h' !! i = Some it' /\
    cur it <= value' /\ value' + len = cur it' /\ cur it' <= end_ it.
Proof.
  intros Hi Hs Hb Hcall Hlen.
  destruct (spa_json_next_self _ _ _ _ _ _ _ _ Hi Hcall) as (Hi' & -> & -> & _).
  destruct (next_cursor buf it value) as [[[rc it'] v'] st] eqn:Hn.
  unfold rc_of, cursor_of, value_of in *. cbn [fst snd] in *.
  pose proof (next_cursor_frame _ _ _ _ _ _ _ Hn) as (He & _).
  destruct (next_cursor_span _ _ _ _ _ _ _ Hs Hb Hn Hlen) as (H1 & H2 & H3 & _).
  exists it'. repeat split; try assumption. lia.
Qed.

Lemma next_span_in_window_witness :
  let buf := bytes "  [1] " in
  let h' := [mk_spa_json 3 6 None __STRUCT 1] in
  exists it',
    h' !! 0%nat = Some it' /\
    cur (SPA_JSON_INIT 0 6) <= 2 /\ 2 + 1 = cur it' /\
    cur it' <= end_ (SPA_JSON_INIT 0 6).
Proof.
  cbv zeta.
  apply (next_span_in_window (bytes "  [1] ") [SPA_JSON_INIT 0 6] 0%nat
           (SPA_JSON_INIT 0 6) 0 1 [mk_spa_json 3 6 None __STRUCT 1] 2
           eq_refl).
  - left. reflexivity.
  - vm_compute. intro H. discriminate H.
  - vm_compute. reflexivity.
  - lia.
Defined.

(** X4. A span returned by [spa_json_next], called between tokens, is of
    one of three kinds: one opening delimiter, of length 1; a string,
    which [spa_json_is_string] accepts and which ends with a double
    quote; or a bare token, which starts with a letter, a digit or [-]
    and is followed, inside the window, by a separator or a closing
    delimiter. *)
Theorem next_span_kinds
    (buf : memory) (h : heap) (i : nat) (it : spa_json) (value : Z)
    (len : Z) (h' : heap) (value' : Z) :
  h !! i = Some it ->
  state it = __NONE \/ state it = __STRUCT ->
  end_ it - cur it <= INT_MAX ->
  spa_json_next buf h i value = (len, h', value') ->
  0 < len ->
  (is_open (load buf value') = true /\ len = 1)
  \/ (spa_json_is_string buf value' len = true /\
      load buf (value' + len - 1) = c_quote)
  \/ (is_bare_start (load buf value') = true /\ value' + len < end_ it /\
      is_terminator (load buf (value' + len)) = true).
Proof.
  intros Hi Hs Hb Hcall Hlen.
  destruct (spa_json_next_self _ _ _ _ _ _ _ _ Hi Hcall) as (Hi' & -> & -> & _).
  destruct (next_cursor buf it value) as [[[rc it'] v'] st] eqn:Hn.
  unfold rc_of, cursor_of, value_of in *. cbn [fst snd] in *.
  pose proof (next_cursor_frame _ _ _ _ _ _ _ Hn) as (He & _).
  destruct (next_cursor_span _ _ _ _ _ _ _ Hs Hb Hn Hlen) as (_ & _ & _ & Hk).
  unfold span_kind in Hk. rewrite He in Hk. exact Hk.
Qed.

Lemma next_span_kinds_witness :
  let buf := bytes "true false" in
  (is_open (load buf 0) = true /\ 4 = 1)
  \/ (spa_json_is_string buf 0 4 = true /\ load buf (0 + 4 - 1) = c_quote)
  \/ (is_bare_start (load buf 0) = true /\ 0 + 4 < end_ (SPA_JSON_INIT 0 10) /\
      is_terminator (load buf (0 + 4)) = true).
Proof.
  cbv zeta.
  apply (next_span_kinds (bytes "true false") [SPA_JSON_INIT 0 10] 0%nat
           (SPA_JSON_INIT 0 10) 0 4 [mk_spa_json 4 10 None __STRUCT 0] 0
           eq_refl).
  - left. reflexivity.
  - vm_compute. intro H. discriminate H.
  - vm_compute. reflexivity.
  - lia.
Defined.

(** ** After the last token *)

Lemma switch_state_stop (c0 c : Z) (it : spa_json) (v u : Z) :
  token_started c0 it v ->
  c0 <= cur it < end_ it ->
  end_ it - c0 <= INT_MAX ->
  match switch_state c it v u with
  | Continue _ _ _ => True
  | Return rc it1 _ st =>
      rc <= 0 ->
      cur it1 = cur it /\
      forall w u', switch_state c it1 w u' = Return rc it1 w st
  end.
Proof.
  intros Hk Hc Hb. unfold token_started in *.
  assert (HM : INT_MAX = 2147483647) by reflexivity.
  destruct it as [cu en pa s d]. cursor_simpl. unfold_switch.
  destruct s; cursor_simpl;
    (destruct Hk as [Hk|[Hk|Hk]]; try discriminate Hk);
    repeat break_if; cursor_simpl; try exact I;
    try rewrite to_int_small by lia;
    intros Hrc; try lia;
    (split; [reflexivity|]); intros w u'; cursor_simpl;
    repeat match goal with H : _ = _ |- _ => rewrite H end;
    reflexivity.
Qed.

Lemma next_loop_stop (buf : memory) (c0 : Z) (n : nat) :
  forall (it : spa_json) (v u : Z) (rc : Z) (it' : spa_json) (v' : Z)
         (st : option (nat * Z)),
    n = Z.to_nat (end_ it - cur it) ->
    token_started c0 it v ->
    c0 <= cur it ->
    end_ it - c0 <= INT_MAX ->
    next_loop n buf it v u = (rc, it', v', st) ->
    rc <= 0 -> stopped buf rc it' st.
Proof.
  induction n as [|n IH]; intros it v u rc it' v' st Hn Hk Hc Hb Hrun Hrc.
  - cbn [next_loop] in Hrun. injection Hrun as <- <- <- <-.
    left. repeat split. lia.
  - cbn [next_loop] in Hrun.
    pose proof (switch_state_stop c0 (load buf (cur it)) it v u Hk
                  ltac:(lia) Hb) as Hstop.
    pose proof (switch_state_class c0 (load buf (cur it)) it v u Hk
                  ltac:(lia) Hb) as Hcl.
    pose proof (switch_state_frame (load buf (cur it)) it v u) as Hf.
    destruct (switch_state (load buf (cur it)) it v u)
      as [it1 v1 u1|rc1 it1 v1 st1].
    + destruct Hf as (Hc1 & He1 & _).
      assert (Hn1 : n = Z.to_nat (end_ (set_cur (cur it1 + 1) it1)
                                  - cur (set_cur (cur it1 + 1) it1)))
        by (cursor_simpl; lia).
      apply (IH (set_cur (cur it1 + 1) it1) v1 u1 rc it' v' st Hn1 Hcl);
        cursor_simpl; try lia; assumption.
    + injection Hrun as <- <- <- <-.
      destruct Hf as (He1 & _).
      destruct (Hstop Hrc) as (Hc1 & Hsw).
      right. split; [lia|]. rewrite Hc1. exact Hsw.
Qed.

(** A cursor that has stopped returns the same again, whatever [*value]
    holds, and stays as it is. *)
Lemma next_cursor_stopped (buf : memory) (rc : Z) (it' : spa_json)
    (st : option (nat * Z)) (w : Z) :
  stopped buf rc it' st -> next_cursor buf it' w = (rc, it', w, st).
Proof.
  intros [(Hge & -> & ->)|(Hlt & Hsw)].
  - now apply next_cursor_at_end.
  - unfold next_cursor. rewrite next_cursor_unfold.
    destruct (Z.ltb_spec (cur it') (end_ it')) as [_|?]; [|lia].
    rewrite Hsw. reflexivity.
Qed.

Lemma store_cur_idempotent (h : heap) (st : option (nat * Z)) :
  store_cur (store_cur h st) st = store_cur h st.
Proof.
  destruct st as [[p q]|]; [|reflexivity]. cbn [store_cur].
  destruct (h !! p) as [pit|] eqn:Hp; [|now rewrite Hp].
  rewrite list_lookup_insert_eq by (now apply lookup_lt_Some in Hp).
  now rewrite list_insert_insert_eq.
Qed.

(** X5. Once [spa_json_next], called between tokens on a buffer of at
    most [INT_MAX] bytes, has returned 0 (end of scope) or -1
    (malformed), the cursor does not move any more.  A further call on
    it, in whatever heap holds the cursor as the call left it, returns
    the same code, leaves [*value] and the cursor alone, and does to the
    other cursors what the first call did: if that had returned 0 before
    the end of the window, the cursor's position is stored again into the
    parent's [cur], whatever the parent has come to meanwhile; nothing
    else changes.  In the heap that the first call left, the further call
    changes nothing at all. *)
Theorem next_stop_is_final
    (buf : memory) (h : heap) (i : nat) (it : spa_json) (value : Z)
    (rc : Z) (h' : heap) (value' : Z) (it' : spa_json)
    (h2 : heap) (w : Z) :
  h !! i = Some it ->
  state it = __NONE \/ state it = __STRUCT ->
  end_ it - cur it <= INT_MAX ->
  spa_json_next buf h i value = (rc, h', value') ->
  rc <= 0 ->
  h' !! i = Some it' ->
  h2 !! i = Some it' ->
  exists h3,
    spa_json_next buf h2 i w = (rc, h3, w) /\
    h3 !! i = Some it' /\
    length h3 = length h2 /\
    (forall j jt, j <> i -> h2 !! j = Some jt ->
       (parent it = Some j -> rc = 0 -> cur it' < end_ it' ->
        h3 !! j = Some (set_cur (cur it') jt)) /\
       (~ (parent it = Some j /\ rc = 0 /\ cur it' < end_ it') ->
        h3 !! j = Some jt)) /\
    (h2 = h' -> h3 = h').
Proof.
  intros Hi Hs Hb Hcall Hrc Hi' Hi2.
  destruct (spa_json_next_self _ _ _ _ _ _ _ _ Hi Hcall)
    as (Hi'' & Hrc' & _ & _).
  rewrite Hi' in Hi''. injection Hi'' as Hit'.
  rewrite (spa_json_next_eq _ _ _ _ _ Hi) in Hcall.
  destruct (next_cursor buf it value) as [[[rc1 it1] v1] st] eqn:Hn.
  unfold rc_of, cursor_of, value_of, store_of in *. cbn [fst snd] in *.
  subst rc1 it1. injection Hcall as Hh' _.
  assert (Hstop : stopped buf rc it' st).
  { apply (next_loop_stop buf (cur it) _ it value 0 rc it' v1 st eq_refl);
      try assumption; try lia.
    unfold token_started. tauto. }
  pose proof (next_cursor_class _ _ _ _ _ _ _ Hs Hb Hn) as Hcl.
  pose proof (next_cursor_frame _ _ _ _ _ _ _ Hn) as (_ & Hpar' & _).
  rewrite (spa_json_next_eq _ _ _ _ _ Hi2).
  rewrite (next_cursor_stopped buf rc it' st w Hstop).
  unfold rc_of, cursor_of, value_of, store_of. cbn [fst snd].
  rewrite (list_insert_id _ _ _ Hi2).
  exists (store_cur h2 st). split; [reflexivity|].
  assert (Hst : st = match parent it with
                     | Some p =>
                         if (rc =? 0) && (cur it' <? end_ it')
                         then Some (p, cur it') else None
                     | None => None
                     end).
  { unfold return_class in Hcl.
    destruct Hcl as [(? & _)|[(-> & Hlt & _ & _ & _ & ->)
                     |[(-> & Hge & ->)|(-> & ->)]]]; [lia| | |].
    - destruct (parent it); [|reflexivity].
      cbn. now destruct (Z.ltb_spec (cur it') (end_ it')); [|lia].
    - destruct (parent it); [|reflexivity].
      cbn. now destruct (Z.ltb_spec (cur it') (end_ it')); [lia|].
    - now destruct (parent it). }
  split; [|split; [apply store_cur_length|split]].
  - destruct st as [[p q]|]; [|exact Hi2].
    destruct (Nat.eq_dec p i) as [->|Hne].
    + rewrite (store_cur_lookup_eq h2 i q it' Hi2).
      destruct (parent it) as [p'|]; [|discriminate Hst].
      destruct ((rc =? 0) && (cur it' <? end_ it')); [|discriminate Hst].
      injection Hst as _ ->. now rewrite set_cur_same.
    + now rewrite store_cur_lookup_ne.
  - intros j jt Hji Hj. split.
    + intros Hp H0 Hlt. rewrite Hp in Hst.
      destruct (Z.eqb_spec rc 0) as [_|?]; [|lia].
      destruct (Z.ltb_spec (cur it') (end_ it')) as [_|?]; [|lia].
      cbn in Hst. subst st. now apply store_cur_lookup_eq.
    + intros Hnot. destruct st as [[p q]|]; [|exact Hj].
      destruct (parent it) as [p'|]; [|discriminate Hst].
      destruct (Z.eqb_spec rc 0) as [H0|?]; [|discriminate Hst].
      destruct (Z.ltb_spec (cur it') (end_ it')) as [Hlt|?];
        [|discriminate Hst].
      cbn in Hst. injection Hst as -> ->.
      rewrite store_cur_lookup_ne; [exact Hj|].
      intros ->. apply Hnot. now repeat split.
  - intros ->. rewrite <- Hh' at 1.
    rewrite store_cur_idempotent, Hh'. reflexivity.
Qed.

Lemma next_stop_is_final_witness :
  let buf := bytes "[1] 2 " in
  let it' := mk_spa_json 2 6 (Some 0%nat) __STRUCT 0 in
  let h2 := [mk_spa_json 5 6 None __STRUCT 0; it'] in
  exists h3,
    spa_json_next buf h2 1%nat 7 = (0, h3, 7) /\
    h3 !! 1%nat = Some it' /\
    length h3 = length h2 /\
    (forall j jt, j <> 1%nat -> h2 !! j = Some jt ->
       (parent it' = Some j -> 0 = 0 -> cur it' < end_ it' ->
        h3 !! j = Some (set_cur (cur it') jt)) /\
       (~ (parent it' = Some j /\ 0 = 0 /\ cur it' < end_ it') ->
        h3 !! j = Some jt)) /\
    (h2 = [mk_spa_json 2 6 None __STRUCT 1; it'] ->
     h3 = [mk_spa_json 2 6 None __STRUCT 1; it']).
Proof.
  cbv zeta.
  apply (next_stop_is_final (bytes "[1] 2 ")
           [mk_spa_json 1 6 None __STRUCT 1;
            mk_spa_json 2 6 (Some 0%nat) __STRUCT 0]
           1%nat (mk_spa_json 2 6 (Some 0%nat) __STRUCT 0) 1 0
           [mk_spa_json 2 6 None __STRUCT 1;
            mk_spa_json 2 6 (Some 0%nat) __STRUCT 0] 1
           (mk_spa_json 2 6 (Some 0%nat) __STRUCT 0)
           [mk_spa_json 5 6 None __STRUCT 0;
            mk_spa_json 2 6 (Some 0%nat) __STRUCT 0] 7 eq_refl).
  - right. reflexivity.
  - vm_compute. intro H. discriminate H.
  - vm_compute. reflexivity.
  - lia.
  - reflexivity.
  - reflexivity.
Defined.

(** ** The bytes inside a span *)

Lemma bare_start_is_bare_byte (c : Z) :
  is_bare_start c = true -> is_bare_byte c = true.
Proof.
  intros H. unfold is_bare_byte, is_terminator.
  destruct (is_printable c) eqn:E1; [|exfalso; char_facts; lia].
  destruct (is_separator c) eqn:E2; [exfalso; char_facts; lia|].
  destruct (is_close c) eqn:E3; [exfalso; char_facts; lia|reflexivity].
Qed.

Lemma bare_start_is_no_quote (c : Z) :
  is_bare_start c = true -> c <> c_quote.
Proof. intros H E. char_facts. lia. Qed.

Lemma open_is_no_token_start (c : Z) :
  is_open c = true -> c <> c_quote /\ is_bare_start c = false.
Proof.
  intros H. split; [intros E; char_facts; lia|].
  destruct (is_bare_start c) eqn:E; [exfalso; char_facts; lia|reflexivity].
Qed.

(** Extending a range of good bytes by the byte under the cursor. *)
Lemma extend_bytes (buf : memory) (good : Z -> bool) (lo cu : Z) :
  (forall p, lo <= p < cu -> good (load buf p) = true) ->
  good (load buf cu) = true ->
  forall p, lo <= p < cu + 1 -> good (load buf p) = true.
Proof.
  intros Hold Hnew p Hp. destruct (Z.eq_dec p cu) as [->|Hne];
    [assumption|apply Hold; lia].
Qed.

Lemma switch_state_bytes (buf : memory) (c0 : Z) (it : spa_json) (v u : Z) :
  token_open buf c0 it v ->
  token_bytes buf it v ->
  c0 <= cur it < end_ it ->
  end_ it - c0 <= INT_MAX ->
  match switch_state (load buf (cur it)) it v u with
  | Continue it1 v1 _ => token_bytes buf (set_cur (cur it1 + 1) it1) v1
  | Return rc it1 v1 _ => 0 < rc -> span_bytes buf v1 rc
  end.
Proof.
  intros Hk Hby Hc Hb. unfold token_open, token_bytes, span_bytes in *.
  assert (HM : INT_MAX = 2147483647) by reflexivity.
  destruct it as [cu en pa s d]. cursor_simpl.
  remember (load buf cu) as c eqn:Hcu.
  assert (Hstr : forall lo,
             (forall p, lo < p < cu -> is_string_byte (load buf p) = true) ->
             is_string_byte c = true ->
             forall p, lo < p < cu + 1 -> is_string_byte (load buf p) = true).
  { intros lo Hold Hnew p Hp. destruct (Z.eq_dec p cu) as [->|Hne];
      [now rewrite <- Hcu|apply Hold; lia]. }
  unfold_switch.
  destruct s; cursor_simpl.
  - (* not started *)
    repeat break_if; cursor_simpl; try exact I; try (intros; lia).
    + intros _. rewrite <- Hcu.
      destruct (open_is_no_token_start c Heqb1) as [Hq Hbs].
      split; [intros E; contradiction|intros E; congruence].
    + intros p Hp. assert (p = cu) as -> by lia. rewrite <- Hcu.
      now apply bare_start_is_bare_byte.
  - (* Struct *)
    repeat break_if; cursor_simpl; try exact I; try (intros; lia).
    + intros _. rewrite <- Hcu.
      destruct (open_is_no_token_start c Heqb1) as [Hq Hbs].
      split; [intros E; contradiction|intros E; congruence].
    + intros p Hp. assert (p = cu) as -> by lia. rewrite <- Hcu.
      now apply bare_start_is_bare_byte.
  - (* Bare *)
    destruct Hk as [Hv Hk].
    destruct (is_separator c || is_close c) eqn:Hterm.
    + destruct (0 <? d).
      * unfold case_STRUCT. cursor_simpl.
        repeat break_if; cursor_simpl; try exact I; try (intros; lia);
          exfalso; char_facts; lia.
      * rewrite to_int_small by lia. intros _. split.
        -- intros E. exfalso. now apply (bare_start_is_no_quote _ Hk).
        -- intros _ p Hp. apply Hby. lia.
    + destruct (is_printable c) eqn:Hpr; [|intros; lia].
      cursor_simpl. intros p Hp. destruct (Z.eq_dec p cu) as [->|Hne]; [|apply Hby; lia].
      rewrite <- Hcu. unfold is_bare_byte, is_terminator.
      now rewrite Hpr, Hterm.
  - (* String *)
    destruct Hk as [Hv Hk].
    repeat break_if; cursor_simpl; try (intros; lia);
      try (apply Hstr; [assumption|unfold is_string_byte; char_facts; lia]).
    rewrite to_int_small by lia. intros _. split.
    + intros _ p Hp. apply Hby. lia.
    + intros E. exfalso. apply (bare_start_is_no_quote _ E). assumption.
  - (* Utf8 *)
    destruct Hk as [Hv Hk].
    repeat break_if; cursor_simpl; try (intros; lia);
      apply Hstr; try assumption; unfold is_string_byte; char_facts; lia.
  - (* Esc *)
    destruct Hk as [Hv Hk].
    repeat break_if; cursor_simpl; try (intros; lia);
      apply Hstr; try assumption; unfold is_string_byte; char_facts; lia.
Qed.

Lemma next_loop_bytes (buf : memory) (c0 : Z) (n : nat) :
  forall (it : spa_json) (v u : Z) (rc : Z) (it' : spa_json) (v' : Z)
         (st : option (nat * Z)),
    n = Z.to_nat (end_ it - cur it) ->
    token_open buf c0 it v ->
    token_bytes buf it v ->
    c0 <= cur it ->
    end_ it - c0 <= INT_MAX ->
    next_loop n buf it v u = (rc, it', v', st) ->
    0 < rc -> span_bytes buf v' rc.
Proof.
  induction n as [|n IH]; intros it v u rc it' v' st Hn Hk Hby Hc Hb Hrun Hrc.
  - cbn [next_loop] in Hrun. injection Hrun as <- <- <- <-.
    destruct (depth it =? 0); lia.
  - cbn [next_loop] in Hrun.
    pose proof (switch_state_span buf c0 it v u Hk ltac:(lia) Hb) as Hopen.
    pose proof (switch_state_bytes buf c0 it v u Hk Hby ltac:(lia) Hb) as Hstep.
    pose proof (switch_state_frame (load buf (cur it)) it v u) as Hf.
    destruct (switch_state (load buf (cur it)) it v u)
      as [it1 v1 u1|rc1 it1 v1 st1].
    + destruct Hf as (Hc1 & He1 & _).
      assert (Hn1 : n = Z.to_nat (end_ (set_cur (cur it1 + 1) it1)
                                  - cur (set_cur (cur it1 + 1) it1)))
        by (cursor_simpl; lia).
      apply (IH (set_cur (cur it1 + 1) it1) v1 u1 rc it' v' st Hn1 Hopen Hstep);
        cursor_simpl; try lia; assumption.
    + injection Hrun as <- <- <- <-. now apply Hstep.
Qed.

Lemma next_cursor_bytes (buf : memory) (it : spa_json) (v : Z)
    (rc : Z) (it' : spa_json) (v' : Z) (st : option (nat * Z)) :
  state it = __NONE \/ state it = __STRUCT ->
  end_ it - cur it <= INT_MAX ->
  next_cursor buf it v = (rc, it', v', st) ->
  0 < rc -> span_bytes buf v' rc.
Proof.
  intros Hs Hb Hrun Hrc.
  apply (next_loop_bytes buf (cur it) _ it v 0 rc it' v' st eq_refl);
    try assumption; try lia.
  - unfold token_open. destruct Hs as [-> | ->]; exact I.
  - unfold token_bytes. destruct Hs as [-> | ->]; exact I.
Qed.

(** X6. In a span returned by [spa_json_next], called between tokens:
    every byte between the quotes of a string is printable ASCII
    (32..126) or in 128..247, so no control character and no NUL; every
    byte of a bare token is printable ASCII and is neither a separator
    nor a closing delimiter. *)
Theorem next_span_bytes
    (buf : memory) (h : heap) (i : nat) (it : spa_json) (value : Z)
    (len : Z) (h' : heap) (value' : Z) :
  h !! i = Some it ->
  state it = __NONE \/ state it = __STRUCT ->
  end_ it - cur it <= INT_MAX ->
  spa_json_next buf h i value = (len, h', value') ->
  0 < len ->
  (load buf value' = c_quote ->
   forall p, value' < p < value' + len - 1 ->
     is_string_byte (load buf p) = true) /\
  (is_bare_start (load buf value') = true ->
   forall p, value' <= p < value' + len ->
     is_bare_byte (load buf p) = true).
Proof.
  intros Hi Hs Hb Hcall Hlen.
  destruct (spa_json_next_self _ _ _ _ _ _ _ _ Hi Hcall) as (Hi' & -> & -> & _).
  destruct (next_cursor buf it value) as [[[rc it'] v'] st] eqn:Hn.
  unfold rc_of, cursor_of, value_of in *. cbn [fst snd] in *.
  exact (next_cursor_bytes _ _ _ _ _ _ _ Hs Hb Hn Hlen).
Qed.

Lemma next_span_bytes_witness :
  let buf := bytes "x-1,y" in
  (load buf 0 = c_quote ->
   forall p, 0 < p < 0 + 3 - 1 -> is_string_byte (load buf p) = true) /\
  (is_bare_start (load buf 0) = true ->
   forall p, 0 <= p < 0 + 3 -> is_bare_byte (load buf p) = true).
Proof.
  cbv zeta.
  apply (next_span_bytes (bytes "x-1,y") [SPA_JSON_INIT 0 5] 0%nat
           (SPA_JSON_INIT 0 5) 0 3 [mk_spa_json 3 5 None __STRUCT 0] 0
           eq_refl).
  - left. reflexivity.
  - vm_compute. intro H. discriminate H.
  - vm_compute. reflexivity.
  - lia.
Defined.

(** ** [spa_json_get_string] *)

Lemma spec_escaped_not_nul (b : byte) :
  b <> "000"%byte -> spec_escaped b <> "000"%byte.
Proof. destruct b; cbn; intros H E; try discriminate E; contradiction. Qed.

Lemma spec_decode_not_nul (last : byte) (n : nat) :
  forall s : list byte,
    (length s <= n)%nat ->
    Forall (fun b => b <> "000"%byte) s ->
    last <> "000"%byte ->
    Forall (fun b => b <> "000"%byte) (spec_decode s last).
Proof.
  induction n as [|n IH]; intros s Hn Hs Hlast.
  - destruct s; [constructor|simpl in Hn; lia].
  - destruct s as [|b rest]; [constructor|]. simpl in Hn.
    apply Forall_cons_1 in Hs as [Hb Hrest].
    cbn [spec_decode]. destruct (Byte.eqb b "\"%byte).
    + destruct rest as [|e rest'].
      * constructor; [now apply spec_escaped_not_nul|constructor].
      * apply Forall_cons_1 in Hrest as [He Hrest']. simpl in Hn.
        constructor; [now apply spec_escaped_not_nul|].
        apply IH; [lia|assumption|assumption].
    + constructor; [assumption|]. apply IH; [lia|assumption|assumption].
Qed.

Lemma bytes_at_Forall (mem : memory) (P : byte -> Prop) (s : list byte) :
  forall p : Z,
    bytes_at mem p s ->
    (forall q, p <= q < p + Z.of_nat (length s) -> P (load_byte mem q)) ->
    Forall P s.
Proof.
  induction s as [|b rest IH]; intros p Hat Hall; [constructor|].
  destruct Hat as [Hb Hrest]. cbn [length] in Hall. constructor.
  - rewrite <- Hb. apply Hall. lia.
  - apply (IH (p + 1) Hrest). intros q Hq. apply Hall. lia.
Qed.

Lemma string_byte_not_nul (b : byte) :
  is_string_byte (uc b) = true -> b <> "000"%byte.
Proof. intros H ->. vm_compute in H. discriminate H. Qed.

(** X7. [spa_json_get_string], called between tokens on a cursor whose
    window lies in the buffer, either fails with -1 and writes nothing,
    or returns 1 and has written a C string that fits: fewer than
    [maxlen] bytes with the NUL that ends it, and no other NUL. *)
Theorem get_string_fits
    (buf : memory) (h : heap) (i : nat) (it : spa_json)
    (value0 maxlen : Z) :
  h !! i = Some it ->
  state it = __NONE \/ state it = __STRUCT ->
  0 <= cur it ->
  end_ it <= Z.of_nat (length buf) ->
  end_ it - cur it <= INT_MAX ->
  exists (rc : Z) (h' : heap) (out : list byte),
    spa_json_get_string buf h i value0 maxlen = Some (rc, h', out) /\
    ((rc = -1 /\ out = []) \/
     (rc = 1 /\ Z.of_nat (length out) < maxlen /\
      exists body, out = body ++ ["000"%byte] /\
                   Forall (fun b => b <> "000"%byte) body)).
Proof.
  intros Hi Hs Hc0 Hend Hb. unfold spa_json_get_string.
  destruct (spa_json_next buf h i value0) as [[len h'] v] eqn:Hcall.
  destruct (Z.leb_spec len 0) as [Hle|Hpos]; cbn [orb].
  { eexists _, _, _. split; [reflexivity|]. left. now split. }
  destruct (Z.ltb_spec maxlen len) as [Hmax|Hmax].
  { eexists _, _, _. split; [reflexivity|]. left. now split. }
  destruct (spa_json_next_self _ _ _ _ _ _ _ _ Hi Hcall) as (_ & Hrc & Hv & _).
  destruct (next_cursor buf it value0) as [[[rc it'] v'] st] eqn:Hn.
  unfold rc_of, cursor_of, value_of in *. cbn [fst snd] in *. subst rc v'.
  pose proof (next_cursor_frame _ _ _ _ _ _ _ Hn) as (He & _).
  destruct (next_cursor_span _ _ _ _ _ _ _ Hs Hb Hn Hpos) as (H1 & H2 & H3 & _).
  destruct (next_cursor_bytes _ _ _ _ _ _ _ Hs Hb Hn Hpos) as (Hstr & _).
  unfold spa_json_parse_string.
  destruct (spa_json_is_string buf v len) eqn:Hisstr; cbn [negb].
  2:{ eexists _, _, _. split; [reflexivity|]. left. now split. }
  assert (Hlen : 1 < len /\ load buf v = c_quote).
  { unfold spa_json_is_string in Hisstr.
    apply andb_true_iff in Hisstr as [Ha Hq].
    apply Z.ltb_lt in Ha. apply Z.eqb_eq in Hq. now split. }
  destruct Hlen as [Hlen Hq].
  destruct (bytes_at_span buf (v + 1) (len - 2)) as [Hat Hl]; [lia..|].
  rewrite (parse_string_loop_spec (Z.to_nat len) _ buf (v + 1) _ [] Hat);
    [|lia|lia].
  eexists _, _, _. split; [reflexivity|]. right. split; [reflexivity|].
  cbn [app].
  pose proof (spec_decode_length (load_byte buf (v + len - 1)) _
                (span buf (v + 1) (len - 2)) (Nat.le_refl _)) as Hdl.
  split; [rewrite length_app; cbn [length]; lia|].
  eexists. split; [reflexivity|].
  apply (spec_decode_not_nul _ _ _ (Nat.le_refl _)).
  - apply (bytes_at_Forall buf _ _ (v + 1) Hat).
    intros q Hqr. apply string_byte_not_nul.
    apply (Hstr Hq q). lia.
  - intros E. unfold spa_json_is_string in Hisstr.
    pose proof (next_cursor_span _ _ _ _ _ _ _ Hs Hb Hn Hpos) as (_ & _ & _ & Hk).
    destruct Hk as [[Ho _]|[[_ Hlast]|[Hbs _]]].
    + apply open_is_no_token_start in Ho as [Ho _]. contradiction.
    + unfold load in Hlast. rewrite E in Hlast. vm_compute in Hlast.
      discriminate Hlast.
    + apply bare_start_is_no_quote in Hbs. contradiction.
Qed.

Lemma get_string_fits_witness :
  let buf := "034"%byte :: bytes "a\tb" ++ ["034"%byte; " "%byte] in
  exists (rc : Z) (h' : heap) (out : list byte),
    spa_json_get_string buf [SPA_JSON_INIT 0 7] 0%nat 0 16
      = Some (rc, h', out) /\
    ((rc = -1 /\ out = []) \/
     (rc = 1 /\ Z.of_nat (length out) < 16 /\
      exists body, out = body ++ ["000"%byte] /\
                   Forall (fun b => b <> "000"%byte) body)).
Proof.
  cbv zeta.
  apply (get_string_fits ("034"%byte :: bytes "a\tb" ++ ["034"%byte; " "%byte])
           [SPA_JSON_INIT 0 7] 0%nat (SPA_JSON_INIT 0 7) 0 16 eq_refl).
  - left. reflexivity.
  - vm_compute. intro H. discriminate H.
  - vm_compute. intro H. discriminate H.
  - vm_compute. intro H. discriminate H.
Defined.

(** ** The classifiers of literals on the spans of the tokenizer *)

(** X8. What the three classifiers of literals decide: the length is
    that of the literal and memory holds the literal followed by a NUL. *)
Theorem literal_classifiers_need_nul (mem : memory) (val len : Z) :
  (spa_json_is_true mem val len = true
   <-> len = 4 /\ bytes_at mem val (bytes "true" ++ ["000"%byte])) /\
  (spa_json_is_false mem val len = true
   <-> len = 5 /\ bytes_at mem val (bytes "false" ++ ["000"%byte])) /\
  (spa_json_is_null mem val len = true
   <-> len = 4 /\ bytes_at mem val (bytes "null" ++ ["000"%byte])).
Proof.
  split; [apply is_true_iff|]. split; [apply is_false_iff|apply is_null_iff].
Qed.

Lemma bytes_at_nth (mem : memory) (s : list byte) :
  forall (p : Z) (k : nat) (b : byte),
    bytes_at mem p s -> s !! k = Some b ->
    load_byte mem (p + Z.of_nat k) = b.
Proof.
  induction s as [|c rest IH]; intros p k b Hat Hk; [discriminate Hk|].
  destruct Hat as [Hc Hrest]. destruct k as [|k].
  - injection Hk as <-. now rewrite Z.add_0_r.
  - replace (p + Z.of_nat (S k)) with (p + 1 + Z.of_nat k) by lia.
    now apply IH.
Qed.

(** A span of the tokenizer is not followed by a NUL, nor does a literal
    start with a quote or a delimiter. *)
Lemma literal_not_on_span (buf : memory) (v len e : Z) (lit : list byte)
    (b0 : byte) :
  span_kind buf v len e ->
  lit !! 0%nat = Some b0 ->
  is_open (uc b0) = false -> uc b0 <> c_quote ->
  len = Z.of_nat (length lit) ->
  bytes_at buf v (lit ++ ["000"%byte]) ->
  False.
Proof.
  intros Hk H0 Hno Hnq Hlen Hat.
  assert (Hfirst : load buf v = uc b0).
  { unfold load. f_equal. rewrite <- (Z.add_0_r v).
    apply (bytes_at_nth buf _ v 0%nat b0 Hat).
    now apply lookup_app_l_Some. }
  assert (Hnul : load buf (v + len) = 0).
  { unfold load. rewrite Hlen.
    rewrite (bytes_at_nth buf _ v (length lit) "000"%byte Hat); [reflexivity|].
    rewrite lookup_app_r by lia. now rewrite Nat.sub_diag. }
  destruct Hk as [[Ho _]|[[Hs _]|(_ & _ & Ht)]].
  - rewrite Hfirst in Ho. congruence.
  - unfold spa_json_is_string in Hs. apply andb_true_iff in Hs as [_ Hq].
    apply Z.eqb_eq in Hq. congruence.
  - rewrite Hnul in Ht. vm_compute in Ht. discriminate Ht.
Qed.

(** No span of the tokenizer is classified as true or false. *)
Lemma no_literal_on_span
    (buf : memory) (h : heap) (i : nat) (it : spa_json) (value : Z)
    (len : Z) (h' : heap) (value' : Z) :
  h !! i = Some it ->
  state it = __NONE \/ state it = __STRUCT ->
  end_ it - cur it <= INT_MAX ->
  spa_json_next buf h i value = (len, h', value') ->
  0 < len ->
  spa_json_is_true buf value' len = false /\
  spa_json_is_false buf value' len = false.
Proof.
  intros Hi Hs Hb Hcall Hlen.
  destruct (spa_json_next_self _ _ _ _ _ _ _ _ Hi Hcall) as (_ & -> & -> & _).
  destruct (next_cursor buf it value) as [[[rc it'] v'] st] eqn:Hn.
  unfold rc_of, cursor_of, value_of in *. cbn [fst snd] in *.
  destruct (next_cursor_span _ _ _ _ _ _ _ Hs Hb Hn Hlen) as (_ & _ & _ & Hk).
  destruct (spa_json_is_true buf v' rc) eqn:Et.
  { exfalso. apply is_true_iff in Et as [-> Hat].
    now apply (literal_not_on_span buf v' 4 _ (bytes "true") "t"%byte Hk). }
  destruct (spa_json_is_false buf v' rc) eqn:Ef.
  { exfalso. apply is_false_iff in Ef as [-> Hat].
    now apply (literal_not_on_span buf v' 5 _ (bytes "false") "f"%byte Hk). }
  split; reflexivity.
Qed.

(** X9. No span that [spa_json_next] returns, when called between
    tokens, is classified as [true], [false] or [null]: a bare token is
    returned only in front of a separator or closing delimiter, and
    [strcmp] wants a NUL there. *)
Theorem literal_classifiers_reject_spans
    (buf : memory) (h : heap) (i : nat) (it : spa_json) (value : Z)
    (len : Z) (h' : heap) (value' : Z) :
  h !! i = Some it ->
  state it = __NONE \/ state it = __STRUCT ->
  end_ it - cur it <= INT_MAX ->
  spa_json_next buf h i value = (len, h', value') ->
  0 < len ->
  spa_json_is_bool buf value' len = false /\
  spa_json_is_null buf value' len = false.
Proof.
  intros Hi Hs Hb Hcall Hlen.
  destruct (spa_json_next_self _ _ _ _ _ _ _ _ Hi Hcall) as (_ & -> & -> & _).
  destruct (next_cursor buf it value) as [[[rc it'] v'] st] eqn:Hn.
  unfold rc_of, cursor_of, value_of in *. cbn [fst snd] in *.
  destruct (next_cursor_span _ _ _ _ _ _ _ Hs Hb Hn Hlen) as (_ & _ & _ & Hk).
  unfold spa_json_is_bool.
  destruct (spa_json_is_true buf v' rc) eqn:Et.
  { exfalso. apply is_true_iff in Et as [-> Hat].
    now apply (literal_not_on_span buf v' 4 _ (bytes "true") "t"%byte Hk). }
  destruct (spa_json_is_false buf v' rc) eqn:Ef.
  { exfalso. apply is_false_iff in Ef as [-> Hat].
    now apply (literal_not_on_span buf v' 5 _ (bytes "false") "f"%byte Hk). }
  destruct (spa_json_is_null buf v' rc) eqn:En.
  { exfalso. apply is_null_iff in En as [-> Hat].
    now apply (literal_not_on_span buf v' 4 _ (bytes "null") "n"%byte Hk). }
  split; reflexivity.
Qed.

Lemma literal_classifiers_reject_spans_witness :
  let buf := bytes "true, null" in
  spa_json_is_bool buf 0 4 = false /\ spa_json_is_null buf 0 4 = false.
Proof.
  cbv zeta.
  apply (literal_classifiers_reject_spans (bytes "true, null")
           [SPA_JSON_INIT 0 10] 0%nat (SPA_JSON_INIT 0 10) 0 4
           [mk_spa_json 4 10 None __STRUCT 0] 0 eq_refl).
  - left. reflexivity.
  - vm_compute. intro H. discriminate H.
  - vm_compute. reflexivity.
  - lia.
Defined.

(** X10. [spa_json_get_bool], called between tokens, never succeeds: it
    returns -1 whatever the buffer holds, with the cursors as its call
    of [spa_json_next] leaves them.  [*res] is left alone when that call
    finds no token, and is set to [true] when it finds one. *)
Theorem get_bool_never_succeeds
    (buf : memory) (h : heap) (i : nat) (it : spa_json)
    (value0 : Z) (res : bool) :
  h !! i = Some it ->
  state it = __NONE \/ state it = __STRUCT ->
  end_ it - cur it <= INT_MAX ->
  spa_json_get_bool buf h i value0 res
  = (-1, snd (fst (spa_json_next buf h i value0)),
     if 0 <? fst (fst (spa_json_next buf h i value0)) then true else res).
Proof.
  intros Hi Hs Hb. unfold spa_json_get_bool.
  destruct (spa_json_next buf h i value0) as [[len h'] v] eqn:Hcall.
  cbn [fst snd].
  destruct (Z.leb_spec len 0) as [Hle|Hpos].
  { destruct (Z.ltb_spec 0 len); [lia|reflexivity]. }
  destruct (no_literal_on_span buf h i it value0 len h' v
              Hi Hs Hb Hcall Hpos) as [Ht Hf].
  unfold spa_json_parse_bool. rewrite Ht, Hf. cbn.
  destruct (Z.ltb_spec 0 len); [reflexivity|lia].
Qed.

Lemma get_bool_never_succeeds_witness :
  spa_json_get_bool (bytes "true ") [SPA_JSON_INIT 0 5] 0%nat 0 false
  = (-1, snd (fst (spa_json_next (bytes "true ") [SPA_JSON_INIT 0 5] 0%nat 0)),
     if 0 <? fst (fst (spa_json_next (bytes "true ") [SPA_JSON_INIT 0 5]
                         0%nat 0))
     then true else false).
Proof.
  apply (get_bool_never_succeeds (bytes "true ") [SPA_JSON_INIT 0 5] 0%nat
           (SPA_JSON_INIT 0 5) 0 false eq_refl).
  - left. reflexivity.
  - vm_compute. intro H. discriminate H.
Defined.

(** ** The caller's loop ends *)

(** X11. A call that returns a token moves the cursor forward, so a
    caller that calls [spa_json_next] until it returns no token makes at
    most one call per byte of the window, and one more. *)
Theorem lifetime_bounded (buf : memory) (calls : nat) :
  forall (it : spa_json) (value : Z),
    state it = __NONE \/ state it = __STRUCT ->
    end_ it - cur it <= INT_MAX ->
    (length (lifetime calls buf it value)
     <= Z.to_nat (end_ it - cur it) + 1)%nat.
Proof.
  induction calls as [|k IH]; intros it value Hs Hb; [cbn; lia|].
  cbn [lifetime].
  destruct (next_cursor buf it value) as [[[rc it'] v'] st] eqn:Hn.
  cbn [length].
  destruct (Z.ltb_spec 0 rc) as [Hpos|?]; [|cbn; lia].
  pose proof (next_cursor_frame _ _ _ _ _ _ _ Hn) as (He & _).
  destruct (next_cursor_span _ _ _ _ _ _ _ Hs Hb Hn Hpos) as (H1 & H2 & H3 & _).
  pose proof (next_cursor_class _ _ _ _ _ _ _ Hs Hb Hn) as Hcl.
  assert (Hst : state it' = __STRUCT).
  { destruct Hcl as [(_ & H & _)|[(? & _)|[(? & _)|(? & _)]]];
      [assumption|lia..]. }
  specialize (IH it' v' (or_intror Hst) ltac:(lia)). lia.
Qed.

Lemma lifetime_bounded_witness :
  (length (lifetime 100 (bytes "1 2 3 ") (SPA_JSON_INIT 0 6) 0)
   <= Z.to_nat (end_ (SPA_JSON_INIT 0 6) - cur (SPA_JSON_INIT 0 6)) + 1)%nat.
Proof.
  apply (lifetime_bounded (bytes "1 2 3 ") 100 (SPA_JSON_INIT 0 6) 0).
  - left. reflexivity.
  - vm_compute. intro H. discriminate H.
Defined.

(** ** Strings without escapes *)

Lemma spec_decode_plain (last : byte) (s : list byte) :
  Forall (fun b => b <> "\"%byte) s -> spec_decode s last = s.
Proof.
  induction 1 as [|b rest Hb Hrest IH]; [reflexivity|].
  cbn [spec_decode].
  destruct (Byte.eqb b "\"%byte) eqn:E.
  - apply Byte.byte_dec_bl in E. contradiction.
  - now rewrite IH.
Qed.

(** X12. On a string span without backslash, lying in memory,
    [spa_json_parse_string] copies the bytes between the quotes as they
    are and appends a NUL. *)
Theorem parse_string_plain (mem : memory) (val len : Z) :
  0 <= val ->
  val + len <= Z.of_nat (length mem) ->
  spa_json_is_string mem val len = true ->
  Forall (fun b => b <> "\"%byte) (span mem (val + 1) (len - 2)) ->
  spa_json_parse_string mem val len
  = Some (1, span mem (val + 1) (len - 2) ++ ["000"%byte]).
Proof.
  intros Hval Hmem Hstr Hplain.
  unfold spa_json_parse_string. rewrite Hstr. cbn [negb].
  assert (Hlen : 1 < len).
  { unfold spa_json_is_string in Hstr.
    apply andb_true_iff in Hstr as [H _]. lia. }
  destruct (bytes_at_span mem (val + 1) (len - 2)) as [Hat Hl]; [lia..|].
  rewrite (parse_string_loop_spec (Z.to_nat len) _ mem (val + 1) _ [] Hat);
    [|lia|lia].
  cbn [app]. now rewrite spec_decode_plain.
Qed.

Lemma parse_string_plain_witness :
  let mem := "034"%byte :: bytes "node.name" ++ ["034"%byte] in
  spa_json_parse_string mem 0 11
  = Some (1, span mem (0 + 1) (11 - 2) ++ ["000"%byte]).
Proof.
  cbv zeta. apply parse_string_plain.
  - lia.
  - vm_compute. intro H. discriminate H.
  - vm_compute. reflexivity.
  - vm_compute. repeat constructor; intro H; discriminate H.
Defined.

(** ** [spa_json_enter_container] on a token *)

(** X13. Let [spa_json_next], called by [spa_json_enter_container] for
    an opening delimiter [type], find a token.  If the token starts with
    [type], it is that delimiter alone: the function returns 1, leaves
    [iter] at depth 1 just behind the delimiter, and sets [sub] to a
    fresh cursor from there to the end of [iter], with [iter] as its
    parent.  If not, the function returns -1 without touching [sub], but
    [iter] has consumed the token. *)
Theorem enter_container_on_token
    (buf : memory) (h : heap) (i : nat) (it : spa_json) (type value0 : Z)
    (rc : Z) (h' : heap) (value' : Z) :
  h !! i = Some it ->
  state it = __NONE \/ (state it = __STRUCT /\ 0 <= depth it <= 1) ->
  end_ it - cur it <= INT_MAX ->
  is_open type = true ->
  spa_json_next buf h i value0 = (rc, h', value') ->
  0 < rc ->
  (load buf value' = type ->
   rc = 1 /\
   (exists it', h' !! i = Some it' /\ depth it' = 1 /\ cur it' = value' + 1) /\
   spa_json_enter_container buf h i type value0
   = (1, h' ++ [mk_spa_json (value' + 1) (end_ it) (Some i) __NONE 0],
      Some (length h'))) /\
  (load buf value' <> type ->
   spa_json_enter_container buf h i type value0 = (-1, h', None)).
Proof.
  intros Hi Hs Hb Hty Hcall Hrc.
  unfold spa_json_enter_container. rewrite Hcall.
  destruct (Z.ltb_spec rc 0) as [?|_]; [lia|]. cbn [orb].
  split.
  - intros Hload. rewrite Hload, Z.eqb_refl. cbn [negb].
    destruct (spa_json_next_self _ _ _ _ _ _ _ _ Hi Hcall)
      as (Hi' & Hrc' & Hv' & _).
    destruct (next_cursor buf it value0) as [[[rc1 it'] v1] st] eqn:Hn.
    unfold rc_of, cursor_of, value_of in *. cbn [fst snd] in *. subst rc1 v1.
    pose proof (next_cursor_frame _ _ _ _ _ _ _ Hn) as (He & _).
    assert (Hcont : spa_json_is_object buf value' rc
                    || spa_json_is_array buf value' rc = true).
    { unfold spa_json_is_object, spa_json_is_array, is_open in *.
      rewrite Hload. destruct (Z.ltb_spec 0 rc); [|lia]. cbn [andb].
      now rewrite orb_comm. }
    destruct (next_cursor_container _ _ _ _ _ _ _ Hs Hb Hn Hcont)
      as (_ & Hd & Hc & _).
    assert (Hone : rc = 1).
    { assert (Hs' : state it = __NONE \/ state it = __STRUCT) by tauto.
      destruct (next_cursor_span _ _ _ _ _ _ _ Hs' Hb Hn Hrc)
        as (_ & Hsum & _). lia. }
    split; [assumption|]. split.
    + exists it'. now repeat split.
    + unfold spa_json_enter. rewrite Hi'. unfold SPA_JSON_ENTER.
      now rewrite Hc, He.
  - intros Hne. destruct (Z.eqb_spec (load buf value') type); [contradiction|].
    reflexivity.
Qed.

Lemma enter_container_on_token_witness :
  let buf := bytes " {a:1} " in
  let h := [SPA_JSON_INIT 0 7] in
  let h' := [mk_spa_json 2 7 None __STRUCT 1] in
  (load buf 1 = c_lbrace ->
   1 = 1 /\
   (exists it', h' !! 0%nat = Some it' /\ depth it' = 1 /\ cur it' = 1 + 1) /\
   spa_json_enter_container buf h 0%nat c_lbrace 0
   = (1, h' ++ [mk_spa_json (1 + 1) (end_ (SPA_JSON_INIT 0 7)) (Some 0%nat)
                  __NONE 0],
      Some (length h'))) /\
  (load buf 1 <> c_lbrace ->
   spa_json_enter_container buf h 0%nat c_lbrace 0 = (-1, h', None)).
Proof.
  cbv zeta.
  apply (enter_container_on_token (bytes " {a:1} ") [SPA_JSON_INIT 0 7] 0%nat
           (SPA_JSON_INIT 0 7) c_lbrace 0 1 [mk_spa_json 2 7 None __STRUCT 1] 1).
  - reflexivity.
  - left. reflexivity.
  - vm_compute. discriminate.
  - reflexivity.
  - vm_compute. reflexivity.
  - lia.
Defined.

(** * Properties of the string helpers *)

(** ** Memory as strings *)

Lemma from_cons (mem : memory) (p : Z) (b : byte) (rest : list byte) :
  0 <= p -> from mem p = b :: rest ->
  load_byte mem p = b /\ from mem (p + 1) = rest /\
  p < Z.of_nat (length mem).
Proof.
  intros Hp Hfr. unfold from, load_byte in *.
  destruct (Z.ltb_spec p 0) as [?|_]; [lia|].
  destruct (Z.ltb_spec (p + 1) 0) as [?|_]; [lia|].
  assert (Hl : mem !! Z.to_nat p = Some b).
  { rewrite <- (take_drop (Z.to_nat p) mem) at 1.
    destruct (Nat.le_gt_cases (length mem) (Z.to_nat p)) as [Hge|Hlt].
    - rewrite drop_ge in Hfr by assumption. discriminate Hfr.
    - rewrite lookup_app_r by (rewrite length_take; lia).
      rewrite length_take, Nat.min_l by lia. rewrite Nat.sub_diag, Hfr.
      reflexivity. }
  split; [now apply nth_lookup_Some|].
  split.
  - replace (Z.to_nat (p + 1)) with (S (Z.to_nat p)) by lia.
    rewrite (drop_S _ _ _ Hl) in Hfr. now injection Hfr.
  - apply lookup_lt_Some in Hl. lia.
Qed.

Lemma from_nil (mem : memory) (p : Z) :
  from mem p = [] -> load_byte mem p = "000"%byte.
Proof.
  unfold from, load_byte. destruct (Z.ltb_spec p 0); [reflexivity|].
  intros Hfr. apply nth_overflow.
  destruct (Nat.le_gt_cases (length mem) (Z.to_nat p)) as [Hge|Hlt];
    [assumption|].
  apply (f_equal length) in Hfr. rewrite length_drop in Hfr. simpl in Hfr. lia.
Qed.

(** What [strspn] and [strcspn] return: the bytes counted satisfy the
    test, and the byte after them does not (it is, or is not, in the set,
    or it is the NUL). *)
Lemma prefix_len_spec (P : byte -> bool) (mem : memory) :
  P "000"%byte = false ->
  forall (l : list byte) (p : Z),
    0 <= p -> from mem p = l ->
    0 <= prefix_len P l /\
    (forall q, p <= q < p + prefix_len P l -> P (load_byte mem q) = true) /\
    P (load_byte mem (p + prefix_len P l)) = false /\
    p + prefix_len P l <= Z.max p (Z.of_nat (length mem)).
Proof.
  intros Hnul. induction l as [|b rest IH]; intros p Hp Hfrom; cbn [prefix_len].
  - rewrite Z.add_0_r. repeat split; try lia. now rewrite (from_nil _ _ Hfrom).
  - destruct (from_cons _ _ _ _ Hp Hfrom) as (Hb & Hrest & Hlt).
    destruct (P b) eqn:HPb.
    + destruct (IH (p + 1) ltac:(lia) Hrest) as (H0 & Hall & Hend & Hmax).
      repeat split; try lia.
      * intros q Hq. destruct (Z.eq_dec q p) as [->|Hne].
        -- now rewrite Hb.
        -- apply Hall. lia.
      * now replace (p + (1 + prefix_len P rest))
          with (p + 1 + prefix_len P rest) by lia.
    + rewrite Z.add_0_r, Hb. repeat split; try lia. assumption.
Qed.

Lemma load_nul_iff (mem : memory) (p : Z) :
  (load mem p =? 0) = is_nul (load_byte mem p).
Proof. unfold load. now destruct (load_byte mem p). Qed.

Lemma load_not_nul_in_range (mem : memory) (p : Z) :
  is_nul (load_byte mem p) = false -> 0 <= p < Z.of_nat (length mem).
Proof.
  unfold load_byte. destruct (Z.ltb_spec p 0); [discriminate|].
  intros Hn. split; [assumption|].
  destruct (Nat.le_gt_cases (length mem) (Z.to_nat p)) as [Hge|Hlt]; [|lia].
  rewrite nth_overflow in Hn by assumption. discriminate Hn.
Qed.

(** ** [pw_split_walk] *)

(** What a call that returns a token has done. *)
Lemma pw_split_walk_some
    (mem : memory) (str : Z) (delimiter : list byte) (len : Z)
    (state : option Z) (s len' : Z) (state' : option Z) :
  0 <= match state with Some p => p | None => str end ->
  pw_split_walk mem str delimiter len state = (Some s, len', state') ->
  let start := match state with Some p => p | None => str end in
  start <= s /\
  (forall q, start <= q < s ->
     in_set (load_byte mem q) delimiter = true /\
     is_nul (load_byte mem q) = false) /\
  0 < len' /\
  (forall q, s <= q < s + len' ->
     in_set (load_byte mem q) delimiter = false /\
     is_nul (load_byte mem q) = false) /\
  (is_nul (load_byte mem (s + len')) = true \/
   in_set (load_byte mem (s + len')) delimiter = true) /\
  state' = Some (s + len') /\
  s + len' <= Z.of_nat (length mem).
Proof.
  intros Hstart Hwalk. cbv zeta. unfold pw_split_walk in Hwalk.
  set (start := match state with Some p => p | None => str end) in *.
  destruct (prefix_len_spec
              (fun b => negb (is_nul b) && in_set b delimiter) mem eq_refl
              _ start Hstart eq_refl) as (H0 & Hall & Hend & Hmax).
  change (prefix_len _ (from mem start)) with (strspn mem start delimiter) in *.
  cbv beta in Hall, Hend.
  set (k := strspn mem start delimiter) in *.
  rewrite load_nul_iff in Hwalk.
  destruct (is_nul (load_byte mem (start + k))) eqn:Hnul; [discriminate Hwalk|].
  injection Hwalk as <- <- <-.
  destruct (prefix_len_spec
              (fun b => negb (is_nul b) && negb (in_set b delimiter)) mem
              eq_refl _ (start + k) ltac:(lia) eq_refl)
    as (H0' & Hall' & Hend' & Hmax').
  change (prefix_len _ (from mem (start + k)))
    with (strcspn mem (start + k) delimiter) in *.
  cbv beta in Hall', Hend'.
  set (n := strcspn mem (start + k) delimiter) in *.
  cbn [negb andb] in Hend.
  split; [lia|]. split.
  { intros q Hq. specialize (Hall q ltac:(lia)).
    apply andb_true_iff in Hall as [Ha Hb].
    apply negb_true_iff in Ha. now split. }
  assert (Hn : 0 < n).
  { destruct (Z.eq_dec n 0) as [E|?]; [|lia].
    rewrite E, Z.add_0_r, Hnul, Hend in Hend'. discriminate Hend'. }
  split; [assumption|]. split.
  { intros q Hq. specialize (Hall' q ltac:(lia)).
    apply andb_true_iff in Hall' as [Ha Hb].
    apply negb_true_iff in Ha, Hb. now split. }
  split.
  { destruct (is_nul (load_byte mem (start + k + n))); [now left|].
    right. cbn [negb andb] in Hend'. now apply negb_false_iff in Hend'. }
  split; [reflexivity|].
  pose proof (load_not_nul_in_range mem (start + k) Hnul). lia.
Qed.

(** X14. When [pw_split_walk] returns a token, it has skipped only
    delimiters; the token is not empty, holds no delimiter and no NUL,
    and is followed by a delimiter or by the NUL that ends the string;
    [*state] is left just after the token. *)
Theorem split_walk_token
    (mem : memory) (str : Z) (delimiter : list byte) (len : Z)
    (state : option Z) (s len' : Z) (state' : option Z) :
  0 <= match state with Some p => p | None => str end ->
  pw_split_walk mem str delimiter len state = (Some s, len', state') ->
  let start := match state with Some p => p | None => str end in
  start <= s /\
  (forall q, start <= q < s ->
     in_set (load_byte mem q) delimiter = true /\
     is_nul (load_byte mem q) = false) /\
  0 < len' /\
  (forall q, s <= q < s + len' ->
     in_set (load_byte mem q) delimiter = false /\
     is_nul (load_byte mem q) = false) /\
  (is_nul (load_byte mem (s + len')) = true \/
   in_set (load_byte mem (s + len')) delimiter = true) /\
  state' = Some (s + len') /\
  s + len' <= Z.of_nat (length mem).
Proof. apply pw_split_walk_some. Qed.

(** X15. When [pw_split_walk] returns NULL, it leaves [*len] and
    [*state] as they were, and what was left of the string held nothing
    but delimiters. *)
Theorem split_walk_end
    (mem : memory) (str : Z) (delimiter : list byte) (len : Z)
    (state : option Z) (len' : Z) (state' : option Z) :
  0 <= match state with Some p => p | None => str end ->
  pw_split_walk mem str delimiter len state = (None, len', state') ->
  let start := match state with Some p => p | None => str end in
  len' = len /\ state' = state /\
  exists e, start <= e /\ is_nul (load_byte mem e) = true /\
    forall q, start <= q < e ->
      in_set (load_byte mem q) delimiter = true /\
      is_nul (load_byte mem q) = false.
Proof.
  intros Hstart Hwalk. cbv zeta. unfold pw_split_walk in Hwalk.
  set (start := match state with Some p => p | None => str end) in *.
  destruct (prefix_len_spec
              (fun b => negb (is_nul b) && in_set b delimiter) mem eq_refl
              _ start Hstart eq_refl) as (H0 & Hall & _).
  change (prefix_len _ (from mem start)) with (strspn mem start delimiter) in *.
  cbv beta in Hall.
  set (k := strspn mem start delimiter) in *.
  rewrite load_nul_iff in Hwalk.
  destruct (is_nul (load_byte mem (start + k))) eqn:Hnul; [|discriminate Hwalk].
  injection Hwalk as <- <-.
  split; [reflexivity|]. split; [reflexivity|].
  exists (start + k). split; [lia|]. split; [assumption|].
  intros q Hq. specialize (Hall q Hq).
  apply andb_true_iff in Hall as [Ha Hb]. apply negb_true_iff in Ha. now split.
Qed.

Lemma split_walk_token_witness :
  let mem := bytes ", ab,c" in
  let start := 0 in
  start <= 2 /\
  (forall q, start <= q < 2 ->
     in_set (load_byte mem q) (bytes ", ") = true /\
     is_nul (load_byte mem q) = false) /\
  0 < 2 /\
  (forall q, 2 <= q < 2 + 2 ->
     in_set (load_byte mem q) (bytes ", ") = false /\
     is_nul (load_byte mem q) = false) /\
  (is_nul (load_byte mem (2 + 2)) = true \/
   in_set (load_byte mem (2 + 2)) (bytes ", ") = true) /\
  Some 4 = Some (2 + 2) /\
  2 + 2 <= Z.of_nat (length mem).
Proof.
  cbv zeta.
  apply (split_walk_token (bytes ", ab,c") 0 (bytes ", ") 0 None 2 2 (Some 4)).
  - cbn. lia.
  - vm_compute. reflexivity.
Defined.

Lemma split_walk_end_witness :
  let mem := bytes "ab, ," in
  let start := 2 in
  7 = 7 /\ Some 2 = Some 2 /\
  exists e, start <= e /\ is_nul (load_byte mem e) = true /\
    forall q, start <= q < e ->
      in_set (load_byte mem q) (bytes ", ") = true /\
      is_nul (load_byte mem q) = false.
Proof.
  cbv zeta.
  apply (split_walk_end (bytes "ab, ,") 0 (bytes ", ") 7 (Some 2) 7 (Some 2)).
  - cbn. lia.
  - vm_compute. reflexivity.
Defined.

(** ** The tokens of a string *)

Lemma from_drop (mem : memory) (p k : Z) :
  0 <= p -> 0 <= k -> from mem (p + k) = drop (Z.to_nat k) (from mem p).
Proof.
  intros Hp Hk. unfold from.
  destruct (Z.ltb_spec (p + k) 0); [lia|]. destruct (Z.ltb_spec p 0); [lia|].
  rewrite drop_drop. f_equal. lia.
Qed.

Lemma span_from (mem : memory) (p n : Z) :
  0 <= p -> span mem p n = take (Z.to_nat n) (from mem p).
Proof.
  intros Hp. unfold span, from. destruct (Z.ltb_spec p 0); [lia|reflexivity].
Qed.

Lemma prefix_len_nonneg (P : byte -> bool) (l : list byte) :
  0 <= prefix_len P l <= Z.of_nat (length l).
Proof.
  induction l as [|b rest IH]; cbn [prefix_len length]; [lia|].
  destruct (P b); lia.
Qed.

(** Leading delimiters do not count. *)
Lemma split_spec_skip (d : list byte) (l : list byte) :
  split_spec d (until_nul l) []
  = split_spec d
      (until_nul
         (drop (Z.to_nat (prefix_len (fun b => negb (is_nul b) && in_set b d) l))
            l)) [].
Proof.
  induction l as [|b rest IH]; [reflexivity|].
  cbn [prefix_len until_nul].
  destruct (is_nul b) eqn:Hn; cbn [negb andb].
  - change (Z.to_nat 0) with 0%nat; cbn [skipn until_nul]. now rewrite Hn.
  - destruct (in_set b d) eqn:Hd.
    + pose proof (prefix_len_nonneg
                    (fun b => negb (is_nul b) && in_set b d) rest) as [H0 _].
      replace (Z.to_nat (1 + prefix_len
                               (fun b => negb (is_nul b) && in_set b d) rest))
        with (S (Z.to_nat (prefix_len
                             (fun b => negb (is_nul b) && in_set b d) rest)))
        by lia.
      cbn [skipn split_spec]. rewrite Hd. exact IH.
    + change (Z.to_nat 0) with 0%nat; cbn [skipn until_nul]. now rewrite Hn.
Qed.

(** The first token is the longest prefix without delimiter. *)
Lemma split_spec_token (d : list byte) (l : list byte) :
  forall acc : list byte,
    let n := prefix_len (fun b => negb (is_nul b) && negb (in_set b d)) l in
    acc <> [] \/ 0 < n ->
    split_spec d (until_nul l) acc
    = (rev acc ++ take (Z.to_nat n) l)
        :: split_spec d (until_nul (drop (Z.to_nat n) l)) [].
Proof.
  induction l as [|b rest IH]; intros acc n Hne; subst n.
  - cbn in *. destruct Hne as [Hne|?]; [|lia].
    destruct acc; [contradiction|]. now rewrite app_nil_r.
  - cbn [prefix_len until_nul] in *.
    destruct (is_nul b) eqn:Hn; cbn [negb andb] in *.
    + destruct Hne as [Hne|?]; [|lia].
      change (Z.to_nat 0) with 0%nat; cbn [firstn skipn until_nul split_spec]. rewrite Hn.
      destruct acc; [contradiction|]. cbn [split_spec]. now rewrite app_nil_r.
    + destruct (in_set b d) eqn:Hd; cbn [negb] in *.
      * destruct Hne as [Hne|?]; [|lia].
        change (Z.to_nat 0) with 0%nat; cbn [firstn skipn until_nul split_spec]. rewrite Hn, Hd.
        destruct acc; [contradiction|]. cbn [split_spec]. rewrite Hd.
        now rewrite app_nil_r.
      * pose proof (prefix_len_nonneg
                      (fun b => negb (is_nul b) && negb (in_set b d)) rest)
          as [H0 _].
        replace (Z.to_nat (1 + prefix_len
                   (fun b => negb (is_nul b) && negb (in_set b d)) rest))
          with (S (Z.to_nat (prefix_len
                   (fun b => negb (is_nul b) && negb (in_set b d)) rest)))
          by lia.
        cbn [firstn skipn split_spec]. rewrite Hd.
        rewrite (IH (b :: acc)) by (left; discriminate).
        cbn [rev]. now rewrite <- app_assoc.
Qed.

Lemma walk_all_spec (d : list byte) (mem : memory) (str : Z) (calls : nat) :
  forall (len : Z) (state : option Z),
    let start := match state with Some p => p | None => str end in
    0 <= start ->
    (length mem < calls + Z.to_nat start)%nat ->
    map (fun t => span mem (fst t) (snd t))
        (walk_all calls mem str d len state)
    = split_spec d (cstring mem start) [].
Proof.
  induction calls as [|k IH]; intros len state start Hstart Hfuel.
  - (* no call left: the start is past the end of memory *)
    cbn [walk_all map]. unfold cstring, from.
    destruct (Z.ltb_spec start 0); [lia|].
    rewrite drop_ge by lia. reflexivity.
  - cbn [walk_all].
    destruct (pw_split_walk mem str d len state) as [[[s|] len'] state']
      eqn:Hwalk.
    + pose proof (pw_split_walk_some mem str d len state s len' state'
                    Hstart Hwalk) as Htok.
      cbv zeta in Htok. fold start in Htok.
      destruct Htok as (Hle & _ & Hlen & _ & _ & -> & Hmax).
      cbn [map fst snd].
      rewrite (IH len' (Some (s + len'))) by (cbn; lia).
      cbv zeta. unfold cstring.
      unfold pw_split_walk in Hwalk. fold start in Hwalk.
      destruct (load mem (start + strspn mem start d) =? 0);
        [discriminate Hwalk|].
      injection Hwalk as Hs Hl _. rewrite Hs in Hl.
      rewrite (split_spec_skip d (from mem start)).
      fold (strspn mem start d).
      assert (Hk : 0 <= strspn mem start d)
        by apply prefix_len_nonneg.
      rewrite <- (from_drop mem start _ Hstart Hk), Hs.
      rewrite (split_spec_token d (from mem s) []).
      * fold (strcspn mem s d). rewrite Hl. cbn [rev app].
        rewrite <- span_from by lia.
        rewrite <- (from_drop mem s len') by lia. reflexivity.
      * right. fold (strcspn mem s d). lia.
    + cbn [map]. unfold cstring.
      unfold pw_split_walk in Hwalk. fold start in Hwalk.
      rewrite load_nul_iff in Hwalk.
      destruct (is_nul (load_byte mem (start + strspn mem start d))) eqn:Hn;
        [|discriminate Hwalk].
      rewrite (split_spec_skip d (from mem start)).
      fold (strspn mem start d).
      assert (Hk : 0 <= strspn mem start d) by apply prefix_len_nonneg.
      rewrite <- (from_drop mem start _ Hstart Hk).
      destruct (from mem (start + strspn mem start d)) as [|b rest] eqn:Hfr;
        [reflexivity|].
      destruct (from_cons mem (start + strspn mem start d) b rest
                  ltac:(lia) Hfr) as (Hb & _).
      cbn [until_nul]. rewrite <- Hb, Hn. reflexivity.
Qed.

Lemma split_walk_tokens_aux
    (mem : memory) (str : Z) (d : list byte) (len : Z) :
  0 <= str ->
  map (fun t => span mem (fst t) (snd t))
      (walk_all (S (length mem)) mem str d len None)
  = split_spec d (cstring mem str) [].
Proof.
  intros Hstr.
  apply (walk_all_spec d mem str (S (length mem)) len None Hstr).
  lia.
Qed.

(** X16. Calling [pw_split_walk] until it returns NULL, from a NULL
    state, gives the substrings of the string delimited by the bytes of
    [delimiter], in order; one call more than the memory has bytes is
    always enough. *)
Theorem split_walk_gives_tokens
    (mem : memory) (str : Z) (delimiter : list byte) (len : Z) :
  0 <= str ->
  map (fun t => span mem (fst t) (snd t))
      (walk_all (S (length mem)) mem str delimiter len None)
  = split_spec delimiter (cstring mem str) [].
Proof.
  apply split_walk_tokens_aux.
Qed.

Lemma split_walk_gives_tokens_witness :
  map (fun t => span (bytes " a,b  cd ") (fst t) (snd t))
      (walk_all (S (length (bytes " a,b  cd "))) (bytes " a,b  cd ") 0
         (bytes ", ") 0 None)
  = split_spec (bytes ", ") (cstring (bytes " a,b  cd ") 0) [].
Proof.
  apply (split_walk_gives_tokens (bytes " a,b  cd ") 0 (bytes ", ") 0). lia.
Defined.

(** ** [pw_split_ip] *)

Lemma store_byte_length (mem : memory) (p : Z) (b : byte) :
  length (store_byte mem p b) = length mem.
Proof.
  unfold store_byte. destruct (p <? 0); [reflexivity|].
  apply length_insert.
Qed.

Lemma load_store_nul (mem : memory) (p q : Z) :
  load_byte (store_byte mem p "000"%byte) q
  = if q =? p then "000"%byte else load_byte mem q.
Proof.
  unfold load_byte, store_byte.
  destruct (Z.eqb_spec q p) as [->|Hne].
  - destruct (Z.ltb_spec p 0); [reflexivity|].
    destruct (Nat.le_gt_cases (length mem) (Z.to_nat p)) as [Hge|Hlt].
    + apply nth_overflow. now rewrite length_insert.
    + apply nth_lookup_Some. now apply list_lookup_insert_eq.
  - destruct (Z.ltb_spec q 0); [reflexivity|].
    destruct (Z.ltb_spec p 0); [reflexivity|].
    rewrite !nth_lookup. rewrite list_lookup_insert_ne by lia. reflexivity.
Qed.

Lemma from_ext (m1 m2 : memory) (p : Z) :
  0 <= p -> length m1 = length m2 ->
  (forall q, p <= q -> load_byte m1 q = load_byte m2 q) ->
  from m1 p = from m2 p.
Proof.
  intros Hp Hlen Hall. unfold from. destruct (Z.ltb_spec p 0); [lia|].
  apply list_eq. intros i. rewrite !lookup_drop.
  specialize (Hall (p + Z.of_nat i) ltac:(lia)). unfold load_byte in Hall.
  destruct (Z.ltb_spec (p + Z.of_nat i) 0); [lia|].
  replace (Z.to_nat (p + Z.of_nat i)) with (Z.to_nat p + i)%nat in Hall by lia.
  destruct (Nat.le_gt_cases (length m1) (Z.to_nat p + i)) as [Hge|Hlt].
  - rewrite !lookup_ge_None_2 by lia. reflexivity.
  - destruct (lookup_lt_is_Some_2 m1 _ Hlt) as [x Hx].
    destruct (lookup_lt_is_Some_2 m2 (Z.to_nat p + i)%nat ltac:(lia))
      as [y Hy].
    rewrite Hx, Hy. f_equal.
    rewrite (nth_lookup_Some _ _ "000"%byte _ Hx) in Hall.
    rewrite (nth_lookup_Some _ _ "000"%byte _ Hy) in Hall. exact Hall.
Qed.

Lemma load_byte_from (mem : memory) (p : Z) :
  0 <= p -> load_byte mem p = hd "000"%byte (from mem p).
Proof.
  intros Hp. destruct (from mem p) as [|b rest] eqn:Hfr.
  - now apply from_nil.
  - now destruct (from_cons mem p b rest Hp Hfr) as (Hb & _).
Qed.

(** A call reads the string from the start position on only. *)
Lemma pw_split_walk_from (m1 m2 : memory) (str : Z) (d : list byte)
    (len : Z) (state : option Z) :
  let start := match state with Some p => p | None => str end in
  0 <= start -> from m1 start = from m2 start ->
  pw_split_walk m1 str d len state = pw_split_walk m2 str d len state.
Proof.
  intros start Hstart Hfrom. unfold pw_split_walk. fold start.
  assert (Hk : strspn m1 start d = strspn m2 start d)
    by (unfold strspn; now rewrite Hfrom).
  rewrite <- Hk.
  assert (H0 : 0 <= strspn m1 start d) by apply prefix_len_nonneg.
  assert (Hfrom' : from m1 (start + strspn m1 start d)
                   = from m2 (start + strspn m1 start d))
    by (rewrite !from_drop by assumption; now rewrite Hfrom).
  unfold load. rewrite !load_byte_from by lia. rewrite Hfrom'.
  unfold strcspn. rewrite Hfrom'. reflexivity.
Qed.

(** The contents of [*len] on entry matter only when NULL is returned. *)
Lemma pw_split_walk_len (mem : memory) (str : Z) (d : list byte)
    (l1 l2 : Z) (state : option Z) :
  fst (fst (pw_split_walk mem str d l1 state))
  = fst (fst (pw_split_walk mem str d l2 state)) /\
  snd (pw_split_walk mem str d l1 state)
  = snd (pw_split_walk mem str d l2 state) /\
  (fst (fst (pw_split_walk mem str d l1 state)) <> None ->
   pw_split_walk mem str d l1 state = pw_split_walk mem str d l2 state).
Proof.
  unfold pw_split_walk.
  destruct (load mem _ =? 0); cbn; repeat split; congruence.
Qed.

Lemma walk_all_len (calls : nat) (mem : memory) (str : Z) (d : list byte)
    (l1 l2 : Z) (state : option Z) :
  walk_all calls mem str d l1 state = walk_all calls mem str d l2 state.
Proof.
  destruct calls as [|k]; [reflexivity|]. cbn [walk_all].
  destruct (pw_split_walk_len mem str d l1 l2 state) as (Hs & Hst & Hsome).
  destruct (pw_split_walk mem str d l1 state) as [[[s|] len'] state'] eqn:H1.
  - rewrite <- Hsome by discriminate. reflexivity.
  - destruct (pw_split_walk mem str d l2 state) as [[[s|] len2] state2];
      [discriminate Hs|reflexivity].
Qed.

(** The stores of [pw_split_ip] do not disturb its walk: the function
    does to the walk over the string as it was what [split_ip_of] says. *)
Lemma split_ip_loop_spec (mem0 : memory) (str : Z) (d : list byte)
    (max_tokens : Z) (fuel : nat) :
  forall (mem : memory) (sp len l2 lw n : Z) (tokens : list Z),
    0 <= sp -> 0 < len ->
    sp + len <= Z.of_nat (length mem0) ->
    (length mem0 < fuel + Z.to_nat (sp + len))%nat ->
    length mem = length mem0 ->
    from mem (sp + len) = from mem0 (sp + len) ->
    split_ip_loop fuel mem str d max_tokens (Some sp) len l2
      (Some (sp + len)) n tokens
    = Some (split_ip_of
              ((sp, len) :: walk_all fuel mem0 str d lw (Some (sp + len)))
              max_tokens n tokens mem).
Proof.
  induction fuel as [|f IH];
    intros mem sp len l2 lw n tokens Hsp Hlen Hmax Hfuel Hlm Hfrom;
    [lia|].
  cbn [split_ip_loop split_ip_of].
  destruct (n + 1 <? max_tokens) eqn:Hn; [|reflexivity].
  rewrite (pw_split_walk_from mem mem0 str d l2 (Some (sp + len)))
    by (cbn; first [lia | assumption]).
  cbn [walk_all].
  destruct (pw_split_walk_len mem0 str d l2 lw (Some (sp + len)))
    as (Hs & Hst & Hsome).
  destruct (pw_split_walk mem0 str d l2 (Some (sp + len)))
    as [[[t|] l2'] state'] eqn:Hwalk.
  - rewrite <- Hsome by discriminate.
    destruct (pw_split_walk_some mem0 str d l2 (Some (sp + len)) t l2' state'
                ltac:(lia) Hwalk) as (Hle & _ & Hl2 & _ & _ & -> & Hmax').
    apply (IH (store_byte mem (sp + len) "000"%byte) t l2' l2' l2'
              (n + 1) (tokens ++ [sp])); try lia.
    + now rewrite store_byte_length.
    + transitivity (from mem (t + l2')).
      * apply from_ext; [lia|apply store_byte_length|].
        intros q Hq. rewrite load_store_nul.
        destruct (Z.eqb_spec q (sp + len)); [lia|reflexivity].
      * replace (t + l2') with (sp + len + (t + l2' - (sp + len))) by lia.
        rewrite !(from_drop _ (sp + len)) by lia. now rewrite Hfrom.
  - destruct (pw_split_walk mem0 str d lw (Some (sp + len)))
      as [[[t|] lw'] statew]; [discriminate Hs|].
    destruct f; reflexivity.
Qed.

Lemma pw_split_ip_spec (mem : memory) (str : Z) (d : list byte)
    (max_tokens len0 l2 : Z) :
  0 <= str ->
  pw_split_ip mem str d max_tokens len0 l2
  = Some (split_ip_of (walk_all (S (length mem)) mem str d len0 None)
            max_tokens 0 [] mem).
Proof.
  intros Hstr. unfold pw_split_ip. cbn [walk_all].
  destruct (pw_split_walk mem str d len0 None) as [[[s|] len] state] eqn:Hwalk.
  - destruct (pw_split_walk_some mem str d len0 None s len state Hstr Hwalk)
      as (Hle & _ & Hlen & _ & _ & -> & Hmax).
    apply split_ip_loop_spec; try reflexivity; lia.
  - destruct (length mem); reflexivity.
Qed.

Lemma walk_all_in_order (calls : nat) (mem : memory) (str : Z)
    (d : list byte) :
  forall (len : Z) (state : option Z),
    0 <= match state with Some p => p | None => str end ->
    tokens_in_order mem d (match state with Some p => p | None => str end)
      (walk_all calls mem str d len state).
Proof.
  induction calls as [|k IH]; intros len state Hstart; [exact I|].
  cbn [walk_all].
  destruct (pw_split_walk mem str d len state) as [[[s|] len'] state']
    eqn:Hwalk; [|exact I].
  destruct (pw_split_walk_some mem str d len state s len' state' Hstart Hwalk)
    as (Hle & _ & Hlen & Htok & Hend & -> & _).
  cbn [tokens_in_order]. repeat split; try assumption.
  - apply Htok; assumption.
  - apply Htok; assumption.
  - apply (IH len' (Some (s + len'))). lia.
Qed.

Lemma tokens_in_order_lookup (mem : memory) (d : list byte)
    (toks : list (Z * Z)) :
  forall (lo : Z) (k : nat) (s len : Z),
    tokens_in_order mem d lo toks -> toks !! k = Some (s, len) ->
    lo <= s /\ 0 < len /\
    (forall q, s <= q < s + len ->
       in_set (load_byte mem q) d = false /\
       is_nul (load_byte mem q) = false) /\
    (is_nul (load_byte mem (s + len)) = true \/
     in_set (load_byte mem (s + len)) d = true).
Proof.
  induction toks as [|[s0 l0] rest IH]; intros lo k s len Hord Hk;
    [discriminate Hk|].
  cbn [tokens_in_order] in Hord.
  destruct Hord as (Hlo & Hl0 & Htok & Hend & Hrest).
  destruct k as [|k]; cbn in Hk.
  - injection Hk as <- <-. repeat split; try assumption; apply Htok; assumption.
  - destruct (IH (s0 + l0) k s len Hrest Hk) as (Hle & H).
    split; [lia|exact H].
Qed.


(** The count, the pointers and the memory that [split_ip_of] gives. *)
Lemma split_ip_of_closed (max_tokens : Z) (toks : list (Z * Z)) :
  forall (n : Z) (tokens : list Z) (mem : memory),
    split_ip_of toks max_tokens n tokens mem
    = (n + Z.of_nat (Nat.min (length toks)
                       (Z.to_nat (Z.max 1 (max_tokens - n)))),
       tokens ++ take (Nat.min (length toks)
                         (Z.to_nat (Z.max 1 (max_tokens - n))))
                   (map fst toks),
       cut_after mem
         (take (Nat.min (length toks) (Z.to_nat (max_tokens - n - 1))) toks)).
Proof.
  induction toks as [|[sp len] rest IH]; intros n tokens mem.
  - cbn. now rewrite Z.add_0_r, app_nil_r.
  - cbn [split_ip_of length map fst].
    destruct (Z.ltb_spec (n + 1) max_tokens) as [Hlt|Hge].
    + rewrite IH.
      replace (Nat.min (S (length rest)) (Z.to_nat (Z.max 1 (max_tokens - n))))
        with (S (Nat.min (length rest)
                   (Z.to_nat (Z.max 1 (max_tokens - (n + 1)))))) by lia.
      replace (Nat.min (S (length rest)) (Z.to_nat (max_tokens - n - 1)))
        with (S (Nat.min (length rest)
                   (Z.to_nat (max_tokens - (n + 1) - 1)))) by lia.
      cbn [firstn]. unfold cut_after. cbn [foldl fst snd].
      rewrite <- app_assoc. cbn [app]. do 2 f_equal. lia.
    + replace (Nat.min (S (length rest)) (Z.to_nat (Z.max 1 (max_tokens - n))))
        with 1%nat by lia.
      replace (Nat.min (S (length rest)) (Z.to_nat (max_tokens - n - 1)))
        with 0%nat by lia.
      reflexivity.
Qed.

Lemma load_cut_after (toks : list (Z * Z)) :
  forall (mem : memory) (q : Z),
    load_byte (cut_after mem toks) q
    = if existsb (fun t => q =? fst t + snd t) toks
      then "000"%byte else load_byte mem q.
Proof.
  unfold cut_after.
  induction toks as [|t rest IH]; intros mem q; [reflexivity|].
  cbn [foldl existsb]. rewrite IH, load_store_nul.
  destruct (q =? fst t + snd t); cbn [orb];
    destruct (existsb _ rest); reflexivity.
Qed.

Lemma cut_after_length (toks : list (Z * Z)) :
  forall mem : memory, length (cut_after mem toks) = length mem.
Proof.
  unfold cut_after.
  induction toks as [|t rest IH]; intros mem; [reflexivity|].
  cbn [foldl]. now rewrite IH, store_byte_length.
Qed.

Lemma from_uncons (mem : memory) (p : Z) :
  is_nul (load_byte mem p) = false ->
  from mem p = load_byte mem p :: from mem (p + 1).
Proof.
  intros Hn. pose proof (load_not_nul_in_range mem p Hn) as Hp.
  destruct (from mem p) as [|b rest] eqn:Hfr.
  - rewrite (from_nil mem p Hfr) in Hn. discriminate Hn.
  - destruct (from_cons mem p b rest ltac:(lia) Hfr) as (-> & -> & _).
    reflexivity.
Qed.

Lemma cstring_nul (mem : memory) (p : Z) :
  0 <= p -> is_nul (load_byte mem p) = true -> cstring mem p = [].
Proof.
  intros Hp Hn. unfold cstring. rewrite (load_byte_from mem p Hp) in Hn.
  destruct (from mem p) as [|b rest]; [reflexivity|].
  cbn in Hn. cbn [until_nul]. now rewrite Hn.
Qed.

(** A string that is the same as a span of another memory, and ends
    where the span ends. *)
Lemma cstring_eq_span (m' m : memory) (n : nat) :
  forall s : Z,
    0 <= s ->
    (forall q, s <= q < s + Z.of_nat n ->
       load_byte m' q = load_byte m q /\ is_nul (load_byte m q) = false) ->
    is_nul (load_byte m' (s + Z.of_nat n)) = true ->
    cstring m' s = span m s (Z.of_nat n).
Proof.
  induction n as [|n IH]; intros s Hs Hall Hend.
  - rewrite Z.add_0_r in Hend. rewrite (cstring_nul m' s Hs Hend).
    reflexivity.
  - destruct (Hall s ltac:(lia)) as [Heq Hn].
    rewrite span_from by assumption.
    replace (Z.to_nat (Z.of_nat (S n))) with (S n) by lia.
    rewrite (from_uncons m s Hn). cbn [firstn].
    unfold cstring. rewrite (from_uncons m' s) by now rewrite Heq.
    cbn [until_nul]. rewrite Heq, Hn. f_equal.
    specialize (IH (s + 1) ltac:(lia)).
    unfold cstring in IH. rewrite IH.
    + rewrite span_from by lia. now rewrite Nat2Z.id.
    + intros q Hq. apply Hall. lia.
    + now replace (s + 1 + Z.of_nat n) with (s + Z.of_nat (S n)) by lia.
Qed.


(** X17. [pw_split_ip] always returns: the count is the number of
    substrings of the string, but at most [max_tokens], and at most 1
    when [max_tokens] is below 1, so that one pointer is stored even
    then; the count is the number of pointers stored, and the memory
    keeps its size. *)
Theorem split_ip_count
    (mem : memory) (str : Z) (delimiter : list byte)
    (max_tokens len0 l2 : Z) :
  0 <= str ->
  exists (tokens : list Z) (mem' : memory),
    pw_split_ip mem str delimiter max_tokens len0 l2
    = Some (Z.of_nat (length tokens), tokens, mem') /\
    length tokens
    = Nat.min (length (split_spec delimiter (cstring mem str) []))
        (Z.to_nat (Z.max 1 max_tokens)) /\
    length mem' = length mem.
Proof.
  intros Hstr.
  rewrite (pw_split_ip_spec mem str delimiter max_tokens len0 l2 Hstr).
  rewrite split_ip_of_closed.
  rewrite <- (split_walk_tokens_aux mem str delimiter len0 Hstr).
  rewrite length_map. rewrite Z.sub_0_r. cbn [app].
  set (W := walk_all (S (length mem)) mem str delimiter len0 None).
  exists (take (Nat.min (length W) (Z.to_nat (Z.max 1 max_tokens)))
            (map fst W)),
    (cut_after mem
       (take (Nat.min (length W) (Z.to_nat (max_tokens - 1))) W)).
  rewrite length_take, length_map.
  split; [|split].
  - rewrite Z.add_0_l. do 3 f_equal. lia.
  - lia.
  - apply cut_after_length.
Qed.

Lemma split_ip_count_witness :
  exists (tokens : list Z) (mem' : memory),
    pw_split_ip (bytes "a b c") 0 (bytes " ") 0 0 0
    = Some (Z.of_nat (length tokens), tokens, mem') /\
    length tokens
    = Nat.min (length (split_spec (bytes " ") (cstring (bytes "a b c") 0) []))
        (Z.to_nat (Z.max 1 0)) /\
    length mem' = length (bytes "a b c").
Proof.
  apply (split_ip_count (bytes "a b c") 0 (bytes " ") 0 0 0). lia.
Defined.




(** X19. [pw_split_ip] changes nothing of the memory but delimiters
    that follow a substring, which it overwrites with NUL. *)
Theorem split_ip_overwrites_delimiters
    (mem : memory) (str : Z) (delimiter : list byte)
    (max_tokens len0 l2 : Z)
    (n : Z) (tokens : list Z) (mem' : memory) (q : Z) :
  0 <= str ->
  pw_split_ip mem str delimiter max_tokens len0 l2 = Some (n, tokens, mem') ->
  load_byte mem' q <> load_byte mem q ->
  load_byte mem' q = "000"%byte /\
  in_set (load_byte mem q) delimiter = true /\
  str < q /\
  is_nul (load_byte mem (q - 1)) = false /\
  in_set (load_byte mem (q - 1)) delimiter = false.
Proof.
  intros Hstr Hip Hne.
  rewrite (pw_split_ip_spec mem str delimiter max_tokens len0 l2 Hstr) in Hip.
  pose proof (walk_all_in_order (S (length mem)) mem str delimiter len0 None
                Hstr) as Hord.
  remember (walk_all (S (length mem)) mem str delimiter len0 None) as W
    eqn:HeqW.
  rewrite split_ip_of_closed in Hip. injection Hip as _ _ <-.
  rewrite load_cut_after in Hne |- *.
  destruct (existsb _ (take _ W)) eqn:Hex; [|contradiction].
  split; [reflexivity|].
  apply existsb_exists in Hex as ([si li] & Hel & Hq).
  apply list_elem_of_In, list_elem_of_lookup in Hel as [i Hi].
  apply lookup_take_Some in Hi as [Hi _]. cbn in Hq.
  apply Z.eqb_eq in Hq. subst q.
  destruct (tokens_in_order_lookup mem delimiter W str i si li Hord Hi)
    as (Hlo & Hlen & Htok & Hend).
  destruct (Htok (si + li - 1) ltac:(lia)) as [Hd Hn].
  repeat split; try assumption; try lia.
  destruct Hend as [E|E]; [|assumption].
  exfalso. apply Hne. unfold is_nul in E. apply Byte.byte_dec_bl in E.
  now rewrite E.
Qed.

Lemma split_ip_overwrites_delimiters_witness :
  load_byte (bytes "a" ++ ["000"%byte] ++ bytes " bc, d") 1 = "000"%byte /\
  in_set (load_byte (bytes "a, bc, d") 1) (bytes ", ") = true /\
  0 < 1 /\
  is_nul (load_byte (bytes "a, bc, d") (1 - 1)) = false /\
  in_set (load_byte (bytes "a, bc, d") (1 - 1)) (bytes ", ") = false.
Proof.
  apply (split_ip_overwrites_delimiters (bytes "a, bc, d") 0 (bytes ", ")
           2 0 0 2 [0; 3] (bytes "a" ++ ["000"%byte] ++ bytes " bc, d") 1).
  - lia.
  - vm_compute. reflexivity.
  - vm_compute. discriminate.
Defined.

(** ** [pw_strip] *)

Lemma drop_set_split (ws : list byte) (l : list byte) :
  exists t, l = t ++ drop_set ws l /\ Forall (fun b => in_set b ws = true) t.
Proof.
  induction l as [|b rest (t & Ht & Hall)]; [now exists []|].
  cbn [drop_set]. destruct (in_set b ws) eqn:Hb.
  - exists (b :: t). split; [cbn; now f_equal|]. now constructor.
  - now exists [].
Qed.


Lemma drop_set_app (ws : list byte) (l : list byte) (b : byte) :
  drop_set ws (l ++ [b])
  = match drop_set ws l with
    | [] => if in_set b ws then [] else [b]
    | _ :: _ => drop_set ws l ++ [b]
    end.
Proof.
  induction l as [|a l IH]; [reflexivity|]. cbn [app drop_set].
  destruct (in_set a ws); [exact IH|reflexivity].
Qed.

(** A string without its trailing whitespace, front to back. *)
Lemma strip_right_cons (ws : list byte) (b : byte) (c : list byte) :
  rev (drop_set ws (rev (b :: c)))
  = match rev (drop_set ws (rev c)) with
    | [] => if in_set b ws then [] else [b]
    | _ :: _ => b :: rev (drop_set ws (rev c))
    end.
Proof.
  cbn [rev]. rewrite drop_set_app.
  destruct (drop_set ws (rev c)) as [|x t] eqn:Hd.
  - cbn. now destruct (in_set b ws).
  - rewrite rev_app_distr. cbn [rev app].
    destruct (rev t ++ [x]) eqn:Hr; [|reflexivity].
    now destruct (rev t).
Qed.

Lemma strip_right_split (ws : list byte) (c : list byte) :
  exists t, c = rev (drop_set ws (rev c)) ++ t /\
            Forall (fun b => in_set b ws = true) t.
Proof.
  destruct (drop_set_split ws (rev c)) as (t & Ht & Hall).
  exists (rev t). split.
  - rewrite <- rev_app_distr, <- Ht. now rewrite rev_involutive.
  - now apply Forall_rev.
Qed.


(** The loop of [pw_strip] finds the last byte that is no whitespace. *)
Lemma last_kept_spec (ws : list byte) (l0 : list byte) :
  forall (e : Z) (l : option Z),
    last_kept ws l0 e l
    = match rev (drop_set ws (rev (until_nul l0))) with
      | [] => l
      | _ :: _ =>
          Some (e + Z.of_nat
                      (length (rev (drop_set ws (rev (until_nul l0))))) - 1)
      end.
Proof.
  induction l0 as [|b rest IH]; intros e l; [reflexivity|].
  cbn [last_kept until_nul]. destruct (is_nul b); [reflexivity|].
  rewrite IH, strip_right_cons.
  destruct (rev (drop_set ws (rev (until_nul rest)))) as [|x t].
  - destruct (in_set b ws); [reflexivity|]. cbn [length]. f_equal. lia.
  - cbn [length]. f_equal. lia.
Qed.

(** The string after the leading whitespace. *)
Lemma until_nul_drop_set (ws : list byte) (l : list byte) :
  until_nul
    (drop (Z.to_nat (prefix_len (fun b => negb (is_nul b) && in_set b ws) l))
       l)
  = drop_set ws (until_nul l).
Proof.
  induction l as [|b rest IH]; [reflexivity|].
  cbn [prefix_len until_nul].
  destruct (is_nul b) eqn:Hn; cbn [negb andb].
  - change (Z.to_nat 0) with 0%nat. cbn [skipn until_nul]. now rewrite Hn.
  - cbn [drop_set]. destruct (in_set b ws) eqn:Hd.
    + pose proof (prefix_len_nonneg
                    (fun b => negb (is_nul b) && in_set b ws) rest) as [H0 _].
      replace (Z.to_nat (1 + prefix_len
                               (fun b => negb (is_nul b) && in_set b ws) rest))
        with (S (Z.to_nat (prefix_len
                             (fun b => negb (is_nul b) && in_set b ws) rest)))
        by lia.
      cbn [skipn]. exact IH.
    + change (Z.to_nat 0) with 0%nat. cbn [skipn until_nul]. now rewrite Hn.
Qed.

(** The bytes of a string are its memory up to the NUL. *)
Lemma cstring_lookup (mem : memory) (l : list byte) :
  forall p : Z,
    0 <= p -> from mem p = l ->
    (forall i b, until_nul l !! i = Some b ->
       load_byte mem (p + Z.of_nat i) = b /\ is_nul b = false) /\
    is_nul (load_byte mem (p + Z.of_nat (length (until_nul l)))) = true.
Proof.
  induction l as [|a rest IH]; intros p Hp Hfr.
  - split; [intros i b Hi; discriminate Hi|].
    cbn. rewrite Z.add_0_r, (from_nil mem p Hfr). reflexivity.
  - destruct (from_cons mem p a rest Hp Hfr) as (Ha & Hrest & _).
    cbn [until_nul]. destruct (is_nul a) eqn:Hn.
    + split; [intros i b Hi; discriminate Hi|].
      cbn. now rewrite Z.add_0_r, Ha.
    + destruct (IH (p + 1) ltac:(lia) Hrest) as (Hall & Hend).
      split.
      * intros [|i] b Hi; cbn in Hi.
        -- injection Hi as <-. now rewrite Z.add_0_r.
        -- replace (p + Z.of_nat (S i)) with (p + 1 + Z.of_nat i) by lia.
           now apply Hall.
      * cbn [length].
        now replace (p + Z.of_nat (S (length (until_nul rest))))
          with (p + 1 + Z.of_nat (length (until_nul rest))) by lia.
Qed.

Lemma take_until_nul (l : list byte) :
  forall n : nat,
    (n <= length (until_nul l))%nat -> take n l = take n (until_nul l).
Proof.
  induction l as [|b l IH]; intros n Hn; [reflexivity|].
  cbn [until_nul] in *. destruct (is_nul b).
  - cbn in Hn. now replace n with 0%nat by lia.
  - destruct n as [|n]; [reflexivity|]. cbn [firstn length] in *.
    f_equal. apply IH. lia.
Qed.

(** What [pw_strip] does, in terms of the string after the leading
    whitespace and of its part [kept] before the trailing whitespace. *)
Lemma pw_strip_spec (mem : memory) (str : Z) (ws : list byte) :
  0 <= str ->
  let p := str + strspn mem str ws in
  let kept := rev (drop_set ws (rev (cstring mem p))) in
  pw_strip mem str ws
  = (p, store_byte mem (p + Z.of_nat (length kept)) "000"%byte) /\
  str <= p /\
  cstring mem p = drop_set ws (cstring mem str) /\
  exists t, cstring mem p = kept ++ t /\
            Forall (fun b => in_set b ws = true) t.
Proof.
  intros Hstr p kept.
  assert (Hk : 0 <= strspn mem str ws) by apply prefix_len_nonneg.
  split; [|split; [lia|split]].
  - unfold pw_strip. fold p. rewrite last_kept_spec.
    fold (cstring mem p). fold kept.
    destruct kept as [|x t]; [now rewrite Z.add_0_r|].
    do 2 f_equal. lia.
  - unfold cstring, p. rewrite (from_drop mem str _ Hstr Hk).
    apply until_nul_drop_set.
  - apply strip_right_split.
Qed.

(** X20. [pw_strip] returns the string without the bytes of
    [whitespace] at its two ends; the pointer returned is not before
    [str], and the memory keeps its size. *)
Theorem strip_gives_stripped
    (mem : memory) (str : Z) (whitespace : list byte)
    (p : Z) (mem' : memory) :
  0 <= str ->
  pw_strip mem str whitespace = (p, mem') ->
  cstring mem' p = strip_spec whitespace (cstring mem str) /\
  str <= p /\ length mem' = length mem.
Proof.
  intros Hstr Hstrip.
  destruct (pw_strip_spec mem str whitespace Hstr)
    as (Heq & Hle & Hdrop & t & Hsplit & Hws).
  rewrite Heq in Hstrip. injection Hstrip as <- <-.
  set (p := str + strspn mem str whitespace) in *.
  set (kept := rev (drop_set whitespace (rev (cstring mem p)))) in *.
  split; [|split; [assumption|apply store_byte_length]].
  unfold strip_spec. rewrite <- Hdrop. fold kept.
  destruct (cstring_lookup mem (from mem p) p ltac:(lia) eq_refl)
    as (Hall & _).
  fold (cstring mem p) in Hall.
  rewrite (cstring_eq_span _ mem (length kept) p ltac:(lia)).
  - rewrite span_from by lia. rewrite Nat2Z.id.
    assert (Hpre : take (length kept) (cstring mem p) = kept)
      by (rewrite Hsplit at 1; apply take_app_length).
    rewrite <- Hpre at 2. apply take_until_nul.
    fold (cstring mem p). rewrite Hsplit, length_app. lia.
  - intros q Hq. rewrite load_store_nul.
    destruct (Z.eqb_spec q (p + Z.of_nat (length kept))); [lia|].
    split; [reflexivity|].
    assert (Hi : (Z.to_nat (q - p) < length kept)%nat) by lia.
    destruct (lookup_lt_is_Some_2 kept _ Hi) as [b Hb].
    destruct (Hall (Z.to_nat (q - p)) b) as [Hl Hn].
    { rewrite Hsplit. now apply lookup_app_l_Some. }
    replace (p + Z.of_nat (Z.to_nat (q - p))) with q in Hl by lia.
    now rewrite Hl.
  - rewrite load_store_nul, Z.eqb_refl. reflexivity.
Qed.

Lemma strip_gives_stripped_witness :
  cstring (bytes "  ab c" ++ ["000"%byte] ++ bytes " ") 2
  = strip_spec (bytes " ") (cstring (bytes "  ab c  ") 0) /\
  0 <= 2 /\
  length (bytes "  ab c" ++ ["000"%byte] ++ bytes " ")
  = length (bytes "  ab c  ").
Proof.
  apply (strip_gives_stripped (bytes "  ab c  ") 0 (bytes " ") 2
           (bytes "  ab c" ++ ["000"%byte] ++ bytes " ")).
  - lia.
  - vm_compute. reflexivity.
Defined.


